(** * visualization.js: classification pipeline, spiral layout, texture
      streaming and interaction state of the poster map

    A shallow embedding of [src/visualization.js].

    Conventions.
    - The coordinates, distances and confidences of the scene are read as
      real numbers ([R]): that arithmetic is taken exactly, the rounding of
      IEEE doubles is outside the model.  The percentage of the progress
      indicator is computed as the source computes it, each operation rounded
      to the nearest double ([Binary64]), because the rounding decides the
      number shown.  Array indices, counts and
      [Math.floor]/[%]/[Math.ceil(Math.sqrt)] of such counts are natural
      numbers; [Date.now()] is an integer number of milliseconds ([Z]).
    - A plain object used as a dictionary ([categoriesMap], [particles]) is
      the list of its own properties in the order of their creation;
      [JSObject] gives the names it inherits and the order in which
      [Object.entries] and [Object.values] enumerate it.
    - Objects that the source mutates through several references (the
      sprites, reachable both from a group and from an [imageData] entry)
      live in a store indexed by allocation order.
    - Callbacks that the browser runs later (promise reactions, timers,
      texture loads, controls events) are the transitions of a step
      relation; the body of each callback is a function on the state. *)

From Stdlib Require Import Reals Lra Lia ZArith QArith Qround List Ascii String Bool Arith.
From Stdlib Require Floats.
From stdpp Require Import base list strings gmap.
Import ListNotations.
Open Scope string_scope.
Open Scope list_scope.
Open Scope nat_scope.

(** An element of a category bucket: [{filename, confidence}]. *)
Module Image.
Record t := mk { filename : string; confidence : R }.
End Image.

(** [categoriesMap]: a dictionary from label to bucket with its keys in the
    order of their creation (the order of [Map] iteration). *)
Definition CategoriesMap := list (string * list Image.t).

(* ===================================================================== *)
(** * Plain objects as dictionaries *)
(* ===================================================================== *)

Module JSObject.

(** The names a plain object inherits from [Object.prototype]: reading one
    of them on an object with no own property of that name gives the inherited
    value, a function (for [__proto__], the prototype object). *)
Definition inherited (k : string) : bool :=
  existsb (String.eqb k)
    ["constructor"; "hasOwnProperty"; "isPrototypeOf"; "propertyIsEnumerable";
     "toLocaleString"; "toString"; "valueOf"; "__proto__";
     "__defineGetter__"; "__defineSetter__"; "__lookupGetter__"; "__lookupSetter__"].

Definition digit (c : ascii) : option N :=
  let n := N_of_ascii c in
  if ((48 <=? n) && (n <=? 57))%N then Some (n - 48)%N else None.

Fixpoint decimal (s : string) (acc : N) : option N :=
  match s with
  | EmptyString => Some acc
  | String c s' =>
      match digit c with
      | Some d => decimal s' (10 * acc + d)%N
      | None => None
      end
  end.

(** An array index: the canonical decimal string of an integer below
    [2^32 - 1]. *)
Definition arrayIndex (k : string) : option N :=
  match k with
  | EmptyString => None
  | String c rest =>
      if Ascii.eqb c "0" && negb (String.eqb rest EmptyString) then None
      else
        match decimal k 0 with
        | Some n => if (n <=? 4294967294)%N then Some n else None
        | None => None
        end
  end.

Section Entries.
Context {V : Type}.

Fixpoint insert_by_index (n : N) (e : string * V) (l : list (N * (string * V)))
  : list (N * (string * V)) :=
  match l with
  | [] => [(n, e)]
  | (m, e') :: l' =>
      if (n <=? m)%N then (n, e) :: (m, e') :: l' else (m, e') :: insert_by_index n e l'
  end.

(** The properties whose name is an array index, by ascending index. *)
Fixpoint indexed (o : list (string * V)) : list (N * (string * V)) :=
  match o with
  | [] => []
  | e :: o' =>
      match arrayIndex (fst e) with
      | Some n => insert_by_index n e (indexed o')
      | None => indexed o'
      end
  end.

(** The other properties, in the order of their creation. *)
Definition named (o : list (string * V)) : list (string * V) :=
  List.filter (fun e => match arrayIndex (fst e) with Some _ => false | None => true end) o.

(** [Object.entries(o)]; [Object.values(o)] visits the same properties in
    the same order. *)
Definition Object_entries (o : list (string * V)) : list (string * V) :=
  map snd (indexed o) ++ named o.

End Entries.

End JSObject.

(* ===================================================================== *)
(** * Doubles *)
(* ===================================================================== *)

Module Binary64.
Local Open Scope Z_scope.

(** The integer nearest to [n / d], the even one of two equally near
    ([0 < d]). *)
Definition round_half_even (n d : Z) : Z :=
  let q := n / d in
  match 2 * (n mod d) ?= d with
  | Lt => q
  | Gt => q + 1
  | Eq => if Z.even q then q else q + 1
  end.

(** [floor (log2 (n / d))] for [0 < n] and [0 < d]. *)
Definition ilog2 (n d : Z) : Z :=
  if d <=? n then Z.log2 (n / d) else - Z.log2_up ((d + n - 1) / n).

(** The double nearest to [n / d] for [0 < n] and [0 < d]: a significand of
    53 bits, rounded to nearest, ties to even. *)
Definition round53 (n d : Z) : Q :=
  let E := ilog2 n d - 52 in
  if 0 <=? E then inject_Z (round_half_even n (d * 2 ^ E) * 2 ^ E)
  else round_half_even (n * 2 ^ (- E)) d # Z.to_pos (2 ^ (- E)).

(** The double nearest to [q].  The exponent is not bounded: the quantities
    rounded here are quotients of array indices and their products by 100,
    far inside the range of the normal doubles. *)
Definition binary64 (q : Q) : Q :=
  match Qnum q with
  | Z0 => 0%Q
  | Zpos n => round53 (Zpos n) (Zpos (Qden q))
  | Zneg n => (- round53 (Zpos n) (Zpos (Qden q)))%Q
  end.

(** The same computation on the doubles of the machine, to compare with. *)
Definition exact (x : SpecFloat.spec_float) : option Q :=
  match x with
  | SpecFloat.S754_zero _ => Some 0%Q
  | SpecFloat.S754_finite s m e =>
      let v := if 0 <=? e then inject_Z (Zpos m * 2 ^ e)
               else Zpos m # Z.to_pos (2 ^ (- e)) in
      Some (if s then Qopp v else v)
  | SpecFloat.S754_infinity _ | SpecFloat.S754_nan => None
  end.

Definition percent_float (e len : Z) : option Q :=
  exact (FloatOps.Prim2SF
           (PrimFloat.mul
              (PrimFloat.div (PrimFloat.of_uint63 (Uint63.of_Z e))
                             (PrimFloat.of_uint63 (Uint63.of_Z len)))
              (PrimFloat.of_uint63 (Uint63.of_Z 100)))).

Definition percent_rounded (e len : Z) : Q :=
  binary64 (binary64 (e # Z.to_pos len) * 100).

Definition agree (e len : Z) : bool :=
  match percent_float e len with
  | Some q => Qeq_bool q (percent_rounded e len)
  | None => false
  end.

End Binary64.

(* ===================================================================== *)
(** * Classification pipeline: [processImagesInBatches] *)
(* ===================================================================== *)

Module Pipeline.

Definition BATCH_SIZE : nat := 10.

(** What the browser and the classifier do with one image of the manifest. *)
Inductive Outcome :=
| LoadError                                  (* img.onerror fires *)
| ClassifyRejected                           (* img.onload fires, classifier.classify(img) rejects *)
| Classified (results : list (string * R)).  (* img.onload fires, classify resolves with ranked results *)

Inductive Phase :=
| Waiting    (* Promise.all(promises) of the current batch has not run its reaction *)
| TimerSet   (* setTimeout(..., 10) for the next batch is armed *)
| Ready.     (* createParticleGroups(categoryMap) was called *)

Record Pipeline := mkPipeline {
  imageFiles : list string;
  startIndex : nat;
  endIndex : nat;
  resolved : list nat;        (* indices whose promise has been resolved *)
  categoriesMap : CategoriesMap;
  progress : option Z;        (* number shown in #progress; None is NaN *)
  phase : Phase
}.

(** [if (!categoriesMap[category]) categoriesMap[category] = [];
     categoriesMap[category].push(entry)], for a label that names no property
    inherited from [Object.prototype]; [onclassified] deals with the others. *)
Fixpoint push_category (category : string) (entry : Image.t) (m : CategoriesMap)
  : CategoriesMap :=
  match m with
  | [] => [(category, [entry])]
  | (k, bucket) :: m' =>
      if String.eqb k category then (k, bucket ++ [entry]) :: m'
      else (k, bucket) :: push_category category entry m'
  end.

(** [Math.round(q)] on an exact rational. *)
Definition Math_round (q : Q) : Z := Qfloor (q + (1 # 2)).

(** [Math.round((endIndex / imageFiles.length) * 100)]: the quotient and
    the product are doubles, [Math.round] is exact on a double; [0 / 0] is
    NaN. *)
Definition percentComplete (endIndex len : nat) : option Z :=
  match len with
  | O => None
  | S _ =>
      Some (Math_round
              (Binary64.binary64
                 (Binary64.binary64 (Z.of_nat endIndex # Pos.of_nat len) * 100)))
  end.

(** The synchronous part of [processImagesInBatches(imageFiles, startIndex,
    categoriesMap)]: the promises of the images [startIndex .. endIndex-1] are
    created and the progress indicator is written.  [settled] is the promise
    store left by the earlier batches. *)
Definition processImagesInBatches (imageFiles : list string) (startIndex : nat)
    (categoriesMap : CategoriesMap) (settled : list nat) : Pipeline :=
  let endIndex := Nat.min (startIndex + BATCH_SIZE) (length imageFiles) in
  {| imageFiles := imageFiles;
     startIndex := startIndex;
     endIndex := endIndex;
     resolved := settled;
     categoriesMap := categoriesMap;
     progress := percentComplete endIndex (length imageFiles);
     phase := Waiting |}.

(** [img.onerror]: log and [resolve()]. *)
Definition onerror (i : nat) (s : Pipeline) : Pipeline :=
  {| imageFiles := imageFiles s; startIndex := startIndex s; endIndex := endIndex s;
     resolved := i :: resolved s;
     categoriesMap := categoriesMap s;
     progress := progress s; phase := phase s |}.

(** The reaction gets to [resolve()]: there is a first result, and its label
    names no inherited property. *)
Definition stores (results : list (string * R)) : bool :=
  match results with
  | [] => false
  | (label, _) :: _ => negb (JSObject.inherited label)
  end.

(** The reaction of [classifier.classify(img).then(results => ...)].
    [results[0].label] throws on an empty result list.  For a label that names
    an inherited property [categoriesMap[category]] is the inherited value: no
    bucket is created and [push], which that value does not have, throws.  In
    both cases nothing is stored and [resolve()] is not reached. *)
Definition onclassified (i : nat) (file : string) (results : list (string * R))
    (s : Pipeline) : Pipeline :=
  match results with
  | [] => s
  | (label, conf) :: _ =>
      if JSObject.inherited label then s
      else
        {| imageFiles := imageFiles s; startIndex := startIndex s; endIndex := endIndex s;
           resolved := i :: resolved s;
           categoriesMap :=
             push_category label (Image.mk file conf) (categoriesMap s);
           progress := progress s; phase := phase s |}
  end.

(** The reaction of [Promise.all(promises).then(...)]. *)
Definition onAllSettled (s : Pipeline) : Pipeline :=
  {| imageFiles := imageFiles s; startIndex := startIndex s; endIndex := endIndex s;
     resolved := resolved s; categoriesMap := categoriesMap s; progress := progress s;
     phase := if endIndex s <? length (imageFiles s) then TimerSet else Ready |}.

(** [Object.entries(categoriesMap).forEach(([key, value]) => categoryMap.set(key, value))]:
    the [Map] given to [createParticleGroups]. *)
Definition categoryMap (s : Pipeline) : CategoriesMap :=
  JSObject.Object_entries (categoriesMap s).

(** The timer callback: [processImagesInBatches(imageFiles, endIndex, categoriesMap)]. *)
Definition onTimer (s : Pipeline) : Pipeline :=
  processImagesInBatches (imageFiles s) (endIndex s) (categoriesMap s) (resolved s).

Definition inBatch (s : Pipeline) (i : nat) : Prop := startIndex s <= i < endIndex s.

Definition batchSettled (s : Pipeline) : Prop :=
  forall i, inBatch s i -> In i (resolved s).

(** One callback runs.  [env i] is the fate of the image at index [i]; an
    image whose classification rejects, or resolves with no result or with a
    first label that names an inherited property, has no transition that
    resolves its promise. *)
Inductive step (env : nat -> Outcome) : Pipeline -> Pipeline -> Prop :=
| step_onerror s i :
    phase s = Waiting -> inBatch s i -> ~ In i (resolved s) ->
    env i = LoadError ->
    step env s (onerror i s)
| step_classified s i file results :
    phase s = Waiting -> inBatch s i -> ~ In i (resolved s) ->
    env i = Classified results -> stores results = true ->
    nth_error (imageFiles s) i = Some file ->
    step env s (onclassified i file results s)
| step_all s :
    phase s = Waiting -> batchSettled s ->
    step env s (onAllSettled s)
| step_timer s :
    phase s = TimerSet ->
    step env s (onTimer s).

Inductive reachable (env : nat -> Outcome) (files : list string) : Pipeline -> Prop :=
| reach_init : reachable env files (processImagesInBatches files 0 [] [])
| reach_step s s' : reachable env files s -> step env s s' -> reachable env files s'.

Definition settled (s : Pipeline) (i : nat) : Prop := In i (resolved s).
Definition completed (s : Pipeline) : nat := length (resolved s).

End Pipeline.

(* ===================================================================== *)
(** * Scene state: layout, texture streaming, filtering, selection *)
(* ===================================================================== *)

Module Viz.

Local Open Scope R_scope.

Definition PARTICLE_SIZE : R := 5.
Definition SPACING : R := 10.
Definition LOD_DISTANCE : R := 50.

Definition Vec3 : Type := R * R * R.

(** The two conversions of the JavaScript runtime that the source relies on:
    the number-to-string conversion of a template literal [`${x}`] and
    [Number(s)]. *)
Class Runtime := {
  Number_toString : R -> string;
  Number : string -> R
}.

(** A texture object: the shared placeholder canvas, or the result of
    [textureLoader.load('all/' + file)] configured by the warm-up callback
    (LinearFilter) or by the LOD callback (LinearMipMapLinearFilter, maximal
    anisotropy). *)
Inductive Texture :=
| placeholderTexture
| StandardTexture (file : string)
| HighTexture (file : string).

Record Sprite := mkSprite {
  position : Vec3;
  visible : bool;
  material_map : Texture;
  material_opacity : R
}.

(** The value stored in [imageData]; [sprite] is a reference into the store. *)
Record ImageData := mkImageData {
  filename : string;
  category : string;
  confidence : R;
  sprite : nat;
  loaded : bool;
  highQualityLoaded : bool
}.

Record Group := mkGroup {
  children : list nat;
  userData_category : string;
  userData_count : nat
}.

(** A [textureLoader.load] request in flight, with what its callbacks captured. *)
Inductive Fetch :=
| StandardFetch (file positionKey : string) (spr : nat)
| HighFetch (key file : string) (spr : nat).

Record State := mkState {
  sprites : list Sprite;                      (* store of THREE.Sprite objects *)
  imageData : list (string * ImageData);      (* Map, in insertion order *)
  highResTextures : gmap string Texture;      (* Map *)
  pendingTextures : gset string;              (* Set *)
  particles : list (string * Group);          (* plain object: own properties as created *)
  loads : list Fetch;
  camera_position : Vec3;
  imagePreview : option ImageData             (* record shown in #imagePreview, if displayed *)
}.

Definition set_sprites (v : list Sprite) (s : State) : State :=
  mkState v (imageData s) (highResTextures s) (pendingTextures s) (particles s)
          (loads s) (camera_position s) (imagePreview s).
Definition set_imageData (v : list (string * ImageData)) (s : State) : State :=
  mkState (sprites s) v (highResTextures s) (pendingTextures s) (particles s)
          (loads s) (camera_position s) (imagePreview s).
Definition set_highResTextures (v : gmap string Texture) (s : State) : State :=
  mkState (sprites s) (imageData s) v (pendingTextures s) (particles s)
          (loads s) (camera_position s) (imagePreview s).
Definition set_pendingTextures (v : gset string) (s : State) : State :=
  mkState (sprites s) (imageData s) (highResTextures s) v (particles s)
          (loads s) (camera_position s) (imagePreview s).
Definition set_particles (v : list (string * Group)) (s : State) : State :=
  mkState (sprites s) (imageData s) (highResTextures s) (pendingTextures s) v
          (loads s) (camera_position s) (imagePreview s).
Definition set_loads (v : list Fetch) (s : State) : State :=
  mkState (sprites s) (imageData s) (highResTextures s) (pendingTextures s) (particles s)
          v (camera_position s) (imagePreview s).
Definition set_camera_position (v : Vec3) (s : State) : State :=
  mkState (sprites s) (imageData s) (highResTextures s) (pendingTextures s) (particles s)
          (loads s) v (imagePreview s).
Definition set_imagePreview (v : option ImageData) (s : State) : State :=
  mkState (sprites s) (imageData s) (highResTextures s) (pendingTextures s) (particles s)
          (loads s) (camera_position s) v.

Definition set_visible (v : bool) (sp : Sprite) : Sprite :=
  mkSprite (position sp) v (material_map sp) (material_opacity sp).
Definition set_material_map (v : Texture) (sp : Sprite) : Sprite :=
  mkSprite (position sp) (visible sp) v (material_opacity sp).
Definition set_material_opacity (v : R) (sp : Sprite) : Sprite :=
  mkSprite (position sp) (visible sp) (material_map sp) v.
Definition set_loaded (v : bool) (d : ImageData) : ImageData :=
  mkImageData (filename d) (category d) (confidence d) (sprite d) v (highQualityLoaded d).
Definition set_highQualityLoaded (v : bool) (d : ImageData) : ImageData :=
  mkImageData (filename d) (category d) (confidence d) (sprite d) (loaded d) v.

(** ** Insertion-ordered dictionaries with string keys *)

Section Dict.
Context {V : Type}.

Fixpoint Map_get (k : string) (m : list (string * V)) : option V :=
  match m with
  | [] => None
  | (k', v) :: m' => if String.eqb k' k then Some v else Map_get k m'
  end.

(** [m.set(k, v)]: an existing key keeps its place, a new key goes last. *)
Fixpoint Map_set (k : string) (v : V) (m : list (string * V)) : list (string * V) :=
  match m with
  | [] => [(k, v)]
  | (k', v') :: m' =>
      if String.eqb k' k then (k', v) :: m' else (k', v') :: Map_set k v m'
  end.

(** A field assignment on the object stored under [k]. *)
Fixpoint Map_alter (f : V -> V) (k : string) (m : list (string * V)) : list (string * V) :=
  match m with
  | [] => []
  | (k', v') :: m' =>
      if String.eqb k' k then (k', f v') :: m' else (k', v') :: Map_alter f k m'
  end.

End Dict.

(** [array.forEach((a, i) => ...)] threading the state of the callback. *)
Fixpoint forEach_indexed {A B : Type} (f : B -> nat -> A -> B) (l : list A) (i : nat)
    (acc : B) : B :=
  match l with
  | [] => acc
  | a :: l' => forEach_indexed f l' (S i) (f acc i a)
  end.

(** ** Layout: [createParticleGroups] *)

(** [entries.sort((a, b) => b[1].length - a[1].length)]: descending member
    count; the sort is stable, equal counts keep their order. *)
Fixpoint insert_by_count (c : string * list Image.t) (l : CategoriesMap) : CategoriesMap :=
  match l with
  | [] => [c]
  | d :: l' =>
      if (length (snd d) <=? length (snd c))%nat then c :: d :: l'
      else d :: insert_by_count c l'
  end.

Definition sort_by_count (m : CategoriesMap) : CategoriesMap :=
  fold_right insert_by_count [] m.

Definition CATEGORY_SPACING_X : R := SPACING * 25.
Definition CATEGORY_SPACING_Z : R := SPACING * 25.
Definition centerX : R := 0.
Definition centerZ : R := 0.

Definition getSpiralCoordinates (index totalCategories : nat) : R * R :=
  if (index =? 0)%nat then (centerX, centerZ)
  else
    let angle := INR index * 0.5 in
    let radius := sqrt (INR index) * CATEGORY_SPACING_X * 2 in
    (centerX + radius * cos angle, centerZ + radius * sin angle).

(** The coordinates computed for image [i] of a category of [len] images laid
    out in [cols] columns around [(categoryX, categoryY, categoryZ)]. *)
Definition imagePosition (categoryX categoryY categoryZ : R) (cols len : nat)
    (conf : R) (i : nat) : Vec3 :=
  let x := categoryX + INR (i mod cols) * SPACING - (INR cols * SPACING) / 2 in
  let z := categoryZ + INR (i / cols) * SPACING - (INR (len / cols) * SPACING) / 2 in
  let confidenceElevation := conf * 30 in
  let y := categoryY + confidenceElevation in
  (x, y, z).

Definition positionKey `{Runtime} (p : Vec3) : string :=
  let '(x, y, z) := p in
  (Number_toString x ++ "," ++ Number_toString y ++ "," ++ Number_toString z)%string.

(** The body of [images.forEach((img, i) => ...)]. *)
Definition placeImage `{Runtime} (category : string) (categoryX categoryY categoryZ : R)
    (cols len : nat) (acc : State * list nat) (i : nat) (img : Image.t)
    : State * list nat :=
  let '(s, group) := acc in
  let p := imagePosition categoryX categoryY categoryZ cols len (Image.confidence img) i in
  let id := length (sprites s) in
  let spriteObj := mkSprite p true placeholderTexture 1 in
  let key := positionKey p in
  let data := mkImageData (Image.filename img) category (Image.confidence img) id false false in
  let s1 := set_imageData (Map_set key data (imageData s))
              (set_sprites (sprites s ++ [spriteObj]) s) in
  let group1 := group ++ [id] in
  if decide (Image.filename img ∈ pendingTextures s1) then (s1, group1)
  else
    (set_loads (loads s1 ++ [StandardFetch (Image.filename img) key id])
       (set_pendingTextures (pendingTextures s1 ∪ {[Image.filename img]}) s1),
     group1).

(** The body of [sortedCategories.forEach(([category, images], categoryIndex) => ...)].
    [particles[category] = group] creates the property [category] or replaces
    its value.  The one name for which such an assignment creates no property,
    [__proto__], is the label of no bucket that the pipeline hands over
    ([PipelineMore.labels_own]). *)
Definition placeCategory `{Runtime} (totalCategories : nat) (s : State) (categoryIndex : nat)
    (entry : string * list Image.t) : State :=
  let '(category, images) := entry in
  let '(categoryX, categoryZ) := getSpiralCoordinates categoryIndex totalCategories in
  let categoryY := 0 in
  let cols := Nat.sqrt_up (length images) in
  let '(s1, group) :=
    forEach_indexed (placeImage category categoryX categoryY categoryZ cols (length images))
                    images 0%nat (s, []) in
  set_particles (Map_set category (mkGroup group category (length images)) (particles s1)) s1.

Definition positionCameraForSpiralView (s : State) : State :=
  set_camera_position (411.84, 386.34, 898.09) s.

Definition createParticleGroups `{Runtime} (categoriesMap : CategoriesMap) (s : State) : State :=
  let sortedCategories := sort_by_count categoriesMap in
  let totalCategories := length sortedCategories in
  positionCameraForSpiralView
    (forEach_indexed (placeCategory totalCategories) sortedCategories 0%nat s).

(** The state when the module has been evaluated: nothing is laid out. *)
Definition initialState : State :=
  mkState [] [] ∅ ∅ [] [] (0, 0, 0) None.

(** ** Texture streaming *)

Definition hqKey (file : string) : string := ("hq_" ++ file)%string.

(** The success callback of the warm-up load issued by [createParticleGroups]. *)
Definition onStandardLoaded (file key : string) (spr : nat) (s : State) : State :=
  let texture := StandardTexture file in
  let s1 := set_highResTextures (<[file := texture]> (highResTextures s)) s in
  let s2 :=
    match Map_get key (imageData s1) with
    | Some _ =>
        set_imageData (Map_alter (set_loaded true) key (imageData s1))
          (set_sprites (alter (set_material_map texture) spr (sprites s1)) s1)
    | None => s1
    end in
  set_pendingTextures (pendingTextures s2 ∖ {[file]}) s2.

Definition onStandardFailed (file : string) (s : State) : State :=
  set_pendingTextures (pendingTextures s ∖ {[file]}) s.

(** The success callback of the load issued by [updateLOD]; [key] names the
    [data] object the closure holds. *)
Definition onHighLoaded (key file : string) (spr : nat) (s : State) : State :=
  let texture := HighTexture file in
  let s1 := set_highResTextures (<[hqKey file := texture]> (highResTextures s)) s in
  let s2 := set_pendingTextures (pendingTextures s1 ∖ {[hqKey file]}) s1 in
  set_imageData (Map_alter (set_highQualityLoaded true) key (imageData s2))
    (set_sprites (alter (set_material_map texture) spr (sprites s2)) s2).

Definition onHighFailed (file : string) (s : State) : State :=
  set_pendingTextures (pendingTextures s ∖ {[hqKey file]}) s.

(** [key.split(',')] *)
Fixpoint split_comma (s : string) : list string :=
  match s with
  | EmptyString => [EmptyString]
  | String c s' =>
      if Ascii.eqb c ","%char then EmptyString :: split_comma s'
      else match split_comma s' with
           | [] => [String c EmptyString]
           | w :: ws => String c w :: ws
           end
  end.

(** [const [x, y, z] = key.split(',').map(Number)].  With fewer than three
    components a coordinate is [undefined], the distance is NaN and both
    comparisons of [updateLOD] fail: [None]. *)
Definition keyPosition `{Runtime} (key : string) : option Vec3 :=
  match map Number (split_comma key) with
  | x :: y :: z :: _ => Some (x, y, z)
  | _ => None
  end.

(** [a.distanceTo(b)] *)
Definition distanceTo (a b : Vec3) : R :=
  let '(x1, y1, z1) := a in
  let '(x2, y2, z2) := b in
  let dx := x1 - x2 in
  let dy := y1 - y2 in
  let dz := z1 - z2 in
  sqrt (dx * dx + dy * dy + dz * dz).

Definition Rltb (a b : R) : bool := if Rlt_dec a b then true else false.
Definition Rgeb (a b : R) : bool := if Rge_dec a b then true else false.

(** The body of [imageData.forEach((data, key) => ...)] in [updateLOD]. *)
Definition updateLOD_entry `{Runtime} (s : State) (key : string) : State :=
  match Map_get key (imageData s) with
  | None => s
  | Some data =>
    match sprites s !! sprite data with
    | None => s
    | Some spriteObj =>
      if negb (visible spriteObj) then s
      else
        match keyPosition key with
        | None => s
        | Some p =>
          let distance := distanceTo (camera_position s) p in
          if Rltb distance LOD_DISTANCE && negb (highQualityLoaded data) then
            if decide (hqKey (filename data) ∈ pendingTextures s) then s
            else
              set_loads (loads s ++ [HighFetch key (filename data) (sprite data)])
                (set_pendingTextures (pendingTextures s ∪ {[hqKey (filename data)]}) s)
          else if Rgeb distance LOD_DISTANCE && highQualityLoaded data then
            match highResTextures s !! filename data with
            | Some texture =>
                set_imageData (Map_alter (set_highQualityLoaded false) key (imageData s))
                  (set_sprites (alter (set_material_map texture) (sprite data) (sprites s)) s)
            | None => s
            end
          else s
        end
    end
  end.

Definition updateLOD `{Runtime} (s : State) : State :=
  fold_left updateLOD_entry (map fst (imageData s)) s.

(** ** Confidence filter *)

Definition filter_entry (threshold : R) (s : State) (data : ImageData) : State :=
  set_sprites
    (alter (set_visible (Rgeb (confidence data) threshold)) (sprite data) (sprites s)) s.

Definition filterImagesByConfidence (threshold : R) (s : State) : State :=
  fold_left (filter_entry threshold) (map snd (imageData s)) s.

(** The records whose sprite is visible, by key. *)
Definition isVisible (s : State) (data : ImageData) : bool :=
  match sprites s !! sprite data with
  | Some spriteObj => visible spriteObj
  | None => false
  end.

Definition visibleKeys (s : State) : list string :=
  map fst (List.filter (fun e => isVisible s (snd e)) (imageData s)).

(** ** Selection *)

Definition setOpacityIfVisible (o : R) (sps : list Sprite) (id : nat) : list Sprite :=
  alter (fun sp => if visible sp then set_material_opacity o sp else sp) id sps.

(** [Object.values(particles)], each group with the name it is stored under:
    the groups whose name is an array index come first, by index, the others
    follow in the order in which they were stored. *)
Definition Object_values_particles (s : State) : list (string * Group) :=
  JSObject.Object_entries (particles s).

(** [Object.values(particles).forEach(p => p.children.forEach(s => ...))]
    with [s.material.opacity = p === group ? 1.0 : 0.3]; the groups of
    [particles] are told apart by the name they are stored under. *)
Definition highlight (group : string) (s : State) : State :=
  set_sprites
    (fold_left
       (fun sps (p : string * Group) =>
          fold_left (setOpacityIfVisible (if String.eqb (fst p) group then 1.0 else 0.3))
                    (children (snd p)) sps)
       (Object_values_particles s) (sprites s))
    s.

Definition closeImagePreview (s : State) : State :=
  set_imagePreview None
    (set_sprites
       (fold_left
          (fun sps (p : string * Group) =>
             fold_left (setOpacityIfVisible 1.0) (children (snd p)) sps)
          (Object_values_particles s) (sprites s))
       s).

(** What [onClick] looks up for a sprite returned by the raycaster. *)
Definition clickKey `{Runtime} (s : State) (id : nat) : option string :=
  match sprites s !! id with
  | Some spriteObj => Some (positionKey (position spriteObj))
  | None => None
  end.

Definition clickData `{Runtime} (s : State) (id : nat) : option ImageData :=
  match clickKey s id with
  | Some key => Map_get key (imageData s)
  | None => None
  end.

(** One group of [onClick]; [hit c] is [intersects[0].object] for the group of
    category [c], if the ray meets one of its visible sprites. *)
Definition onClick_group `{Runtime} (hit : string -> option nat) (acc : State * bool)
    (g : string * Group) : State * bool :=
  let '(s, hitSprite) := acc in
  match hit (fst g) with
  | None => (s, hitSprite)
  | Some id =>
      match clickData s id with
      | Some data => (set_imagePreview (Some data) (highlight (fst g) s), true)
      | None => (s, true)
      end
  end.

Definition onClick `{Runtime} (hit : string -> option nat) (s : State) : State :=
  let '(s1, hitSprite) :=
    fold_left (onClick_group hit) (Object_values_particles s) (s, false) in
  if hitSprite then s1 else closeImagePreview s1.

(** The raycaster only returns visible children of the group it is given. *)
Definition raycast_ok (s : State) (hit : string -> option nat) : Prop :=
  forall c id, hit c = Some id ->
    exists g spriteObj,
      Map_get c (particles s) = Some g /\ In id (children g) /\
      sprites s !! id = Some spriteObj /\ visible spriteObj = true.

(** ** Transitions after layout *)

Inductive step `{Runtime} : State -> State -> Prop :=
| step_standard_loaded s n file key spr :
    loads s !! n = Some (StandardFetch file key spr) ->
    step s (onStandardLoaded file key spr (set_loads (delete n (loads s)) s))
| step_standard_failed s n file key spr :
    loads s !! n = Some (StandardFetch file key spr) ->
    step s (onStandardFailed file (set_loads (delete n (loads s)) s))
| step_high_loaded s n key file spr :
    loads s !! n = Some (HighFetch key file spr) ->
    step s (onHighLoaded key file spr (set_loads (delete n (loads s)) s))
| step_high_failed s n key file spr :
    loads s !! n = Some (HighFetch key file spr) ->
    step s (onHighFailed file (set_loads (delete n (loads s)) s))
| step_camera s p :                       (* OrbitControls or auto-rotation *)
    step s (set_camera_position p s)
| step_updateLOD s :                      (* the throttled 'change' timer *)
    step s (updateLOD s)
| step_filter s threshold :               (* slider input *)
    step s (filterImagesByConfidence threshold s)
| step_click s hit :                      (* click on the canvas *)
    raycast_ok s hit ->
    step s (onClick hit s)
| step_click_outside s :                  (* click outside the canvas and the preview *)
    step s (closeImagePreview s).

Inductive reachable `{Runtime} (categoriesMap : CategoriesMap) : State -> Prop :=
| reach_layout : reachable categoriesMap (createParticleGroups categoriesMap initialState)
| reach_step s s' : reachable categoriesMap s -> step s s' -> reachable categoriesMap s'.

Inductive steps `{Runtime} : State -> State -> Prop :=
| steps_refl s : steps s s
| steps_step s s' s'' : steps s s' -> step s' s'' -> steps s s''.

End Viz.

(* ===================================================================== *)
(** * Auto-rotation flags *)
(* ===================================================================== *)

Module AutoRotate.

Local Open Scope Z_scope.

Definition AUTO_ROTATE_RESUME_DELAY : Z := 10000.

(** The delay of the timer armed at the end of [createParticleGroups]. *)
Definition WARMUP_DELAY : Z := 8000.

Record Flags := mkFlags {
  autoRotate : bool;
  userInteracted : bool;
  lastUserInteractionTime : Z;
  warmupTimer : option Z      (* due time of the armed timer, if any *)
}.

Definition init : Flags := mkFlags false false 0 None.

(** The callbacks that read or write the flags, with the value of
    [Date.now()] when they run. *)
Inductive Event :=
| ControlsStart (now : Z)     (* controls 'start' *)
| ControlsEnd (now : Z)       (* controls 'end' *)
| LayoutDone (now : Z)        (* createParticleGroups arms setTimeout(..., 8000) *)
| WarmupFires (now : Z)       (* the timer callback: autoRotate = true *)
| Frame (now : Z).            (* animate() *)

Definition time_of (e : Event) : Z :=
  match e with
  | ControlsStart t | ControlsEnd t | LayoutDone t | WarmupFires t | Frame t => t
  end.

Definition onStart (s : Flags) : Flags :=
  mkFlags false true (lastUserInteractionTime s) (warmupTimer s).

Definition onEnd (now : Z) (s : Flags) : Flags :=
  mkFlags (autoRotate s) (userInteracted s) now (warmupTimer s).

Definition onLayoutDone (now : Z) (s : Flags) : Flags :=
  mkFlags (autoRotate s) (userInteracted s) (lastUserInteractionTime s)
          (Some (now + WARMUP_DELAY)).

(** A timer does not run before it is due. *)
Definition onWarmupFires (now : Z) (s : Flags) : Flags :=
  match warmupTimer s with
  | Some due =>
      if due <=? now
      then mkFlags true (userInteracted s) (lastUserInteractionTime s) None
      else s
  | None => s
  end.

(** The head of [animate()]. *)
Definition animate (now : Z) (s : Flags) : Flags :=
  if userInteracted s && negb (autoRotate s)
     && (AUTO_ROTATE_RESUME_DELAY <? now - lastUserInteractionTime s)
  then mkFlags true false (lastUserInteractionTime s) (warmupTimer s)
  else s.

Definition handle (s : Flags) (e : Event) : Flags :=
  match e with
  | ControlsStart _ => onStart s
  | ControlsEnd now => onEnd now s
  | LayoutDone now => onLayoutDone now s
  | WarmupFires now => onWarmupFires now s
  | Frame now => animate now s
  end.

Definition run (tr : list Event) : Flags := fold_left handle tr init.

(** Timestamps do not decrease along a trace. *)
Fixpoint chronological (tr : list Event) : bool :=
  match tr with
  | e :: ((e' :: _) as tr') => (time_of e <=? time_of e') && chronological tr'
  | _ => true
  end.

Definition isControls (e : Event) : bool :=
  match e with ControlsStart _ | ControlsEnd _ => true | _ => false end.
Definition isStart (e : Event) : bool :=
  match e with ControlsStart _ => true | _ => false end.

End AutoRotate.

(* ===================================================================== *)
(** * Properties of plain objects and of the rounding *)
(* ===================================================================== *)

Module JSObjectFacts.
Import JSObject.

Section Entries.
Context {V : Type}.
Implicit Types (o : list (string * V)) (e : string * V).

Lemma insert_by_index_perm n e (l : list (N * (string * V))) :
  Permutation.Permutation ((n, e) :: l) (insert_by_index n e l).
Proof.
  induction l as [|[m e'] l IH]; simpl; [reflexivity|].
  destruct (n <=? m)%N; [reflexivity|].
  rewrite Permutation.perm_swap. now apply Permutation.perm_skip.
Qed.

(** [Object.entries] lists every own property once. *)
Lemma Object_entries_perm o : Permutation.Permutation (Object_entries o) o.
Proof.
  unfold Object_entries. induction o as [|e o IH]; simpl; [reflexivity|].
  destruct (arrayIndex (fst e)) as [n|].
  - rewrite <- (Permutation.Permutation_map snd (insert_by_index_perm n e (indexed o))).
    simpl. now apply Permutation.perm_skip.
  - rewrite <- Permutation.Permutation_middle. now apply Permutation.perm_skip.
Qed.

Lemma Object_entries_In o e : In e (Object_entries o) <-> In e o.
Proof.
  split; apply Permutation.Permutation_in;
    [apply Object_entries_perm|apply Permutation.Permutation_sym, Object_entries_perm].
Qed.

Lemma indexed_nil o :
  (forall e, In e o -> arrayIndex (fst e) = None) -> indexed o = [] /\ named o = o.
Proof.
  induction o as [|e o IH]; intros Hno; [split; reflexivity|].
  destruct IH as [Hi Hn]; [intros e' He'; apply Hno; now right|].
  unfold named in *. simpl. rewrite (Hno e) by now left. now rewrite Hi, Hn.
Qed.

(** Without array indices among the names, the order is that of creation. *)
Lemma Object_entries_named o :
  (forall e, In e o -> arrayIndex (fst e) = None) -> Object_entries o = o.
Proof.
  intros Hno. unfold Object_entries. destruct (indexed_nil o Hno) as [-> ->]. reflexivity.
Qed.

End Entries.

End JSObjectFacts.

Module Binary64Facts.
Import Binary64.
Local Open Scope Z_scope.

Lemma round_half_even_le n d N : 0 < d -> n <= N * d -> round_half_even n d <= N.
Proof.
  intros Hd Hn. unfold round_half_even.
  pose proof (Z.div_mod n d ltac:(lia)) as E.
  pose proof (Z.mod_pos_bound n d Hd) as Hr.
  assert (Hq : n / d <= N) by (apply Z.div_le_upper_bound; lia).
  destruct (Z.eq_dec (n / d) N) as [Heq|Hne].
  - assert (n mod d = 0) by nia.
    replace (2 * (n mod d) ?= d) with Lt by (symmetry; apply Z.compare_lt_iff; lia). lia.
  - destruct (2 * (n mod d) ?= d); [destruct (Z.even (n / d))| |]; lia.
Qed.

Lemma round_half_even_ge n d N : 0 < d -> N * d <= n -> N <= round_half_even n d.
Proof.
  intros Hd Hn. unfold round_half_even.
  assert (Hq : N <= n / d) by (apply Z.div_le_lower_bound; lia).
  destruct (2 * (n mod d) ?= d); [destruct (Z.even (n / d))| |]; lia.
Qed.

Lemma ilog2_lt n d j : 0 < n -> 0 < d -> 0 <= j -> n < 2 ^ j * d -> ilog2 n d < j.
Proof.
  intros Hn Hd Hj Hlt. unfold ilog2. destruct (d <=? n) eqn:E.
  - apply Z.leb_le in E. apply Z.log2_lt_pow2.
    + apply Z.div_str_pos. lia.
    + apply Z.div_lt_upper_bound; lia.
  - pose proof (Z.log2_up_nonneg ((d + n - 1) / n)).
    destruct (Z.eq_dec j 0) as [->|]; [|lia].
    apply Z.leb_gt in E.
    assert (1 < (d + n - 1) / n).
    { apply Z.lt_le_trans with 2; [lia|]. apply Z.div_le_lower_bound; lia. }
    pose proof (Z.log2_up_pos ((d + n - 1) / n) ltac:(lia)). lia.
Qed.

Lemma round53_between n d lo hi :
  0 < n -> 0 < d -> hi < 2 ^ 52 -> lo * d <= n <= hi * d ->
  (inject_Z lo <= round53 n d <= inject_Z hi)%Q.
Proof.
  intros Hn Hd Hhi [Hlo Hup]. unfold round53.
  assert (HE : ilog2 n d - 52 < 0).
  { assert (ilog2 n d < 52); [|lia]. apply ilog2_lt; try lia. nia. }
  set (E := ilog2 n d - 52) in *.
  replace (0 <=? E) with false by (symmetry; apply Z.leb_gt; exact HE).
  assert (Hp : 0 < 2 ^ (- E)) by (apply Z.pow_pos_nonneg; lia).
  unfold Qle. simpl Qnum. simpl Qden. rewrite Z2Pos.id by exact Hp.
  split.
  - rewrite Z.mul_1_r. apply round_half_even_ge; [exact Hd|nia].
  - rewrite Z.mul_1_r. apply round_half_even_le; [exact Hd|nia].
Qed.

(** Rounding to the nearest double does not cross an integer below 2^52. *)
Lemma binary64_between (q : Q) (lo hi : Z) :
  0 <= lo -> hi < 2 ^ 52 ->
  (inject_Z lo <= q <= inject_Z hi)%Q ->
  (inject_Z lo <= binary64 q <= inject_Z hi)%Q.
Proof.
  intros Hlo Hhi [H1 H2]. destruct q as [a b]. unfold binary64. simpl Qnum. simpl Qden.
  unfold Qle in H1, H2. simpl in H1, H2.
  destruct a as [|a|a].
  - unfold Qle. simpl. lia.
  - apply round53_between; lia.
  - lia.
Qed.

(** The rounding defined here gives the doubles of the machine: for every
    manifest of up to 40 files and every index into it, and for the launches
    of some longer manifests, among them the ten launches of manifests of up
    to 3000 files at which the rounding of the doubles changes the percentage
    shown. *)
Lemma binary64_matches_hardware :
  forallb (fun len => forallb (fun e => agree (Z.of_nat e) (Z.of_nat len)) (seq 0 (S len)))
          (seq 1 40) = true /\
  forallb (fun p => agree (fst p) (snd p))
          [(230, 400); (460, 800); (690, 1200); (920, 1600); (290, 2000); (570, 2000);
           (1130, 2000); (1150, 2000); (1380, 2400); (1610, 2800);
           (10, 15); (70, 1200); (2990, 3000); (1, 3);
           (4294967294, 4294967295); (1, 4294967295); (123456, 7654321)] = true.
Proof. split; vm_compute; reflexivity. Qed.

End Binary64Facts.

(* ===================================================================== *)
(** * Properties of the auto-rotation flags *)
(* ===================================================================== *)

Module AutoRotateFacts.
Import AutoRotate.
Local Open Scope Z_scope.

Lemma run_snoc tr e : run (tr ++ [e]) = handle (run tr) e.
Proof. unfold run. now rewrite fold_left_app. Qed.

Lemma run_app_from tr tr' : run (tr ++ tr') = fold_left handle tr' (run tr).
Proof. unfold run. now rewrite fold_left_app. Qed.

(** Only the 'end' listener writes [lastUserInteractionTime]. *)
Lemma last_time_kept tr' : forall s,
  (forall x, In x tr' -> isControls x = false) ->
  lastUserInteractionTime (fold_left handle tr' s) = lastUserInteractionTime s.
Proof.
  induction tr' as [|x tr' IH]; intros s Hno; simpl; [reflexivity|].
  rewrite IH by (intros y Hy; apply Hno; now right).
  assert (Hx : isControls x = false) by (apply Hno; now left).
  destruct x; simpl in *; try discriminate; try reflexivity.
  - unfold onWarmupFires. destruct (warmupTimer s) as [due|]; [|reflexivity].
    destruct (due <=? now); reflexivity.
  - unfold animate.
    destruct (userInteracted s && negb (autoRotate s)
              && (AUTO_ROTATE_RESUME_DELAY <? now - lastUserInteractionTime s))%bool;
      reflexivity.
Qed.

(** What a trace without any 'start' event can have done. *)
Definition quiet_inv (tr : list Event) (s : Flags) : Prop :=
  userInteracted s = false /\
  (forall due, warmupTimer s = Some due ->
     exists tr1 L tr2, tr = tr1 ++ LayoutDone L :: tr2 /\ due = L + WARMUP_DELAY) /\
  (autoRotate s = true ->
     exists tr1 L tr2 t tr3,
       tr = tr1 ++ LayoutDone L :: tr2 ++ WarmupFires t :: tr3 /\ L + WARMUP_DELAY <= t).

Lemma quiet_run tr :
  (forall x, In x tr -> isStart x = false) -> quiet_inv tr (run tr).
Proof.
  induction tr as [|e tr IH] using rev_ind; intros Hno.
  - repeat split; simpl; intros; discriminate.
  - assert (Hpre : forall x, In x tr -> isStart x = false)
      by (intros x Hx; apply Hno, in_or_app; now left).
    assert (He : isStart e = false) by (apply Hno, in_or_app; right; now left).
    destruct (IH Hpre) as (Hu & Hw & Ha).
    rewrite run_snoc.
    assert (Hw' : forall due, warmupTimer (run tr) = Some due ->
              exists tr1 L tr2, tr ++ [e] = tr1 ++ LayoutDone L :: tr2 /\ due = L + WARMUP_DELAY).
    { intros due Hd. destruct (Hw due Hd) as (tr1 & L & tr2 & -> & ->).
      exists tr1, L, (tr2 ++ [e]). split; [|reflexivity].
      now rewrite <- app_assoc. }
    assert (Ha' : autoRotate (run tr) = true ->
              exists tr1 L tr2 t tr3,
                tr ++ [e] = tr1 ++ LayoutDone L :: tr2 ++ WarmupFires t :: tr3
                /\ L + WARMUP_DELAY <= t).
    { intros Hon. destruct (Ha Hon) as (tr1 & L & tr2 & t & tr3 & -> & Hle).
      exists tr1, L, tr2, t, (tr3 ++ [e]). split; [|exact Hle].
      rewrite <- app_assoc. simpl. rewrite <- app_assoc. reflexivity. }
    destruct e as [now|now|now|now|now]; simpl in *; try discriminate.
    + (* ControlsEnd *) repeat split; auto.
    + (* LayoutDone *)
      repeat split; auto.
      intros due Hd. injection Hd as <-.
      exists tr, now, []. split; reflexivity.
    + (* WarmupFires *)
      unfold onWarmupFires.
      destruct (warmupTimer (run tr)) as [due|] eqn:Ht; [|repeat split; auto].
      destruct (due <=? now) eqn:Hdue; [|rewrite <- Ht in *; repeat split; auto].
      * simpl. repeat split; auto.
        -- intros d Hd. discriminate.
        -- intros _. destruct (Hw due eq_refl) as (tr1 & L & tr2 & -> & ->).
           exists tr1, L, tr2, now, []. split.
           ++ rewrite <- app_assoc. reflexivity.
           ++ now apply Z.leb_le.
      * intros d Hd. apply Hw'. congruence.
    + (* Frame *)
      unfold animate. rewrite Hu. simpl. repeat split; auto.
Qed.

(** C9, as stated, fails.  The user drags the camera while the images are
    still being classified and releases it at [T0 + 200]; the layout is
    completed at [T0 + 9000]; the frame at [T0 + 10300], 1300 ms into the
    warm-up window, turns [autoRotate] on. *)
Lemma autoRotate_on_within_warmup :
  let T0 := 1700000000000 in
  let before := [ControlsStart (T0 + 100); ControlsEnd (T0 + 200); LayoutDone (T0 + 9000)] in
  chronological (before ++ [Frame (T0 + 10300)]) = true /\
  autoRotate (run before) = false /\
  autoRotate (run (before ++ [Frame (T0 + 10300)])) = true /\
  T0 + 9000 <= T0 + 10300 < T0 + 9000 + WARMUP_DELAY.
Proof.
  cbv zeta. repeat split; try reflexivity; vm_compute; congruence.
Qed.

(** C9 (amended).  (1) The 'start' listener leaves [autoRotate] false.
    (2) As long as no camera interaction has started, [autoRotate] is true
    only after the timer armed by the layout has fired, at least 8000 ms after
    the layout was completed.  (3) After an interaction has ended at time [e]
    and while no other one has started, a frame turns [autoRotate] on only
    when more than 10000 ms have passed since [e]. *)
Theorem autoRotate_by_design (tr : list Event) :
  (forall now, autoRotate (run (tr ++ [ControlsStart now])) = false) /\
  ((forall x, In x tr -> isStart x = false) ->
   autoRotate (run tr) = true ->
   exists tr1 L tr2 t tr3,
     tr = tr1 ++ LayoutDone L :: tr2 ++ WarmupFires t :: tr3 /\ L + WARMUP_DELAY <= t) /\
  (forall tr0 e tr2 t,
     tr = tr0 ++ ControlsEnd e :: tr2 ->
     (forall x, In x tr2 -> isControls x = false) ->
     autoRotate (run tr) = false ->
     autoRotate (run (tr ++ [Frame t])) = true ->
     AUTO_ROTATE_RESUME_DELAY < t - e).
Proof.
  split; [|split].
  - intros now. rewrite run_snoc. reflexivity.
  - intros Hno Hon. exact (proj2 (proj2 (quiet_run tr Hno)) Hon).
  - intros tr0 e tr2 t -> Hquiet Hoff Hon.
    rewrite run_snoc in Hon. simpl in Hon. unfold animate in Hon.
    assert (Hlast : lastUserInteractionTime (run (tr0 ++ ControlsEnd e :: tr2)) = e).
    { rewrite run_app_from. simpl. rewrite last_time_kept by exact Hquiet. reflexivity. }
    rewrite Hlast in Hon.
    destruct (AUTO_ROTATE_RESUME_DELAY <? t - e) eqn:Hcmp.
    + now apply Z.ltb_lt.
    + rewrite andb_false_r in Hon. congruence.
Qed.

(** The amended statement at work: no interaction, layout at 1000, timer at
    9000; and an interaction ended at 2000 followed by the frame at 12001. *)
Lemma autoRotate_by_design_witness :
  (exists tr1 L tr2 t tr3,
     [LayoutDone 1000; Frame 1016; WarmupFires 9000]
       = tr1 ++ LayoutDone L :: tr2 ++ WarmupFires t :: tr3 /\ L + WARMUP_DELAY <= t) /\
  AUTO_ROTATE_RESUME_DELAY < 12001 - 2000.
Proof.
  split.
  - apply (proj1 (proj2 (autoRotate_by_design [LayoutDone 1000; Frame 1016; WarmupFires 9000]))).
    + intros x [<-|[<-|[<-|[]]]]; reflexivity.
    + reflexivity.
  - apply (proj2 (proj2 (autoRotate_by_design
                           [ControlsStart 1000; ControlsEnd 2000; Frame 2016]))
             [ControlsStart 1000] 2000 [Frame 2016] 12001).
    + reflexivity.
    + intros x [<-|[]]; reflexivity.
    + reflexivity.
    + reflexivity.
Defined.

End AutoRotateFacts.

(* ===================================================================== *)
(** * Properties of the classification pipeline *)
(* ===================================================================== *)

Module PipelineFacts.
Import Pipeline.

Lemma stores_inv results :
  stores results = true ->
  exists label conf rest,
    results = (label, conf) :: rest /\ JSObject.inherited label = false.
Proof.
  destruct results as [|[label conf] rest]; simpl; [discriminate|].
  intros H. apply negb_true_iff in H. eauto.
Qed.

Lemma onclassified_stores i file label conf rest s :
  JSObject.inherited label = false ->
  onclassified i file ((label, conf) :: rest) s
  = {| imageFiles := imageFiles s; startIndex := startIndex s; endIndex := endIndex s;
       resolved := i :: resolved s;
       categoriesMap := push_category label (Image.mk file conf) (categoriesMap s);
       progress := progress s; phase := phase s |}.
Proof. intros H. unfold onclassified. now rewrite H. Qed.

Section Reachable.
Variable env : nat -> Outcome.
Variable files : list string.

(** What holds of every state the pipeline can be in. *)
Record inv (s : Pipeline) : Prop := {
  inv_files : imageFiles s = files;
  inv_start : exists k, startIndex s = k * BATCH_SIZE;
  inv_end : endIndex s = Nat.min (startIndex s + BATCH_SIZE) (length files);
  inv_before : forall i, i < startIndex s -> In i (resolved s);
  inv_bound : forall i, In i (resolved s) -> i < endIndex s;
  inv_nodup : List.NoDup (resolved s);
  inv_outcome : forall i, In i (resolved s) ->
      env i = LoadError \/ exists r, env i = Classified r /\ stores r = true;
  inv_progress : progress s = percentComplete (endIndex s) (length files);
  inv_timer : phase s = TimerSet -> endIndex s < length files /\ batchSettled s;
  inv_ready : phase s = Ready -> length files <= endIndex s /\ batchSettled s
}.

Lemma inv_init : inv (processImagesInBatches files 0 [] []).
Proof.
  constructor; simpl; try tauto; try discriminate.
  - exists 0. reflexivity.
  - intros i Hi. lia.
  - constructor.
Qed.

Lemma inv_resolve s i :
  inv s -> phase s = Waiting -> inBatch s i -> ~ In i (resolved s) ->
  (env i = LoadError \/ exists r, env i = Classified r /\ stores r = true) ->
  forall s', imageFiles s' = imageFiles s -> startIndex s' = startIndex s ->
    endIndex s' = endIndex s -> resolved s' = i :: resolved s ->
    progress s' = progress s -> phase s' = phase s ->
    inv s'.
Proof.
  intros [Hf Hs He Hb Hbd Hnd Ho Hp Ht Hr] Hph [Hlo Hhi] Hnew Hout s' E1 E2 E3 E4 E5 E6.
  constructor; rewrite ?E1, ?E2, ?E3, ?E4, ?E5, ?E6; auto.
  - intros j Hj. right. auto.
  - intros j [<-|Hj]; auto.
  - constructor; assumption.
  - intros j [<-|Hj]; auto.
  - rewrite Hph. discriminate.
  - rewrite Hph. discriminate.
Qed.

Lemma inv_step s s' : inv s -> step env s s' -> inv s'.
Proof.
  intros Hinv Hstep. destruct Hstep as [s i Hph Hin Hnew Henv
                                       | s i file results Hph Hin Hnew Henv Hne Hnth
                                       | s Hph Hall
                                       | s Hph].
  - eapply (inv_resolve s i); eauto.
  - destruct (stores_inv results Hne) as (label & conf & rest & E & Hown).
    rewrite E in *. rewrite (onclassified_stores _ _ _ _ _ _ Hown).
    eapply (inv_resolve s i); eauto.
  - destruct Hinv as [Hf Hs He Hb Hbd Hnd Ho Hp Ht Hr].
    constructor; simpl; auto.
    + rewrite Hf. destruct (endIndex s <? length files) eqn:Hlt; [|discriminate].
      intros _. split; [now apply Nat.ltb_lt | exact Hall].
    + rewrite Hf. destruct (endIndex s <? length files) eqn:Hlt; [discriminate|].
      intros _. split; [now apply Nat.ltb_ge | exact Hall].
  - destruct Hinv as [Hf Hs He Hb Hbd Hnd Ho Hp Ht Hr].
    destruct (Ht Hph) as [Hlt Hall]. destruct Hs as [k Hk].
    assert (Hend : endIndex s = startIndex s + BATCH_SIZE) by lia.
    unfold onTimer, processImagesInBatches. rewrite Hf.
    constructor; simpl; auto; try discriminate.
    + exists (S k). unfold BATCH_SIZE in *. lia.
    + intros i Hi. destruct (Nat.lt_ge_cases i (startIndex s)) as [Hlo|Hge].
      * auto.
      * apply Hall. unfold inBatch. lia.
    + intros i Hi. apply Hbd in Hi. unfold BATCH_SIZE in *. lia.
Qed.

Lemma reachable_inv s : reachable env files s -> inv s.
Proof.
  induction 1 as [|s s' _ IH Hstep]; [apply inv_init | eauto using inv_step].
Qed.

End Reachable.




(** ** What the two settling paths do *)

Lemma push_category_In category entry (m : CategoriesMap) label bucket img :
  In (label, bucket) (push_category category entry m) -> In img bucket ->
  (label = category /\ img = entry) \/ exists bucket0, In (label, bucket0) m /\ In img bucket0.
Proof.
  induction m as [|[k b] m IH]; simpl.
  - intros [[= <- <-]|[]] [<-|[]]. now left.
  - destruct (String.eqb_spec k category) as [->|Hne]; simpl.
    + intros [[= <- <-]|Hin] Himg.
      * apply in_app_or in Himg. destruct Himg as [Himg|[<-|[]]]; [|now left].
        right. exists b. auto.
      * right. exists bucket. auto.
    + intros [[= <- <-]|Hin] Himg.
      * right. exists b. auto.
      * destruct (IH Hin Himg) as [?|(b0 & ? & ?)]; [now left|].
        right. exists b0. auto.
Qed.

(** Every element of a bucket comes from an image whose classification
    resolved with that label on top: an image that failed to load, or whose
    classification did not come back, is in no bucket. *)
Lemma bucket_provenance env files s :
  reachable env files s ->
  forall label bucket img,
    In (label, bucket) (categoriesMap s) -> In img bucket ->
    exists i conf rest,
      In i (resolved s) /\ env i = Classified ((label, conf) :: rest) /\
      nth_error files i = Some (Image.filename img) /\ Image.confidence img = conf.
Proof.
  induction 1 as [|s s' Hreach IH Hstep]; [simpl; tauto|].
  pose proof (inv_files _ _ _ (reachable_inv env files s Hreach)) as Hf.
  destruct Hstep as [s i Hph Hin Hnew Henv
                    | s i file results Hph Hin Hnew Henv Hne Hnth
                    | s Hph Hall
                    | s Hph]; simpl; try exact IH.
  - intros label bucket img Hb Himg.
    destruct (IH label bucket img Hb Himg) as (j & conf & rest & Hj & ?).
    exists j, conf, rest. simpl. tauto.
  - destruct (stores_inv results Hne) as (l & c & rest & E & Hown).
    rewrite E in *. rewrite (onclassified_stores _ _ _ _ _ _ Hown). simpl.
    intros label bucket img Hb Himg.
    destruct (push_category_In _ _ _ _ _ _ Hb Himg) as [[-> ->]|(b0 & Hb0 & Himg0)].
    + exists i, c, rest. simpl. rewrite <- Hf. auto.
    + destruct (IH label b0 img Hb0 Himg0) as (j & conf & rest' & Hj & ?).
      exists j, conf, rest'. tauto.
Qed.

(** An image that cannot be read leaves the buckets alone and resolves its promise. *)
Lemma onerror_skips i s :
  categoriesMap (onerror i s) = categoriesMap s /\ In i (resolved (onerror i s)).
Proof. split; [reflexivity|now left]. Qed.
















(** An image that loads but whose classification request is rejected. *)
Definition rejecting : nat -> Outcome := fun _ => ClassifyRejected.

(** C1 on a manifest of one image whose classification is rejected: no
    callback resolves the promise of the image, so the pipeline stays in the
    state in which the batch was launched. *)
Theorem rejected_classification_blocks_batch (s : Pipeline) :
  reachable rejecting ["poster.jpg"] s ->
  s = processImagesInBatches ["poster.jpg"] 0 [] [].
Proof.
  induction 1 as [|s s' _ IH Hstep]; [reflexivity|].
  subst s. inversion Hstep as [s0 i Hph Hin Hnew Henv
                              | s0 i file results Hph Hin Hnew Henv Hne Hnth
                              | s0 Hph Hall
                              | s0 Hph]; subst.
  - discriminate Henv.
  - discriminate Henv.
  - exfalso. specialize (Hall 0). simpl in Hall. apply Hall.
    unfold inBatch. simpl. lia.
  - discriminate Hph.
Qed.

Lemma rejected_classification_blocks_batch_witness :
  processImagesInBatches ["poster.jpg"] 0 [] [] = processImagesInBatches ["poster.jpg"] 0 [] [].
Proof.
  apply (rejected_classification_blocks_batch (processImagesInBatches ["poster.jpg"] 0 [] [])).
  apply reach_init.
Defined.

End PipelineFacts.

(* ===================================================================== *)
(** * Properties of the spiral layout *)
(* ===================================================================== *)

Module LayoutFacts.
Import Viz.
Local Open Scope R_scope.

(** ** Sorting by member count *)

Definition count (c : string * list Image.t) : nat := length (snd c).

Lemma insert_by_count_perm c l : Permutation.Permutation (c :: l) (insert_by_count c l).
Proof.
  induction l as [|d l IH]; simpl; [reflexivity|].
  destruct (length (snd d) <=? length (snd c))%nat; [reflexivity|].
  rewrite Permutation.perm_swap. now apply Permutation.perm_skip.
Qed.

Lemma sort_by_count_perm m : Permutation.Permutation m (sort_by_count m).
Proof.
  induction m as [|c m IH]; simpl; [reflexivity|].
  rewrite <- insert_by_count_perm. now apply Permutation.perm_skip.
Qed.

(** The head of a list dominates the counts of all its elements. *)
Definition head_largest (l : CategoriesMap) : Prop :=
  match l with
  | [] => True
  | c :: _ => forall d, In d l -> (count d <= count c)%nat
  end.

Lemma insert_by_count_head c l :
  head_largest l -> head_largest (insert_by_count c l).
Proof.
  destruct l as [|d l]; simpl.
  - intros _ x [<-|[]]. lia.
  - intros Hd. destruct (length (snd d) <=? length (snd c))%nat eqn:Hle.
    + apply Nat.leb_le in Hle. intros x [<-|Hx]; [lia|].
      specialize (Hd x Hx). unfold count in *. lia.
    + apply Nat.leb_gt in Hle. simpl. intros x [<-|Hx]; [lia|].
      apply (Permutation.Permutation_in _ (Permutation.Permutation_sym (insert_by_count_perm c l)))
        in Hx.
      destruct Hx as [<-|Hx]; [unfold count; lia|].
      apply Hd. now right.
Qed.

Lemma sort_by_count_head m : head_largest (sort_by_count m).
Proof.
  induction m as [|c m IH]; simpl; [exact I|].
  destruct (sort_by_count m) as [|d l] eqn:E.
  - simpl. intros x [<-|[]]. lia.
  - now apply insert_by_count_head.
Qed.

(** ** The grid of a category *)

(** The sprites created for the images of one category, from index [i] on. *)
Fixpoint gridSprites (ax ay az : R) (cols len : nat) (images : list Image.t) (i : nat)
  : list Sprite :=
  match images with
  | [] => []
  | img :: rest =>
      mkSprite (imagePosition ax ay az cols len (Image.confidence img) i)
               true placeholderTexture 1
      :: gridSprites ax ay az cols len rest (S i)
  end.

Lemma placeImage_sprites `{Runtime} category ax ay az cols len s group i img :
  sprites (fst (placeImage category ax ay az cols len (s, group) i img))
  = sprites s ++ [mkSprite (imagePosition ax ay az cols len (Image.confidence img) i)
                           true placeholderTexture 1].
Proof. unfold placeImage. destruct (decide _); reflexivity. Qed.

Lemma forEach_placeImage_sprites `{Runtime} category ax ay az cols len images :
  forall i acc,
    sprites (fst (forEach_indexed (placeImage category ax ay az cols len) images i acc))
    = sprites (fst acc) ++ gridSprites ax ay az cols len images i.
Proof.
  induction images as [|img rest IH]; intros i [s group]; cbn [forEach_indexed gridSprites].
  - simpl. now rewrite app_nil_r.
  - rewrite IH, placeImage_sprites, <- app_assoc. reflexivity.
Qed.

Lemma placeCategory_sprites `{Runtime} total s k category images :
  sprites (placeCategory total s k (category, images))
  = sprites s ++ gridSprites (fst (getSpiralCoordinates k total)) 0
                             (snd (getSpiralCoordinates k total))
                             (Nat.sqrt_up (length images)) (length images) images 0.
Proof.
  unfold placeCategory. destruct (getSpiralCoordinates k total) as [ax az].
  pose proof (forEach_placeImage_sprites category ax 0 az (Nat.sqrt_up (length images))
                (length images) images 0%nat (s, [])) as Hs.
  destruct (forEach_indexed _ images 0%nat (s, [])) as [s1 group].
  exact Hs.
Qed.

Lemma gridSprites_length ax ay az cols len images : forall i,
  length (gridSprites ax ay az cols len images i) = length images.
Proof. induction images as [|img rest IH]; intros i; simpl; auto. Qed.

Lemma forEach_indexed_app {A B : Type} (f : B -> nat -> A -> B) (l1 : list A) :
  forall l2 i acc,
    forEach_indexed f (l1 ++ l2) i acc
    = forEach_indexed f l2 (i + length l1) (forEach_indexed f l1 i acc).
Proof.
  induction l1 as [|a l1 IH]; intros l2 i acc; simpl.
  - now rewrite Nat.add_0_r.
  - rewrite IH. f_equal. lia.
Qed.

(** The categories of [l] add their images to the store, in order. *)
Lemma forEach_placeCategory_appends `{Runtime} total l : forall k s,
  exists added,
    sprites (forEach_indexed (placeCategory total) l k s) = sprites s ++ added /\
    length added = length (concat (map snd l)).
Proof.
  induction l as [|[category images] l IH]; intros k s; cbn [forEach_indexed].
  - exists []. now rewrite app_nil_r.
  - destruct (IH (S k) (placeCategory total s k (category, images))) as (added & E & L).
    rewrite placeCategory_sprites, <- app_assoc in E.
    eexists. split; [exact E|].
    simpl. now rewrite !length_app, L, gridSprites_length.
Qed.

(** The category at place [length l1] of the sorted list is laid out with
    that index: its grid follows the sprites of the categories before it. *)
Lemma createParticleGroups_anchor `{Runtime} m l1 category images l2 :
  sort_by_count m = l1 ++ (category, images) :: l2 ->
  exists before after,
    length before = length (concat (map snd l1)) /\
    sprites (createParticleGroups m initialState)
    = before
      ++ gridSprites (fst (getSpiralCoordinates (length l1) (length (sort_by_count m)))) 0
                     (snd (getSpiralCoordinates (length l1) (length (sort_by_count m))))
                     (Nat.sqrt_up (length images)) (length images) images 0
      ++ after.
Proof.
  intros Hsort. unfold createParticleGroups, positionCameraForSpiralView.
  cbn [sprites set_camera_position].
  set (total := length (sort_by_count m)). rewrite Hsort.
  rewrite forEach_indexed_app. cbn [forEach_indexed]. simpl Nat.add.
  destruct (forEach_placeCategory_appends total l1 0%nat initialState) as (before & E1 & L1).
  destruct (forEach_placeCategory_appends total l2 (S (length l1))
              (placeCategory total (forEach_indexed (placeCategory total) l1 0%nat initialState)
                 (length l1) (category, images))) as (after & E2 & _).
  exists before, after. split; [exact L1|].
  rewrite E2, placeCategory_sprites, E1. simpl. now rewrite <- app_assoc.
Qed.

(** Two different cells of the grid of a category are at different places. *)
Lemma grid_positions_distinct ax ay az cols len c1 c2 i j :
  (0 < cols)%nat -> i <> j ->
  imagePosition ax ay az cols len c1 i <> imagePosition ax ay az cols len c2 j.
Proof.
  intros Hcols Hne Heq. unfold imagePosition, SPACING in Heq.
  injection Heq as Hx _ Hz.
  assert (Em : INR (i mod cols) = INR (j mod cols)) by lra.
  assert (Ed : INR (i / cols) = INR (j / cols)) by lra.
  apply INR_eq in Em, Ed. apply Hne.
  rewrite (Nat.div_mod_eq i cols), (Nat.div_mod_eq j cols). congruence.
Qed.

Lemma gridSprites_from ax ay az cols len images : forall i p,
  In p (map position (gridSprites ax ay az cols len images i)) ->
  exists j c, (i <= j)%nat /\ p = imagePosition ax ay az cols len c j.
Proof.
  induction images as [|img rest IH]; intros i p; simpl; [tauto|].
  intros [<-|Hin]; [eauto|].
  destruct (IH (S i) p Hin) as (j & c & Hj & ->). exists j, c. split; [lia|reflexivity].
Qed.

(** Inside one category no two sprites share a position. *)
Lemma gridSprites_positions_NoDup ax ay az cols len images :
  (0 < cols)%nat ->
  forall i, List.NoDup (map position (gridSprites ax ay az cols len images i)).
Proof.
  intros Hcols. induction images as [|img rest IH]; intros i; simpl; constructor.
  - intros Hin. apply gridSprites_from in Hin. destruct Hin as (j & c & Hj & Heq).
    revert Heq. apply grid_positions_distinct; [exact Hcols|lia].
  - apply IH.
Qed.

(** ** Anchors *)

Definition spiralAngle (index : nat) : R := INR index * 0.5.
Definition spiralRadius (index : nat) : R := sqrt (INR index) * (SPACING * 25) * 2.

Lemma getSpiralCoordinates_norm index total :
  let '(x, z) := getSpiralCoordinates index total in
  x * x + z * z = 250000 * INR index.
Proof.
  unfold getSpiralCoordinates. destruct (index =? 0)%nat eqn:E.
  - apply Nat.eqb_eq in E. subst. unfold centerX, centerZ. simpl. ring.
  - unfold centerX, centerZ, CATEGORY_SPACING_X, SPACING.
    pose proof (sin2_cos2 (INR index * 0.5)) as Hsc. unfold Rsqr in Hsc.
    pose proof (sqrt_sqrt (INR index) (pos_INR index)) as Hsq.
    set (c := cos (INR index * 0.5)) in *. set (sn := sin (INR index * 0.5)) in *.
    set (r := sqrt (INR index)) in *.
    replace ((0 + r * (10 * 25) * 2 * c) * (0 + r * (10 * 25) * 2 * c)
             + (0 + r * (10 * 25) * 2 * sn) * (0 + r * (10 * 25) * 2 * sn))
      with (250000 * (r * r) * (sn * sn + c * c)) by ring.
    rewrite Hsc, Hsq. ring.
Qed.

Lemma spiralRadius_increasing (i j : nat) :
  (i < j)%nat -> spiralRadius i < spiralRadius j.
Proof.
  intros Hij. unfold spiralRadius, SPACING.
  assert (Hs : sqrt (INR i) < sqrt (INR j)).
  { apply sqrt_lt_1; try apply pos_INR. now apply lt_INR. }
  lra.
Qed.

(** C6.  The sorted categories are the categories of the map, and the one
    sorted first has the largest member count; its anchor is the origin; the
    category of sorted index [index >= 1] is anchored at
    [(radius * cos angle, 0, radius * sin angle)] from the origin with
    [angle = index * 0.5] and [radius = sqrt index * 500]; [placeCategory]
    called with [index] adds the grid laid out around that anchor at base
    height 0; [createParticleGroups] lays out the category at place [index] of
    the sorted list with that index, the places being counted from 0: the
    store it leaves holds the grid of that category around the anchor of
    [index], after one sprite for each image of the categories sorted before
    it; the radius grows strictly with the index, and two different indices
    never share an anchor. *)
Theorem spiral_anchors (index : nat) :
  (forall m, Permutation.Permutation m (sort_by_count m)) /\
  (forall m, head_largest (sort_by_count m)) /\
  (forall total, getSpiralCoordinates 0 total = (0, 0)) /\
  (forall total, (1 <= index)%nat ->
     getSpiralCoordinates index total
     = (0 + spiralRadius index * cos (spiralAngle index),
        0 + spiralRadius index * sin (spiralAngle index))) /\
  spiralRadius index = sqrt (INR index) * 500 /\
  (forall (runtime : Runtime) total s category images,
     sprites (@placeCategory runtime total s index (category, images))
     = sprites s ++ gridSprites (fst (getSpiralCoordinates index total)) 0
                                (snd (getSpiralCoordinates index total))
                                (Nat.sqrt_up (length images)) (length images) images 0) /\
  (forall (runtime : Runtime) m l1 category images l2,
     sort_by_count m = l1 ++ (category, images) :: l2 -> length l1 = index ->
     exists before after,
       length before = length (concat (map snd l1)) /\
       sprites (@createParticleGroups runtime m initialState)
       = before
         ++ gridSprites (fst (getSpiralCoordinates index (length (sort_by_count m)))) 0
                        (snd (getSpiralCoordinates index (length (sort_by_count m))))
                        (Nat.sqrt_up (length images)) (length images) images 0
         ++ after) /\
  (forall j, (1 <= index < j)%nat -> spiralRadius index < spiralRadius j) /\
  (forall j total total', index <> j ->
     getSpiralCoordinates index total <> getSpiralCoordinates j total').
Proof.
  split; [exact sort_by_count_perm|].
  split; [exact sort_by_count_head|].
  split; [reflexivity|].
  split.
  { intros total Hpos. unfold getSpiralCoordinates.
    destruct (index =? 0)%nat eqn:E; [apply Nat.eqb_eq in E; lia|].
    reflexivity. }
  split; [unfold spiralRadius, SPACING; ring|].
  split; [intros; apply placeCategory_sprites|].
  split.
  { intros runtime m l1 category images l2 Hsort <-.
    exact (@createParticleGroups_anchor runtime m l1 category images l2 Hsort). }
  split; [intros j [_ Hlt]; now apply spiralRadius_increasing|].
  intros j total total' Hne Heq.
  pose proof (getSpiralCoordinates_norm index total) as Hi.
  pose proof (getSpiralCoordinates_norm j total') as Hj.
  rewrite Heq in Hi. destruct (getSpiralCoordinates j total') as [x z].
  assert (E : INR index = INR j) by lra.
  apply INR_eq in E. contradiction.
Qed.

(** ** A category with one member *)

Lemma placeCategory_single `{Runtime} (total : nat) (s : State) (k : nat)
    (category : string) (img : Image.t) :
  exists sp,
    sprites (placeCategory total s k (category, [img])) = sprites s ++ [sp] /\
    position sp = (fst (getSpiralCoordinates k total) - 5,
                   Image.confidence img * 30,
                   snd (getSpiralCoordinates k total) - 5).
Proof.
  unfold placeCategory.
  destruct (getSpiralCoordinates k total) as [ax az].
  exists (mkSprite (imagePosition ax 0 az (Nat.sqrt_up 1) 1 (Image.confidence img) 0)
                   true placeholderTexture 1).
  split.
  - simpl. unfold placeImage.
    destruct (decide _); reflexivity.
  - simpl. unfold imagePosition, SPACING. simpl.
    f_equal; [f_equal|]; lra.
Qed.

(** A runtime for the examples: it converts the numbers that occur in their
    keys, -5, 15 and 0, as JavaScript does. *)
Definition exampleRuntime : Runtime :=
  {| Number_toString := fun x =>
       if Req_dec_T x (-5) then "-5" else if Req_dec_T x 15 then "15" else "0";
     Number := fun s =>
       if String.eqb s "-5" then -5 else if String.eqb s "15" then 15 else 0 |}.

(** Two categories: "b", with two images, is sorted before "a", with one. *)
Definition twoCategories : CategoriesMap :=
  [("a", [Image.mk "x.jpg" (1 / 2)]);
   ("b", [Image.mk "y.jpg" (1 / 2); Image.mk "z.jpg" (1 / 4)])].

Lemma spiral_anchors_witness :
  getSpiralCoordinates 1 2
  = (0 + spiralRadius 1 * cos (spiralAngle 1), 0 + spiralRadius 1 * sin (spiralAngle 1)) /\
  (exists before after,
     length before = 2%nat /\
     sprites (@createParticleGroups exampleRuntime twoCategories initialState)
     = before
       ++ gridSprites (fst (getSpiralCoordinates 1 2)) 0 (snd (getSpiralCoordinates 1 2))
                      1 1 [Image.mk "x.jpg" (1 / 2)] 0
       ++ after) /\
  spiralRadius 1 < spiralRadius 2 /\
  getSpiralCoordinates 1 2 <> getSpiralCoordinates 2 2.
Proof.
  destruct (spiral_anchors 1) as (_ & _ & _ & Hform & _ & _ & Hlayout & Hmono & Hinj).
  split; [apply Hform; lia|].
  split.
  { apply (Hlayout exampleRuntime twoCategories
             [("b", [Image.mk "y.jpg" (1 / 2); Image.mk "z.jpg" (1 / 4)])]
             "a" [Image.mk "x.jpg" (1 / 2)] []); reflexivity. }
  split; [apply Hmono; lia|].
  apply Hinj. lia.
Defined.

(** C3, as stated, fails.  One category with the single image of confidence
    0.5: the anchor is the origin, the sprite is created at (-5, 15, -5). *)
Lemma single_image_off_anchor :
  let s := @createParticleGroups exampleRuntime
             [("poster", [Image.mk "a.jpg" (1 / 2)])] initialState in
  getSpiralCoordinates 0 1 = (0, 0) /\
  exists sp, sprites s = [sp] /\ position sp = (-5, 15, -5) /\
             position sp <> (0, 0, 0) /\
             (fst (fst (position sp)), snd (position sp)) <> getSpiralCoordinates 0 1.
Proof.
  cbv zeta. split; [reflexivity|].
  destruct (@placeCategory_single exampleRuntime 1 initialState 0 "poster"
              (Image.mk "a.jpg" (1 / 2))) as (sp & Hs & Hp).
  exists sp. split; [exact Hs|].
  assert (E : position sp = (-5, 15, -5)).
  { rewrite Hp. simpl. unfold centerX, centerZ. f_equal; [f_equal|]; lra. }
  split; [exact E|]. rewrite E. simpl.
  change (getSpiralCoordinates 0 1) with (0, 0).
  split; intros Heq; injection Heq; intros; lra.
Qed.

(** C3 (amended).  A category with one image of confidence [c], anchored at
    [(ax, az)], has its sprite at [(ax - 5, 30 * c, az - 5)]: half a grid cell
    before the anchor on both axes and raised by the confidence.  For a single
    category holding one image the anchor is the origin and the sprite is at
    [(-5, 30 * c, -5)]. *)
Theorem single_member_placement `{Runtime} (category : string) (img : Image.t) :
  (forall total s k,
     exists sp,
       sprites (placeCategory total s k (category, [img])) = sprites s ++ [sp] /\
       position sp = (fst (getSpiralCoordinates k total) - SPACING / 2,
                      Image.confidence img * 30,
                      snd (getSpiralCoordinates k total) - SPACING / 2)) /\
  getSpiralCoordinates 0 1 = (0, 0) /\
  exists sp,
    sprites (createParticleGroups [(category, [img])] initialState) = [sp] /\
    position sp = (-5, Image.confidence img * 30, -5).
Proof.
  split; [|split; [reflexivity|]].
  - intros total s k.
    destruct (placeCategory_single total s k category img) as (sp & Hs & Hp).
    exists sp. split; [exact Hs|]. rewrite Hp. unfold SPACING.
    f_equal; [f_equal|]; lra.
  - destruct (placeCategory_single 1 initialState 0 category img) as (sp & Hs & Hp).
    exists sp. split; [exact Hs|]. rewrite Hp. simpl. unfold centerX, centerZ.
    f_equal; [f_equal|]; lra.
Qed.

End LayoutFacts.

(* ===================================================================== *)
(** * Properties of the scene state *)
(* ===================================================================== *)

Module SceneFacts.
Import Viz.
Local Open Scope R_scope.

(** ** Dictionaries *)

Section DictFacts.
Context {V : Type}.
Implicit Types (m : list (string * V)) (k : string) (v : V).

Lemma Map_get_set_eq k v m : Map_get k (Map_set k v m) = Some v.
Proof.
  induction m as [|[k' v'] m IH]; simpl.
  - now rewrite String.eqb_refl.
  - destruct (String.eqb_spec k' k) as [->|Hne]; simpl.
    + now rewrite String.eqb_refl.
    + destruct (String.eqb_spec k' k); [contradiction|exact IH].
Qed.

Lemma Map_get_set_ne k k' v m : k <> k' -> Map_get k' (Map_set k v m) = Map_get k' m.
Proof.
  intros Hne. induction m as [|[k0 v0] m IH]; simpl.
  - destruct (String.eqb_spec k k'); [contradiction|reflexivity].
  - destruct (String.eqb_spec k0 k) as [->|Hk]; simpl.
    + destruct (String.eqb_spec k k'); [contradiction|reflexivity].
    + destruct (String.eqb_spec k0 k'); [reflexivity|exact IH].
Qed.

Lemma Map_get_alter_eq (f : V -> V) k m :
  Map_get k (Map_alter f k m) = option_map f (Map_get k m).
Proof.
  induction m as [|[k' v'] m IH]; simpl; [reflexivity|].
  destruct (String.eqb_spec k' k) as [->|Hne]; simpl.
  - now rewrite String.eqb_refl.
  - destruct (String.eqb_spec k' k); [contradiction|exact IH].
Qed.

Lemma Map_get_alter_ne (f : V -> V) k k' m :
  k <> k' -> Map_get k' (Map_alter f k m) = Map_get k' m.
Proof.
  intros Hne. induction m as [|[k0 v0] m IH]; simpl; [reflexivity|].
  destruct (String.eqb_spec k0 k) as [->|Hk]; simpl.
  - destruct (String.eqb_spec k k'); [contradiction|reflexivity].
  - destruct (String.eqb_spec k0 k'); [reflexivity|exact IH].
Qed.

Lemma Map_alter_keys (f : V -> V) k m : map fst (Map_alter f k m) = map fst m.
Proof.
  induction m as [|[k' v'] m IH]; simpl; [reflexivity|].
  destruct (String.eqb k' k); simpl; [reflexivity|now rewrite IH].
Qed.

Lemma Map_get_In k v m : Map_get k m = Some v -> In (k, v) m.
Proof.
  induction m as [|[k' v'] m IH]; simpl; [discriminate|].
  destruct (String.eqb_spec k' k) as [->|Hne].
  - intros [= ->]. now left.
  - intros Hg. right. auto.
Qed.

Lemma Map_In_get k v m : List.NoDup (map fst m) -> In (k, v) m -> Map_get k m = Some v.
Proof.
  induction m as [|[k' v'] m IH]; simpl; [tauto|].
  intros Hnd [[= -> ->]|Hin].
  - now rewrite String.eqb_refl.
  - inversion Hnd as [|? ? Hnot Hnd']; subst.
    destruct (String.eqb_spec k' k) as [->|Hne].
    + exfalso. apply Hnot. change k with (fst (k, v)). now apply in_map.
    + auto.
Qed.

Lemma Map_get_key k m : In k (map fst m) -> exists v, Map_get k m = Some v.
Proof.
  induction m as [|[k' v'] m IH]; simpl; [tauto|].
  destruct (String.eqb_spec k' k) as [->|Hne]; [eauto|].
  intros [E|Hin]; [contradiction|auto].
Qed.

Lemma Map_set_In k v m e : In e (Map_set k v m) -> e = (k, v) \/ In e m.
Proof.
  induction m as [|[k' v'] m IH]; simpl.
  - intros [<-|[]]. now left.
  - destruct (String.eqb_spec k' k) as [->|Hne]; simpl.
    + intros [<-|Hin]; auto.
    + intros [<-|Hin]; auto. destruct (IH Hin); auto.
Qed.

Lemma Map_set_keys k v m k' : In k' (map fst m) -> In k' (map fst (Map_set k v m)).
Proof.
  induction m as [|[k0 v0] m IH]; simpl; [tauto|].
  destruct (String.eqb k0 k); simpl; intros [<-|Hin]; auto.
Qed.

Lemma Map_set_key_new k v m : In k (map fst (Map_set k v m)).
Proof.
  induction m as [|[k0 v0] m IH]; simpl; [now left|].
  destruct (String.eqb_spec k0 k) as [->|Hne]; simpl; auto.
Qed.

Lemma Map_set_keys_inv k v m k' :
  In k' (map fst (Map_set k v m)) -> k' = k \/ In k' (map fst m).
Proof.
  intros Hin. apply in_map_iff in Hin. destruct Hin as ([k0 v0] & <- & Hin).
  apply Map_set_In in Hin. destruct Hin as [[= -> ->]|Hin]; [now left|].
  right. change k0 with (fst (k0, v0)). now apply in_map.
Qed.

Lemma Map_set_keys_NoDup k v m :
  List.NoDup (map fst m) -> List.NoDup (map fst (Map_set k v m)).
Proof.
  induction m as [|[k' v'] m IH]; simpl; intros Hnd.
  - constructor; [tauto|constructor].
  - inversion Hnd as [|? ? Hnot Hnd']; subst.
    destruct (String.eqb_spec k' k) as [->|Hne]; simpl.
    + now constructor.
    + constructor; [|auto].
      intros Hin. apply Map_set_keys_inv in Hin. destruct Hin; [congruence|contradiction].
Qed.

End DictFacts.

Lemma Map_set_vals_NoDup (k : string) (v : nat) (m : list (string * nat)) :
  List.NoDup (map snd m) -> ~ In v (map snd m) -> List.NoDup (map snd (Map_set k v m)).
Proof.
  induction m as [|[k' v'] m IH]; simpl; intros Hnd Hnew.
  - constructor; [tauto|constructor].
  - inversion Hnd as [|? ? Hnot Hnd']; subst.
    destruct (String.eqb k' k); simpl.
    + constructor; [tauto|assumption].
    + constructor; [|apply IH; tauto].
      intros Hin. apply in_map_iff in Hin. destruct Hin as ([k0 v0] & E & Hin).
      simpl in E. subst v0. apply Map_set_In in Hin.
      destruct Hin as [[= -> ->]|Hin]; [tauto|].
      apply Hnot. change v' with (snd (k0, v')). now apply in_map.
Qed.

(** ** What no callback changes: sprite positions, keys and sprite
       references of the index, groups *)

Definition positions (s : State) : list Vec3 := map position (sprites s).
Definition entryRef (e : string * ImageData) : string * nat := (fst e, sprite (snd e)).
Definition index (s : State) : list (string * nat) := map entryRef (imageData s).
Definition skeleton (s : State) := (positions s, index s, particles s).

Lemma index_Map_set k d m :
  map entryRef (Map_set k d m) = Map_set k (sprite d) (map entryRef m).
Proof.
  induction m as [|[k' d'] m IH]; simpl; [reflexivity|].
  destruct (String.eqb k' k); simpl; [reflexivity|now rewrite IH].
Qed.

Lemma index_Map_alter (f : ImageData -> ImageData) k m :
  (forall d, sprite (f d) = sprite d) ->
  map entryRef (Map_alter f k m) = map entryRef m.
Proof.
  intros Hf. induction m as [|[k' d'] m IH]; simpl; [reflexivity|].
  destruct (String.eqb k' k); simpl; [unfold entryRef; simpl; now rewrite Hf|now rewrite IH].
Qed.

Lemma index_keys (m : list (string * ImageData)) : map fst (map entryRef m) = map fst m.
Proof. rewrite map_map. reflexivity. Qed.

Lemma map_alter_kept {A B : Type} (g : A -> B) (f : A -> A) (i : nat) (l : list A) :
  (forall a, g (f a) = g a) -> map g (alter f i l) = map g l.
Proof.
  intros Hf. revert i.
  induction l as [|a l IH]; intros [|i]; csimpl; try reflexivity; f_equal; auto.
Qed.

Lemma fold_left_kept {A B C : Type} (f : A -> B -> A) (q : A -> C) (l : list B) :
  (forall a b, q (f a b) = q a) -> forall a, q (fold_left f l a) = q a.
Proof.
  intros Hf. induction l as [|b l IH]; intros a; simpl; [reflexivity|].
  now rewrite IH, Hf.
Qed.

(** ** The invariant of the index *)

Section Wf.
Context `{Runtime}.

Definition wf3 (ps : list Vec3) (ix : list (string * nat)) (groups : list (string * Group))
  : Prop :=
  List.NoDup (map fst ix) /\
  List.NoDup (map snd ix) /\
  (forall k id, In (k, id) ix -> exists p, ps !! id = Some p /\ k = positionKey p) /\
  (forall id p, ps !! id = Some p -> In (positionKey p) (map fst ix)) /\
  (forall c g id, In (c, g) groups -> In id (children g) -> (id < length ps)%nat).

Definition wf (s : State) : Prop := wf3 (positions s) (index s) (particles s).

Lemma wf_skeleton s s' : skeleton s' = skeleton s -> wf s -> wf s'.
Proof. unfold wf, skeleton. intros [= -> -> ->]. auto. Qed.

Lemma wf3_place ps ix groups group p :
  wf3 ps ix groups -> (forall id, In id group -> (id < length ps)%nat) ->
  wf3 (ps ++ [p]) (Map_set (positionKey p) (length ps) ix) groups /\
  (forall id, In id (group ++ [length ps]) -> (id < length (ps ++ [p]))%nat).
Proof.
  intros (Hk & Hr & Hof & Hix & Hch) Hg.
  assert (Hfresh : ~ In (length ps) (map snd ix)).
  { intros Hin. apply in_map_iff in Hin. destruct Hin as ([k id] & E & Hin).
    simpl in E. subst id. destruct (Hof _ _ Hin) as (q & Hq & _).
    apply lookup_lt_Some in Hq. lia. }
  split; [repeat split|].
  - now apply Map_set_keys_NoDup.
  - now apply Map_set_vals_NoDup.
  - intros k id Hin. apply Map_set_In in Hin. destruct Hin as [[= -> ->]|Hin].
    + exists p. split; [|reflexivity].
      rewrite lookup_app_r by lia. now rewrite Nat.sub_diag.
    + destruct (Hof _ _ Hin) as (q & Hq & ->). exists q. split; [|reflexivity].
      rewrite lookup_app_l; [exact Hq|]. now apply lookup_lt_Some in Hq.
  - intros id q Hq.
    destruct (Nat.lt_ge_cases id (length ps)) as [Hlt|Hge].
    + rewrite lookup_app_l in Hq by exact Hlt. apply Map_set_keys. eauto.
    + rewrite lookup_app_r in Hq by exact Hge.
      destruct (id - length ps)%nat eqn:E; simpl in Hq; [|discriminate].
      injection Hq as <-. apply Map_set_key_new.
  - intros c g id Hin Hid. rewrite length_app. simpl.
    specialize (Hch c g id Hin Hid). lia.
  - intros id Hin. rewrite length_app. simpl.
    apply in_app_or in Hin. destruct Hin as [Hin|[<-|[]]]; [apply Hg in Hin|]; lia.
Qed.

Lemma placeImage_shape category ax ay az cols len s group i img :
  let p := imagePosition ax ay az cols len (Image.confidence img) i in
  let r := placeImage category ax ay az cols len (s, group) i img in
  positions (fst r) = positions s ++ [p] /\
  index (fst r) = Map_set (positionKey p) (length (positions s)) (index s) /\
  particles (fst r) = particles s /\
  snd r = group ++ [length (positions s)] /\
  highResTextures (fst r) = highResTextures s.
Proof.
  cbv zeta. unfold placeImage, positions, index.
  rewrite length_map.
  destruct (decide _); simpl; rewrite map_app, index_Map_set; simpl; auto.
Qed.

Lemma forEach_indexed_inv {A B : Type} (P : B -> Prop) (f : B -> nat -> A -> B) :
  (forall acc i a, P acc -> P (f acc i a)) ->
  forall l i acc, P acc -> P (forEach_indexed f l i acc).
Proof.
  intros Hf. induction l as [|a l IH]; intros i acc Hacc; simpl; auto.
Qed.

Definition wf_acc (textures : gmap string Texture) (acc : State * list nat) : Prop :=
  wf (fst acc) /\
  (forall id, In id (snd acc) -> (id < length (positions (fst acc)))%nat) /\
  highResTextures (fst acc) = textures.

Lemma placeImage_wf textures category ax ay az cols len acc i img :
  wf_acc textures acc -> wf_acc textures (placeImage category ax ay az cols len acc i img).
Proof.
  destruct acc as [s group]. intros (Hwf & Hg & Ht). simpl in Hwf, Hg, Ht.
  destruct (placeImage_shape category ax ay az cols len s group i img)
    as (Hp & Hi & Hpa & Hgr & Hhr).
  destruct (wf3_place _ _ _ group
              (imagePosition ax ay az cols len (Image.confidence img) i) Hwf Hg)
    as [Hwf' Hg'].
  unfold wf_acc, wf. rewrite Hp, Hi, Hpa, Hgr, Hhr. auto.
Qed.

Lemma placeCategory_wf textures total s k entry :
  wf s -> highResTextures s = textures ->
  wf (placeCategory total s k entry) /\
  highResTextures (placeCategory total s k entry) = textures.
Proof.
  intros Hwf Ht. destruct entry as [category images]. unfold placeCategory.
  destruct (getSpiralCoordinates k total) as [ax az].
  assert (Hinit : wf_acc textures (s, []))
    by (split; [exact Hwf|split; [simpl; tauto|exact Ht]]).
  pose proof (forEach_indexed_inv (wf_acc textures)
                (placeImage category ax 0 az (Nat.sqrt_up (length images)) (length images))
                (fun acc i a Hacc => placeImage_wf textures _ _ _ _ _ _ acc i a Hacc)
                images 0%nat (s, []) Hinit) as Hloop.
  destruct (forEach_indexed _ images 0%nat (s, [])) as [s1 group].
  destruct Hloop as ((Hk & Hr & Hof & Hix & Hch) & Hg & Ht1).
  simpl in *. split; [|exact Ht1].
  unfold wf. simpl. repeat split; auto.
  intros c g id Hin Hid. apply Map_set_In in Hin.
  destruct Hin as [[= -> ->]|Hin]; [apply Hg; exact Hid|eauto].
Qed.

Lemma initial_wf : wf initialState.
Proof.
  unfold wf. simpl. repeat split; try constructor; simpl; try tauto.
  intros id p Hp. discriminate.
Qed.

Lemma createParticleGroups_wf categoriesMap :
  wf (createParticleGroups categoriesMap initialState) /\
  highResTextures (createParticleGroups categoriesMap initialState) = ∅.
Proof.
  unfold createParticleGroups, positionCameraForSpiralView.
  pose proof (forEach_indexed_inv (fun s => wf s /\ highResTextures s = ∅)
                (placeCategory (length (sort_by_count categoriesMap)))
                (fun s k e Hs => placeCategory_wf ∅ _ s k e (proj1 Hs) (proj2 Hs))
                (sort_by_count categoriesMap) 0%nat initialState
                (conj initial_wf eq_refl)) as [Hwf Ht].
  split; [|exact Ht]. exact Hwf.
Qed.

(** Under each key the index refers to the sprite that was placed last with
    that key: [imageData.set] overwrites what an earlier sprite stored. *)
Definition latest3 (ps : list Vec3) (ix : list (string * nat)) : Prop :=
  forall k id id' p',
    In (k, id) ix -> ps !! id' = Some p' -> positionKey p' = k -> (id' <= id)%nat.

Definition latest (s : State) : Prop := latest3 (positions s) (index s).

Lemma Map_set_In_other {V : Type} (k : string) (v : V) (m : list (string * V)) k' v' :
  List.NoDup (map fst m) -> In (k', v') (Map_set k v m) ->
  (k', v') = (k, v) \/ (k' <> k /\ In (k', v') m).
Proof.
  induction m as [|[k0 v0] m IH]; simpl; intros Hnd.
  - intros [<-|[]]. now left.
  - inversion Hnd as [|? ? Hnot Hnd']; subst.
    destruct (String.eqb_spec k0 k) as [->|Hne]; simpl.
    + intros [<-|Hin]; [now left|]. right. split; [|now right].
      intros ->. apply Hnot. change k with (fst (k, v')). now apply in_map.
    + intros [[= <- <-]|Hin]; [right; split; [exact Hne|now left]|].
      destruct (IH Hnd' Hin) as [E|[Hk Hin']]; [now left|]. right. split; [exact Hk|now right].
Qed.

Lemma latest3_place ps ix groups p :
  wf3 ps ix groups -> latest3 ps ix ->
  latest3 (ps ++ [p]) (Map_set (positionKey p) (length ps) ix).
Proof.
  intros (Hk & _) Hlast k id id' p' Hin Hp' Hkey.
  assert (Hlt : (id' < length (ps ++ [p]))%nat) by (now apply lookup_lt_Some in Hp').
  rewrite length_app in Hlt. simpl in Hlt.
  destruct (Map_set_In_other _ _ _ _ _ Hk Hin) as [[= -> ->]|[Hne Hin']]; [lia|].
  destruct (Nat.lt_ge_cases id' (length ps)) as [Hold|Hnew].
  - rewrite lookup_app_l in Hp' by exact Hold. exact (Hlast k id id' p' Hin' Hp' Hkey).
  - rewrite lookup_app_r in Hp' by exact Hnew.
    replace (id' - length ps)%nat with 0%nat in Hp' by lia.
    injection Hp' as <-. congruence.
Qed.

Lemma placeImage_latest textures category ax ay az cols len acc i img :
  wf_acc textures acc /\ latest (fst acc) ->
  wf_acc textures (placeImage category ax ay az cols len acc i img) /\
  latest (fst (placeImage category ax ay az cols len acc i img)).
Proof.
  intros [Hacc Hlast]. split; [now apply placeImage_wf|].
  destruct acc as [s group]. destruct Hacc as (Hwf & _). simpl in Hwf, Hlast.
  destruct (placeImage_shape category ax ay az cols len s group i img) as (Hp & Hi & _).
  unfold latest. rewrite Hp, Hi. exact (latest3_place _ _ _ _ Hwf Hlast).
Qed.

Lemma placeCategory_latest textures total s k entry :
  (wf s /\ highResTextures s = textures) /\ latest s ->
  (wf (placeCategory total s k entry) /\
   highResTextures (placeCategory total s k entry) = textures) /\
  latest (placeCategory total s k entry).
Proof.
  intros [[Hwf Ht] Hlast]. split; [now apply placeCategory_wf|].
  destruct entry as [category images]. unfold placeCategory.
  destruct (getSpiralCoordinates k total) as [ax az].
  assert (Hinit : wf_acc textures (s, []) /\ latest (fst (s, @nil nat)))
    by (split; [split; [exact Hwf|split; [simpl; tauto|exact Ht]]|exact Hlast]).
  pose proof (forEach_indexed_inv (fun acc => wf_acc textures acc /\ latest (fst acc))
                (placeImage category ax 0 az (Nat.sqrt_up (length images)) (length images))
                (fun acc i a Hacc => placeImage_latest textures _ _ _ _ _ _ acc i a Hacc)
                images 0%nat (s, []) Hinit) as [_ Hloop].
  destruct (forEach_indexed _ images 0%nat (s, [])) as [s1 group]. exact Hloop.
Qed.

Lemma createParticleGroups_latest categoriesMap :
  latest (createParticleGroups categoriesMap initialState).
Proof.
  unfold createParticleGroups, positionCameraForSpiralView.
  pose proof (forEach_indexed_inv
                (fun s => (wf s /\ highResTextures s = ∅) /\ latest s)
                (placeCategory (length (sort_by_count categoriesMap)))
                (fun s k e Hs => placeCategory_latest ∅ _ s k e Hs)
                (sort_by_count categoriesMap) 0%nat initialState) as Hloop.
  apply Hloop. split; [split; [exact initial_wf|reflexivity]|].
  intros k id id' p' [].
Qed.

End Wf.

(** ** No callback changes the skeleton *)

Lemma lookup_map {A B : Type} (g : A -> B) (l : list A) (i : nat) :
  map g l !! i = option_map g (l !! i).
Proof. revert i. induction l as [|a l IH]; intros [|i]; simpl; auto. Qed.

Lemma opacity_sweep_kept {B : Type} (g : Sprite -> B) (o : string * Group -> R)
    (groups : list (string * Group)) :
  (forall sp v, g (set_material_opacity v sp) = g sp) ->
  forall sps,
    map g (fold_left
             (fun sps (p : string * Group) =>
                fold_left (setOpacityIfVisible (o p)) (children (snd p)) sps)
             groups sps) = map g sps.
Proof.
  intros Hg. apply (fold_left_kept _ (map g)). intros sps p.
  apply (fold_left_kept _ (map g)). intros sps' id.
  unfold setOpacityIfVisible. apply map_alter_kept.
  intros sp. destruct (visible sp); auto.
Qed.

Lemma highlight_kept {B : Type} (g : Sprite -> B) group s :
  (forall sp v, g (set_material_opacity v sp) = g sp) ->
  map g (sprites (highlight group s)) = map g (sprites s).
Proof.
  intros Hg.
  exact (opacity_sweep_kept g (fun p => if String.eqb (fst p) group then 1.0 else 0.3)
           (Object_values_particles s) Hg (sprites s)).
Qed.

Lemma closeImagePreview_kept {B : Type} (g : Sprite -> B) s :
  (forall sp v, g (set_material_opacity v sp) = g sp) ->
  map g (sprites (closeImagePreview s)) = map g (sprites s).
Proof.
  intros Hg. exact (opacity_sweep_kept g (fun _ => 1.0) (Object_values_particles s) Hg (sprites s)).
Qed.

Section Steps.
Context `{Runtime}.

Lemma skeleton_updateLOD_entry s k : skeleton (updateLOD_entry s k) = skeleton s.
Proof.
  unfold updateLOD_entry.
  destruct (Map_get k (imageData s)) as [data|]; [|reflexivity].
  destruct (sprites s !! sprite data) as [sp|]; [|reflexivity].
  destruct (negb (visible sp)); [reflexivity|].
  destruct (keyPosition k) as [p|]; [|reflexivity].
  destruct (_ && _).
  - destruct (decide _); reflexivity.
  - destruct (_ && _); [|reflexivity].
    destruct (highResTextures s !! filename data) as [texture|]; [|reflexivity].
    unfold skeleton, positions, index. simpl.
    rewrite map_alter_kept by reflexivity.
    rewrite index_Map_alter by reflexivity. reflexivity.
Qed.

Lemma skeleton_updateLOD s : skeleton (updateLOD s) = skeleton s.
Proof. unfold updateLOD. apply fold_left_kept. apply skeleton_updateLOD_entry. Qed.

Lemma skeleton_filter t s : skeleton (filterImagesByConfidence t s) = skeleton s.
Proof.
  unfold filterImagesByConfidence. apply fold_left_kept. intros a d.
  unfold filter_entry, skeleton, positions. simpl.
  rewrite map_alter_kept by reflexivity. reflexivity.
Qed.

Lemma skeleton_highlight group s : skeleton (highlight group s) = skeleton s.
Proof.
  unfold skeleton, positions. rewrite highlight_kept by reflexivity. reflexivity.
Qed.

Lemma skeleton_closeImagePreview s : skeleton (closeImagePreview s) = skeleton s.
Proof.
  unfold skeleton, positions. rewrite closeImagePreview_kept by reflexivity. reflexivity.
Qed.

Lemma skeleton_onClick hit s : skeleton (onClick hit s) = skeleton s.
Proof.
  unfold onClick.
  assert (Hfold : forall groups acc,
            skeleton (fst (fold_left (onClick_group hit) groups acc)) = skeleton (fst acc)).
  { intros groups. apply (fold_left_kept _ (fun acc => skeleton (fst acc))).
    intros [a b] g. unfold onClick_group.
    destruct (hit (fst g)) as [id|]; [|reflexivity].
    destruct (clickData a id); [|reflexivity].
    simpl. apply (skeleton_highlight (fst g) a). }
  specialize (Hfold (Object_values_particles s) (s, false)).
  destruct (fold_left (onClick_group hit) (Object_values_particles s) (s, false)) as [s1 b].
  simpl in Hfold. destruct b; [exact Hfold|].
  now rewrite skeleton_closeImagePreview.
Qed.

Lemma skeleton_step s s' : step s s' -> skeleton s' = skeleton s.
Proof.
  destruct 1.
  - unfold onStandardLoaded. simpl.
    destruct (Map_get key (imageData s)); [|reflexivity].
    unfold skeleton, positions, index. simpl.
    rewrite map_alter_kept by reflexivity.
    rewrite index_Map_alter by reflexivity. reflexivity.
  - reflexivity.
  - unfold onHighLoaded, skeleton, positions, index. simpl.
    rewrite map_alter_kept by reflexivity.
    rewrite index_Map_alter by reflexivity. reflexivity.
  - reflexivity.
  - reflexivity.
  - apply skeleton_updateLOD.
  - apply skeleton_filter.
  - apply skeleton_onClick.
  - apply skeleton_closeImagePreview.
Qed.

Lemma reachable_wf categoriesMap s : reachable categoriesMap s -> wf s.
Proof.
  induction 1 as [|s s' _ IH Hstep].
  - apply createParticleGroups_wf.
  - eapply wf_skeleton; [apply skeleton_step; exact Hstep|exact IH].
Qed.

Lemma reachable_latest categoriesMap s : reachable categoriesMap s -> latest s.
Proof.
  induction 1 as [|s s' _ IH Hstep].
  - apply createParticleGroups_latest.
  - pose proof (skeleton_step _ _ Hstep) as E. unfold skeleton in E.
    injection E as Hp Hi _. unfold latest. now rewrite Hp, Hi.
Qed.

(** An entry of the index refers to a sprite of the store. *)
Lemma wf_entry_sprite s key d :
  wf s -> In (key, d) (imageData s) ->
  exists sp, sprites s !! sprite d = Some sp /\ key = positionKey (position sp).
Proof.
  intros (_ & _ & Hof & _ & _) Hin.
  destruct (Hof key (sprite d)) as (p & Hp & ->).
  { unfold index. change (key, sprite d) with (entryRef (key, d)). now apply in_map. }
  unfold positions in Hp. rewrite lookup_map in Hp.
  destruct (sprites s !! sprite d) as [sp|]; [|discriminate].
  injection Hp as <-. eauto.
Qed.

Lemma wf_refs_NoDup s : wf s -> List.NoDup (map sprite (map snd (imageData s))).
Proof.
  intros (_ & Hr & _). unfold index in Hr. rewrite map_map in *. exact Hr.
Qed.

Lemma wf_keys_NoDup s : wf s -> List.NoDup (map fst (imageData s)).
Proof. intros (Hk & _). unfold index in Hk. now rewrite index_keys in Hk. Qed.

End Steps.

(** ** Selection: the key rebuilt by [onClick] *)

Section Selection.
Context `{Runtime}.

Lemma placeImage_click category ax ay az cols len s group i img :
  let r := placeImage category ax ay az cols len (s, group) i img in
  let id := length (sprites s) in
  let key := positionKey (imagePosition ax ay az cols len (Image.confidence img) i) in
  Map_get key (imageData (fst r))
  = Some (mkImageData (Image.filename img) category (Image.confidence img) id false false) /\
  clickKey (fst r) id = Some key.
Proof.
  cbv zeta. unfold placeImage, clickKey.
  destruct (decide _); simpl; (split; [apply Map_get_set_eq|]);
    rewrite list_lookup_middle by reflexivity; reflexivity.
Qed.

(** What [onClick] finds for the sprite [id]: the key it rebuilds from the
    position of the sprite is a key of the index; the record stored there
    belongs to a sprite with that same key, which is [id] or a sprite created
    after [id]; it is the record of [id] itself exactly when no sprite created
    after [id] has the key of [id]. *)
Definition click_resolves (s : State) (id : nat) : Prop :=
  exists sp d sp',
    sprites s !! id = Some sp /\
    clickKey s id = Some (positionKey (position sp)) /\
    clickData s id = Some d /\
    In (positionKey (position sp), d) (imageData s) /\
    sprites s !! sprite d = Some sp' /\
    positionKey (position sp') = positionKey (position sp) /\
    (id <= sprite d)%nat /\
    (sprite d = id <->
     forall id' sp'', (id < id')%nat -> sprites s !! id' = Some sp'' ->
       positionKey (position sp'') <> positionKey (position sp)).

(** X29.  (1) When [createParticleGroups] creates a sprite, the string built
    by [onClick] from the position of that sprite is the string under which the
    record was just stored.  (2) In every later state, for every sprite of a
    group the lookup of [onClick] finds a record, so the branch for a missing
    record is not taken: it is the record stored under the rebuilt key, which
    belongs to the sprite created last with that key.  So the click resolves
    the record of the clicked sprite itself exactly when no sprite created
    after it has the same key. *)
Theorem click_rebuilds_stored_key (categoriesMap : CategoriesMap) (s : State)
    (c : string) (g : Group) (id : nat) :
  (forall category ax ay az cols len s0 group i img,
     let r := placeImage category ax ay az cols len (s0, group) i img in
     let key := positionKey (imagePosition ax ay az cols len (Image.confidence img) i) in
     Map_get key (imageData (fst r))
     = Some (mkImageData (Image.filename img) category (Image.confidence img)
                         (length (sprites s0)) false false) /\
     clickKey (fst r) (length (sprites s0)) = Some key) /\
  (reachable categoriesMap s -> In (c, g) (particles s) -> In id (children g) ->
   click_resolves s id).
Proof.
  split; [intros; apply placeImage_click|].
  intros Hreach Hg Hid.
  pose proof (reachable_wf _ _ Hreach) as Hwf.
  pose proof (reachable_latest _ _ Hreach) as Hlast.
  pose proof Hwf as (Hk & Hr & Hof & Hix & Hch).
  specialize (Hch c g id Hg Hid).
  unfold positions in Hch. rewrite length_map in Hch.
  destruct (lookup_lt_is_Some_2 (sprites s) id Hch) as [sp Hsp].
  assert (Hkey : clickKey s id = Some (positionKey (position sp)))
    by (unfold clickKey; now rewrite Hsp).
  assert (Hin : In (positionKey (position sp)) (map fst (imageData s))).
  { rewrite <- index_keys. apply (Hix id). unfold positions.
    rewrite lookup_map, Hsp. reflexivity. }
  destruct (Map_get_key _ _ Hin) as [d Hd].
  pose proof (Map_get_In _ _ _ Hd) as Hentry.
  destruct (wf_entry_sprite s _ d Hwf Hentry) as (sp' & Hsp' & Hsame).
  assert (Hix' : In (positionKey (position sp), sprite d) (index s)).
  { unfold index. change (positionKey (position sp), sprite d)
      with (entryRef (positionKey (position sp), d)). now apply in_map. }
  assert (Hafter : forall id' sp'', sprites s !! id' = Some sp'' ->
            positionKey (position sp'') = positionKey (position sp) -> (id' <= sprite d)%nat).
  { intros id' sp'' Hsp'' Hk''. apply (Hlast _ _ id' (position sp'') Hix'); [|exact Hk''].
    unfold positions. rewrite lookup_map, Hsp''. reflexivity. }
  pose proof (Hafter id sp Hsp eq_refl) as Hle.
  exists sp, d, sp'. repeat split; auto.
  - unfold clickData. now rewrite Hkey.
  - intros E id' sp'' Hlt Hsp'' Hk''. pose proof (Hafter id' sp'' Hsp'' Hk''). lia.
  - intros Hnone. destruct (Nat.eq_dec (sprite d) id) as [E|Hne]; [exact E|].
    exfalso. apply (Hnone (sprite d) sp'); [lia|exact Hsp'|auto].
Qed.

End Selection.

(** ** Confidence filter *)

Lemma Rgeb_true (a b : R) : Rgeb a b = true <-> a >= b.
Proof. unfold Rgeb. destruct (Rge_dec a b); split; intros; auto; discriminate. Qed.

Definition sweep_visible (t : R) (sps : list Sprite) (d : ImageData) : list Sprite :=
  alter (set_visible (Rgeb (confidence d) t)) (sprite d) sps.

Lemma filter_sprites t ds : forall s,
  fold_left (filter_entry t) ds s
  = set_sprites (fold_left (sweep_visible t) ds (sprites s)) s.
Proof.
  induction ds as [|d ds IH]; intros s; simpl.
  - now destruct s.
  - rewrite IH. reflexivity.
Qed.

Lemma sweep_visible_other t ds id : forall sps,
  ~ In id (map sprite ds) ->
  fold_left (sweep_visible t) ds sps !! id = sps !! id.
Proof.
  induction ds as [|d ds IH]; intros sps Hnot; simpl; [reflexivity|].
  simpl in Hnot. rewrite IH by tauto.
  unfold sweep_visible. apply list_lookup_alter_ne. tauto.
Qed.

Lemma sweep_visible_own t ds d : forall sps,
  List.NoDup (map sprite ds) -> In d ds ->
  fold_left (sweep_visible t) ds sps !! sprite d
  = option_map (set_visible (Rgeb (confidence d) t)) (sps !! sprite d).
Proof.
  induction ds as [|d0 ds IH]; intros sps Hnd Hin; simpl; [destruct Hin|].
  inversion Hnd as [|? ? Hnot Hnd']; subst.
  destruct Hin as [->|Hin].
  - rewrite sweep_visible_other by exact Hnot.
    unfold sweep_visible. apply list_lookup_alter_eq.
  - rewrite IH by assumption.
    unfold sweep_visible at 1. rewrite list_lookup_alter_ne; [reflexivity|].
    intros E. apply Hnot. rewrite E. now apply in_map.
Qed.

Section Filter.
Context `{Runtime}.

Lemma filter_visible t s key d :
  wf s -> In (key, d) (imageData s) ->
  isVisible (filterImagesByConfidence t s) d = Rgeb (confidence d) t.
Proof.
  intros Hwf Hin. unfold filterImagesByConfidence, isVisible.
  rewrite filter_sprites. simpl.
  rewrite sweep_visible_own.
  - destruct (wf_entry_sprite s key d Hwf Hin) as (sp & -> & _). reflexivity.
  - now apply wf_refs_NoDup.
  - change d with (snd (key, d)). now apply in_map.
Qed.

Lemma filter_imageData t s : imageData (filterImagesByConfidence t s) = imageData s.
Proof.
  unfold filterImagesByConfidence. rewrite filter_sprites. reflexivity.
Qed.

Lemma filter_wf t s : wf s -> wf (filterImagesByConfidence t s).
Proof. apply wf_skeleton, skeleton_filter. Qed.

Lemma visibleKeys_filter t s key :
  wf s ->
  In key (visibleKeys (filterImagesByConfidence t s))
  <-> exists d, In (key, d) (imageData s) /\ confidence d >= t.
Proof.
  intros Hwf. unfold visibleKeys. rewrite filter_imageData, in_map_iff. split.
  - intros ([k d] & E & Hin). simpl in E. subst k.
    apply filter_In in Hin. destruct Hin as [Hin Hvis]. simpl in Hvis.
    rewrite (filter_visible t s key d Hwf Hin) in Hvis.
    exists d. split; [exact Hin|now apply Rgeb_true].
  - intros (d & Hin & Hge). exists (key, d). split; [reflexivity|].
    apply filter_In. split; [exact Hin|]. simpl.
    rewrite (filter_visible t s key d Hwf Hin). now apply Rgeb_true.
Qed.

Lemma filter_idempotent t s :
  wf s ->
  filterImagesByConfidence t (filterImagesByConfidence t s) = filterImagesByConfidence t s.
Proof.
  intros Hwf. unfold filterImagesByConfidence at 1. rewrite filter_imageData.
  unfold filterImagesByConfidence. rewrite !filter_sprites. simpl.
  unfold set_sprites. simpl. f_equal.
  set (ds := map snd (imageData s)). apply list_eq. intros i.
  destruct (in_dec Nat.eq_dec i (map sprite ds)) as [Hin|Hnot].
  - apply in_map_iff in Hin. destruct Hin as (d & <- & Hin).
    rewrite !sweep_visible_own by (try apply wf_refs_NoDup; assumption).
    destruct (sprites s !! sprite d); reflexivity.
  - now rewrite !sweep_visible_other by exact Hnot.
Qed.

(** C5.  [filterImagesByConfidence(t)] keeps every record of the index, and
    after it the sprite of a record of the index is visible exactly when the
    confidence of the record is at least [t]: the sprite is the one the record
    had, with [visible] set to the outcome of the comparison and nothing else
    changed.  Running the filter again with the same [t] changes nothing; and
    with [t1 <= t2], raising the threshold from [t1] to [t2] adds no visible
    record and lowering it from [t2] to [t1] removes none. *)
Theorem confidence_filter (categoriesMap : CategoriesMap) (s : State) (t t1 t2 : R) :
  reachable categoriesMap s ->
  imageData (filterImagesByConfidence t s) = imageData s /\
  (forall key d, In (key, d) (imageData s) ->
     (isVisible (filterImagesByConfidence t s) d = true <-> confidence d >= t) /\
     exists sp,
       sprites s !! sprite d = Some sp /\
       sprites (filterImagesByConfidence t s) !! sprite d
       = Some (set_visible (Rgeb (confidence d) t) sp)) /\
  filterImagesByConfidence t (filterImagesByConfidence t s) = filterImagesByConfidence t s /\
  (t1 <= t2 ->
   incl (visibleKeys (filterImagesByConfidence t2 (filterImagesByConfidence t1 s)))
        (visibleKeys (filterImagesByConfidence t1 s)) /\
   incl (visibleKeys (filterImagesByConfidence t2 s))
        (visibleKeys (filterImagesByConfidence t1 (filterImagesByConfidence t2 s)))).
Proof.
  intros Hreach. pose proof (reachable_wf _ _ Hreach) as Hwf.
  split; [apply filter_imageData|]. split; [|split].
  - intros key d Hin. split.
    + rewrite (filter_visible t s key d Hwf Hin). apply Rgeb_true.
    + destruct (wf_entry_sprite s key d Hwf Hin) as (sp & Hsp & _).
      exists sp. split; [exact Hsp|].
      unfold filterImagesByConfidence. rewrite filter_sprites. simpl.
      rewrite sweep_visible_own.
      * now rewrite Hsp.
      * now apply wf_refs_NoDup.
      * change d with (snd (key, d)). now apply in_map.
  - now apply filter_idempotent.
  - intros Hle. split; intros key Hin.
    + apply visibleKeys_filter in Hin; [|now apply filter_wf].
      rewrite filter_imageData in Hin. destruct Hin as (d & Hin & Hge).
      apply visibleKeys_filter; [exact Hwf|]. exists d. split; [exact Hin|lra].
    + apply visibleKeys_filter in Hin; [|exact Hwf].
      destruct Hin as (d & Hin & Hge).
      apply visibleKeys_filter; [now apply filter_wf|].
      rewrite filter_imageData. exists d. split; [exact Hin|lra].
Qed.

End Filter.

(** ** Textures: the placeholder is only ever the initial map *)

Definition textures_loaded (s : State) : Prop :=
  forall f t, highResTextures s !! f = Some t -> t <> placeholderTexture.

(** Every sprite of [sps'] is a sprite of [sps] which has not gone back to
    the placeholder. *)
Definition kept (sps sps' : list Sprite) : Prop :=
  forall id sp', sps' !! id = Some sp' ->
    exists sp, sps !! id = Some sp /\
      (material_map sp <> placeholderTexture -> material_map sp' <> placeholderTexture).

Lemma kept_refl sps : kept sps sps.
Proof. intros id sp Hsp. eauto. Qed.

Lemma kept_trans sps1 sps2 sps3 : kept sps1 sps2 -> kept sps2 sps3 -> kept sps1 sps3.
Proof.
  intros H12 H23 id sp3 H3.
  destruct (H23 id sp3 H3) as (sp2 & H2 & Himp2).
  destruct (H12 id sp2 H2) as (sp1 & H1 & Himp1).
  eauto.
Qed.

Lemma kept_alter (f : Sprite -> Sprite) (i : nat) sps :
  (forall sp, material_map sp <> placeholderTexture ->
              material_map (f sp) <> placeholderTexture) ->
  kept sps (alter f i sps).
Proof.
  intros Hf id sp' Hl. rewrite list_lookup_alter in Hl.
  destruct (decide (i = id)) as [->|Hne]; [|eauto].
  destruct (sps !! id) as [sp|] eqn:E; simpl in Hl; [|discriminate].
  injection Hl as <-. eauto.
Qed.

Lemma kept_same_map sps sps' :
  map material_map sps' = map material_map sps -> kept sps sps'.
Proof.
  intros Hmap id sp' Hl.
  assert (E : map material_map sps' !! id = map material_map sps !! id) by now rewrite Hmap.
  rewrite !lookup_map, Hl in E. simpl in E.
  destruct (sps !! id) as [sp|]; [|discriminate].
  injection E as E. exists sp. split; [reflexivity|]. now rewrite E.
Qed.

Section Textures.
Context `{Runtime}.

Lemma updateLOD_entry_kept s k :
  textures_loaded s ->
  kept (sprites s) (sprites (updateLOD_entry s k)) /\
  highResTextures (updateLOD_entry s k) = highResTextures s.
Proof.
  intros Hld. unfold updateLOD_entry.
  destruct (Map_get k (imageData s)) as [data|]; [|split; [apply kept_refl|reflexivity]].
  destruct (sprites s !! sprite data) as [sp|]; [|split; [apply kept_refl|reflexivity]].
  destruct (negb (visible sp)); [split; [apply kept_refl|reflexivity]|].
  destruct (keyPosition k) as [p|]; [|split; [apply kept_refl|reflexivity]].
  destruct (_ && _).
  - destruct (decide _); split; try apply kept_refl; reflexivity.
  - destruct (_ && _); [|split; [apply kept_refl|reflexivity]].
    destruct (highResTextures s !! filename data) as [texture|] eqn:E;
      [|split; [apply kept_refl|reflexivity]].
    split; [|reflexivity]. simpl. apply kept_alter.
    intros sp0 _. simpl. exact (Hld _ _ E).
Qed.

Lemma updateLOD_kept s :
  textures_loaded s ->
  kept (sprites s) (sprites (updateLOD s)) /\
  highResTextures (updateLOD s) = highResTextures s.
Proof.
  unfold updateLOD. generalize (map fst (imageData s)). intros keys. revert s.
  induction keys as [|k keys IH]; intros s Hld; simpl.
  - split; [apply kept_refl|reflexivity].
  - destruct (updateLOD_entry_kept s k Hld) as [Hk Ht].
    destruct (IH (updateLOD_entry s k)) as [Hk' Ht'].
    { unfold textures_loaded. now rewrite Ht. }
    split; [eapply kept_trans; eassumption|congruence].
Qed.

Lemma filter_kept t s :
  kept (sprites s) (sprites (filterImagesByConfidence t s)) /\
  highResTextures (filterImagesByConfidence t s) = highResTextures s.
Proof.
  unfold filterImagesByConfidence. rewrite filter_sprites. simpl.
  split; [|reflexivity]. apply kept_same_map.
  apply (fold_left_kept _ (map material_map)). intros sps d.
  unfold sweep_visible. now apply map_alter_kept.
Qed.

Lemma onClick_kept hit s :
  kept (sprites s) (sprites (onClick hit s)) /\
  highResTextures (onClick hit s) = highResTextures s.
Proof.
  unfold onClick.
  assert (Hfold : forall groups acc,
            (fun a => (map material_map (sprites (fst a)), highResTextures (fst a)))
              (fold_left (onClick_group hit) groups acc)
            = (map material_map (sprites (fst acc)), highResTextures (fst acc))).
  { intros groups.
    apply (fold_left_kept (onClick_group hit)
             (fun a => (map material_map (sprites (fst a)), highResTextures (fst a)))).
    intros [a b] g. unfold onClick_group.
    destruct (hit (fst g)) as [id|]; [|reflexivity].
    destruct (clickData a id); [|reflexivity].
    simpl. f_equal.
    exact (highlight_kept material_map (fst g) a (fun _ _ => eq_refl)). }
  specialize (Hfold (Object_values_particles s) (s, false)).
  destruct (fold_left (onClick_group hit) (Object_values_particles s) (s, false)) as [s1 b].
  simpl in Hfold. injection Hfold as Hm Ht.
  destruct b.
  - split; [now apply kept_same_map|exact Ht].
  - split; [|exact Ht]. apply kept_same_map.
    now rewrite closeImagePreview_kept.
Qed.

Lemma insert_loaded (m : gmap string Texture) k t :
  t <> placeholderTexture ->
  (forall f t', m !! f = Some t' -> t' <> placeholderTexture) ->
  forall f t', <[k := t]> m !! f = Some t' -> t' <> placeholderTexture.
Proof.
  intros Ht Hm f t' Hl. rewrite lookup_insert in Hl.
  destruct (decide (k = f)); [congruence|eauto].
Qed.

Lemma step_kept s s' :
  textures_loaded s -> step s s' ->
  kept (sprites s) (sprites s') /\ textures_loaded s'.
Proof.
  intros Hld Hstep. destruct Hstep.
  - unfold onStandardLoaded. simpl.
    destruct (Map_get key (imageData s)); simpl.
    + split; [now apply kept_alter|]. unfold textures_loaded. simpl.
      now apply insert_loaded.
    + split; [apply kept_refl|]. unfold textures_loaded. simpl.
      now apply insert_loaded.
  - split; [apply kept_refl|exact Hld].
  - unfold onHighLoaded. simpl.
    split; [now apply kept_alter|]. unfold textures_loaded. simpl.
    now apply insert_loaded.
  - split; [apply kept_refl|exact Hld].
  - split; [apply kept_refl|exact Hld].
  - destruct (updateLOD_kept s Hld) as [Hk Ht].
    split; [exact Hk|]. unfold textures_loaded. now rewrite Ht.
  - destruct (filter_kept threshold s) as [Hk Ht].
    split; [exact Hk|]. unfold textures_loaded. now rewrite Ht.
  - destruct (onClick_kept hit s) as [Hk Ht].
    split; [exact Hk|]. unfold textures_loaded. now rewrite Ht.
  - split; [|exact Hld]. apply kept_same_map.
    now rewrite closeImagePreview_kept.
Qed.

Lemma reachable_textures_loaded categoriesMap s :
  reachable categoriesMap s -> textures_loaded s.
Proof.
  induction 1 as [|s s' _ IH Hstep].
  - intros f t Hl.
    rewrite (proj2 (createParticleGroups_wf categoriesMap)) in Hl.
    rewrite lookup_empty in Hl. discriminate.
  - exact (proj2 (step_kept s s' IH Hstep)).
Qed.

Lemma steps_kept s s' :
  textures_loaded s -> steps s s' ->
  kept (sprites s) (sprites s') /\ textures_loaded s'.
Proof.
  intros Hld. induction 1 as [|s s' s'' _ IH Hstep].
  - split; [apply kept_refl|exact Hld].
  - destruct (IH Hld) as [Hk Hld']. destruct (step_kept s' s'' Hld' Hstep) as [Hk' Hld''].
    split; [eapply kept_trans; eassumption|exact Hld''].
Qed.

(** C8.  Once the map of a sprite is a loaded texture, it is a loaded texture
    after every further sequence of load completions, load failures, LOD
    updates, camera moves, filter changes and clicks: the placeholder is never
    assigned again. *)
Theorem placeholder_never_restored (categoriesMap : CategoriesMap) (s s' : State)
    (id : nat) (sp sp' : Sprite) :
  reachable categoriesMap s -> steps s s' ->
  sprites s !! id = Some sp -> material_map sp <> placeholderTexture ->
  sprites s' !! id = Some sp' ->
  material_map sp' <> placeholderTexture.
Proof.
  intros Hreach Hsteps Hsp Hmap Hsp'.
  destruct (steps_kept s s' (reachable_textures_loaded _ _ Hreach) Hsteps) as [Hk _].
  destruct (Hk id sp' Hsp') as (sp0 & Hsp0 & Himp).
  rewrite Hsp in Hsp0. injection Hsp0 as <-. auto.
Qed.

End Textures.

(** ** Level of detail: what one run of [updateLOD] does *)

Lemma Rltb_true (a b : R) : Rltb a b = true <-> a < b.
Proof. unfold Rltb. destruct (Rlt_dec a b); split; intros; auto; discriminate. Qed.

Lemma snd_injective {A B : Type} (l : list (A * B)) a b x :
  List.NoDup (map snd l) -> In (a, x) l -> In (b, x) l -> a = b.
Proof.
  induction l as [|[a0 x0] l IH]; simpl; [tauto|].
  intros Hnd Ha Hb. inversion Hnd as [|? ? Hnot Hnd']; subst.
  destruct Ha as [Ha|Ha]; destruct Hb as [Hb|Hb]; auto.
  - congruence.
  - injection Ha as -> ->. exfalso. apply Hnot.
    change x with (snd (b, x)). now apply in_map.
  - injection Hb as -> ->. exfalso. apply Hnot.
    change x with (snd (a, x)). now apply in_map.
Qed.

(** The sprite referenced by the entry stored under a key. *)
Definition refOf (s : State) (k : string) : option nat :=
  option_map sprite (Map_get k (imageData s)).

Section Lod.
Context `{Runtime}.

(** One iteration leaves the state alone, or issues a high-tier load for a
    record that is not High, or demotes a High record to the cached texture. *)
Lemma updateLOD_entry_cases s k :
  updateLOD_entry s k = s \/
  (exists d,
     Map_get k (imageData s) = Some d /\ highQualityLoaded d = false /\
     updateLOD_entry s k
     = set_loads (loads s ++ [HighFetch k (filename d) (sprite d)])
         (set_pendingTextures (pendingTextures s ∪ {[hqKey (filename d)]}) s)) \/
  (exists d texture,
     Map_get k (imageData s) = Some d /\ highQualityLoaded d = true /\
     highResTextures s !! filename d = Some texture /\
     updateLOD_entry s k
     = set_imageData (Map_alter (set_highQualityLoaded false) k (imageData s))
         (set_sprites (alter (set_material_map texture) (sprite d) (sprites s)) s)).
Proof.
  unfold updateLOD_entry.
  destruct (Map_get k (imageData s)) as [d|]; [|now left].
  destruct (sprites s !! sprite d) as [sp|]; [|now left].
  destruct (negb (visible sp)); [now left|].
  destruct (keyPosition k) as [p|]; [|now left].
  destruct (Rltb _ _ && negb (highQualityLoaded d)) eqn:E1.
  - apply andb_true_iff in E1. destruct E1 as [_ E1]. apply negb_true_iff in E1.
    destruct (decide _); [now left|]. right. left. exists d. auto.
  - destruct (Rgeb _ _ && highQualityLoaded d) eqn:E2; [|now left].
    apply andb_true_iff in E2. destruct E2 as [_ E2].
    destruct (highResTextures s !! filename d) as [texture|] eqn:E3; [|now left].
    right. right. exists d, texture. auto.
Qed.

(** [s1] is [s] after the iterations for the keys [l]. *)
Record frame (l : list string) (s s1 : State) : Prop := {
  fr_camera : camera_position s1 = camera_position s;
  fr_textures : highResTextures s1 = highResTextures s;
  fr_visible : map visible (sprites s1) = map visible (sprites s);
  fr_pending : pendingTextures s ⊆ pendingTextures s1;
  fr_ref : forall k, refOf s1 k = refOf s k;
  fr_get : forall k, ~ In k l -> Map_get k (imageData s1) = Map_get k (imageData s);
  fr_sprite : forall id, (forall k, In k l -> refOf s k <> Some id) ->
      sprites s1 !! id = sprites s !! id;
  fr_loads : forall f, In f (loads s1) ->
      In f (loads s) \/
      exists k d, In k l /\ f = HighFetch k (filename d) (sprite d) /\
                  Map_get k (imageData s) = Some d /\ highQualityLoaded d = false
}.

Lemma frame_nil s : frame [] s s.
Proof. constructor; auto. Qed.

Lemma frame_entry s k : frame [k] s (updateLOD_entry s k).
Proof.
  destruct (updateLOD_entry_cases s k)
    as [->|[(d & Hd & Hq & ->)|(d & texture & Hd & Hq & Ht & ->)]].
  - constructor; auto.
  - constructor; simpl; auto.
    + set_solver.
    + intros f Hin. apply in_app_or in Hin. destruct Hin as [Hin|[<-|[]]]; [now left|].
      right. exists k, d. simpl. auto.
  - constructor; simpl; auto.
    + now apply map_alter_kept.
    + intros k'. unfold refOf. simpl.
      destruct (String.eqb_spec k k') as [<-|Hne].
      * rewrite Map_get_alter_eq. now destruct (Map_get k (imageData s)).
      * now rewrite Map_get_alter_ne.
    + intros k' Hnot. apply Map_get_alter_ne. intros ->. apply Hnot. now left.
    + intros id Hid. apply list_lookup_alter_ne. intros <-.
      apply (Hid k); [now left|]. unfold refOf. now rewrite Hd.
Qed.

Lemma frame_cons k l s s1 s2 :
  ~ In k l -> frame [k] s s1 -> frame l s1 s2 -> frame (k :: l) s s2.
Proof.
  intros Hnot [C1 T1 V1 P1 R1 G1 S1 L1] [C2 T2 V2 P2 R2 G2 S2 L2].
  constructor.
  - congruence.
  - congruence.
  - congruence.
  - set_solver.
  - intros k'. now rewrite R2, R1.
  - intros k' Hk'. simpl in Hk'. rewrite G2 by tauto. apply G1. simpl. tauto.
  - intros id Hid. rewrite S2.
    + apply S1. intros k' [<-|[]]. apply Hid. now left.
    + intros k' Hk'. rewrite R1. apply Hid. now right.
  - intros f Hin. destruct (L2 f Hin) as [Hin1|(k' & d & Hk' & -> & Hd & Hq)].
    + destruct (L1 f Hin1) as [Hin0|(k' & d & [<-|[]] & -> & Hd & Hq)]; [now left|].
      right. exists k, d. simpl. auto.
    + right. exists k', d. simpl. rewrite G1 in Hd; [auto|].
      simpl. intros [->|[]]. contradiction.
Qed.

Lemma frame_fold l : List.NoDup l -> forall s, frame l s (fold_left updateLOD_entry l s).
Proof.
  induction l as [|k l IH]; intros Hnd s; simpl; [apply frame_nil|].
  inversion Hnd as [|? ? Hnot Hnd']; subst.
  eapply frame_cons; [exact Hnot|apply frame_entry|apply IH; exact Hnd'].
Qed.

Lemma frame_weaken l l' s s1 : incl l l' -> frame l s s1 -> frame l' s s1.
Proof.
  intros Hincl [C T V P R G S L]. constructor; auto.
  intros f Hin. destruct (L f Hin) as [?|(k & d & Hk & ?)]; [now left|].
  right. exists k, d. auto.
Qed.

(** Two keys of the index never share a sprite. *)
Lemma refOf_injective s k1 k2 id :
  wf s -> refOf s k1 = Some id -> refOf s k2 = Some id -> k1 = k2.
Proof.
  intros (_ & Hr & _) H1 H2. unfold refOf in *.
  destruct (Map_get k1 (imageData s)) as [d1|] eqn:E1; [|discriminate].
  destruct (Map_get k2 (imageData s)) as [d2|] eqn:E2; [|discriminate].
  simpl in *. injection H1 as H1. injection H2 as H2.
  apply Map_get_In in E1, E2.
  apply (snd_injective (index s) k1 k2 id Hr).
  - rewrite <- H1. change (k1, sprite d1) with (entryRef (k1, d1)). now apply in_map.
  - rewrite <- H2. change (k2, sprite d2) with (entryRef (k2, d2)). now apply in_map.
Qed.

(** The iteration for [key] inside a run of [updateLOD]: it starts from a
    state [sa] in which the record and its sprite are as in [s], and what it
    leaves for the record and its sprite stays until the end of the run. *)
Lemma updateLOD_split s key d0 :
  wf s -> Map_get key (imageData s) = Some d0 ->
  exists sa,
    frame (map fst (imageData s)) s sa /\
    Map_get key (imageData sa) = Some d0 /\
    sprites sa !! sprite d0 = sprites s !! sprite d0 /\
    pendingTextures (updateLOD_entry sa key) ⊆ pendingTextures (updateLOD s) /\
    Map_get key (imageData (updateLOD s)) = Map_get key (imageData (updateLOD_entry sa key)) /\
    sprites (updateLOD s) !! sprite d0 = sprites (updateLOD_entry sa key) !! sprite d0.
Proof.
  intros Hwf Hd0.
  pose proof (wf_keys_NoDup s Hwf) as Hnd.
  assert (Hin : In key (map fst (imageData s))).
  { change key with (fst (key, d0)). apply in_map. now apply Map_get_In. }
  destruct (in_split _ _ Hin) as (l1 & l2 & Hl).
  unfold updateLOD. rewrite Hl in *. rewrite fold_left_app. simpl.
  apply NoDup_remove in Hnd as Hrem. destruct Hrem as [Hnd12 Hnot12].
  assert (Hnd1 : List.NoDup l1) by now apply NoDup_app_remove_r in Hnd12.
  assert (Hnd2 : List.NoDup l2) by now apply NoDup_app_remove_l in Hnd12.
  assert (Hnot1 : ~ In key l1) by (intros Hx; apply Hnot12, in_or_app; now left).
  assert (Hnot2 : ~ In key l2) by (intros Hx; apply Hnot12, in_or_app; now right).
  assert (Hother : forall k, k <> key -> refOf s k <> Some (sprite d0)).
  { intros k Hne Hk. apply Hne. apply (refOf_injective s k key (sprite d0) Hwf Hk).
    unfold refOf. now rewrite Hd0. }
  set (sa := fold_left updateLOD_entry l1 s).
  pose proof (frame_fold l1 Hnd1 s) as Fa. fold sa in Fa.
  pose proof (frame_fold l2 Hnd2 (updateLOD_entry sa key)) as Fb.
  exists sa. split; [|split; [|split; [|split; [|split]]]].
  - eapply frame_weaken; [|exact Fa]. intros k Hk. apply in_or_app. now left.
  - rewrite (fr_get _ _ _ Fa) by exact Hnot1. exact Hd0.
  - apply (fr_sprite _ _ _ Fa). intros k Hk. apply Hother. intros ->. contradiction.
  - apply (fr_pending _ _ _ Fb).
  - apply (fr_get _ _ _ Fb). exact Hnot2.
  - apply (fr_sprite _ _ _ Fb). intros k Hk.
    rewrite (fr_ref _ _ _ (frame_entry sa key)), (fr_ref _ _ _ Fa).
    apply Hother. intros ->. contradiction.
Qed.


(** The iteration for a visible record whose key parses. *)
Lemma updateLOD_entry_eval s key d sp p :
  Map_get key (imageData s) = Some d -> sprites s !! sprite d = Some sp ->
  visible sp = true -> keyPosition key = Some p ->
  updateLOD_entry s key
  = if Rltb (distanceTo (camera_position s) p) LOD_DISTANCE && negb (highQualityLoaded d)
    then
      if decide (hqKey (filename d) ∈ pendingTextures s) then s
      else set_loads (loads s ++ [HighFetch key (filename d) (sprite d)])
             (set_pendingTextures (pendingTextures s ∪ {[hqKey (filename d)]}) s)
    else if Rgeb (distanceTo (camera_position s) p) LOD_DISTANCE && highQualityLoaded d
    then
      match highResTextures s !! filename d with
      | Some texture =>
          set_imageData (Map_alter (set_highQualityLoaded false) key (imageData s))
            (set_sprites (alter (set_material_map texture) (sprite d) (sprites s)) s)
      | None => s
      end
    else s.
Proof.
  intros Hd Hsp Hv Hp. unfold updateLOD_entry. rewrite Hd, Hsp, Hv, Hp. reflexivity.
Qed.




End Lod.

End SceneFacts.

(* ===================================================================== *)
(** * A scene with one image, followed through its callbacks *)
(* ===================================================================== *)

Module Scenario.
Import Viz LayoutFacts SceneFacts.
Local Open Scope R_scope.

#[local] Existing Instance exampleRuntime.

Definition posterMap : CategoriesMap := [("poster", [Image.mk "a.jpg" (1 / 2)])].
Definition key0 : string := "-5,15,-5".
Definition record0 (isLoaded isHigh : bool) : ImageData :=
  mkImageData "a.jpg" "poster" (1 / 2) 0 isLoaded isHigh.
Definition sprite0 (texture : Texture) : Sprite := mkSprite (-5, 15, -5) true texture 1.

Definition scene (texture : Texture) (d : ImageData) (textures : gmap string Texture)
    (pending : gset string) (requests : list Fetch) (camera : Vec3) : State :=
  mkState [sprite0 texture] [(key0, d)] textures pending
          [("poster", mkGroup [0%nat] "poster" 1)] requests camera None.

Definition home : Vec3 := (411.84, 386.34, 898.09).
Definition near : Vec3 := (-5, 15, -5).

Definition laidOut : State := createParticleGroups posterMap initialState.

Lemma example_position : imagePosition 0 0 0 1 1 (1 / 2) 0 = (-5, 15, -5).
Proof. unfold imagePosition, SPACING. simpl. f_equal; [f_equal|]; lra. Qed.

Lemma example_key : positionKey (-5, 15, -5) = key0.
Proof.
  unfold positionKey, key0. simpl.
  destruct (Req_dec_T (-5) (-5)) as [_|Hne]; [|lra].
  destruct (Req_dec_T 15 (-5)) as [Heq|_]; [lra|].
  destruct (Req_dec_T 15 15) as [_|Hne]; [|lra].
  reflexivity.
Qed.

Lemma example_keyPosition : keyPosition key0 = Some (-5, 15, -5).
Proof. reflexivity. Qed.

Lemma placeImage_fresh `{Runtime} category ax ay az cols len s group i img :
  Image.filename img ∉ pendingTextures s ->
  placeImage category ax ay az cols len (s, group) i img
  = let p := imagePosition ax ay az cols len (Image.confidence img) i in
    let id := length (sprites s) in
    let key := positionKey p in
    (set_loads (loads s ++ [StandardFetch (Image.filename img) key id])
       (set_pendingTextures (pendingTextures s ∪ {[Image.filename img]})
          (set_imageData
             (Map_set key
                (mkImageData (Image.filename img) category (Image.confidence img) id
                             false false)
                (imageData s))
             (set_sprites (sprites s ++ [mkSprite p true placeholderTexture 1]) s))),
     group ++ [id]).
Proof.
  intros Hfresh. unfold placeImage. cbv zeta.
  destruct (decide _) as [Hin|_]; [|reflexivity].
  simpl in Hin. contradiction.
Qed.

Lemma laidOut_eq :
  laidOut = scene placeholderTexture (record0 false false) ∅ (∅ ∪ {["a.jpg"]})
                  [StandardFetch "a.jpg" key0 0] home.
Proof.
  unfold laidOut.
  change (createParticleGroups posterMap initialState)
    with (positionCameraForSpiralView
            (let '(s1, group) :=
               placeImage "poster" 0 0 0 1 1 (initialState, []) 0%nat
                          (Image.mk "a.jpg" (1 / 2)) in
             set_particles
               (Map_set "poster" (mkGroup group "poster" 1) (particles s1)) s1)).
  rewrite placeImage_fresh by apply not_elem_of_empty.
  cbv zeta. simpl Image.confidence. rewrite example_position, example_key.
  reflexivity.
Qed.

Lemma distance_near : distanceTo near (-5, 15, -5) = 0.
Proof.
  unfold distanceTo, near. cbv zeta.
  replace ((-5 - -5) * (-5 - -5) + (15 - 15) * (15 - 15) + (-5 - -5) * (-5 - -5)) with 0
    by ring.
  apply sqrt_0.
Qed.


(** The pending set once the warm-up load of "a.jpg" has come back. *)
Definition afterWarmup : gset string := (∅ ∪ {["a.jpg"]}) ∖ {["a.jpg"]}.

Lemma hq_not_pending : hqKey "a.jpg" ∉ afterWarmup.
Proof.
  intros Hin. apply elem_of_difference in Hin. destruct Hin as [Hin _].
  apply elem_of_union in Hin. destruct Hin as [Hin|Hin].
  - now apply elem_of_empty in Hin.
  - apply elem_of_singleton in Hin. discriminate.
Qed.

(** A run of [updateLOD] on a scene of this shape is its single iteration. *)
Lemma updateLOD_scene texture d textures pending requests camera :
  updateLOD (scene texture d textures pending requests camera)
  = updateLOD_entry (scene texture d textures pending requests camera) key0.
Proof. reflexivity. Qed.

Lemma updateLOD_scene_eval texture isLoaded isHigh textures pending requests camera :
  updateLOD (scene texture (record0 isLoaded isHigh) textures pending requests camera)
  = let s := scene texture (record0 isLoaded isHigh) textures pending requests camera in
    if Rltb (distanceTo camera (-5, 15, -5)) LOD_DISTANCE && negb isHigh
    then
      if decide (hqKey "a.jpg" ∈ pending) then s
      else scene texture (record0 isLoaded isHigh) textures (pending ∪ {[hqKey "a.jpg"]})
                 (requests ++ [HighFetch key0 "a.jpg" 0]) camera
    else if Rgeb (distanceTo camera (-5, 15, -5)) LOD_DISTANCE && isHigh
    then
      match textures !! "a.jpg" with
      | Some cached => scene cached (record0 isLoaded false) textures pending requests camera
      | None => s
      end
    else s.
Proof.
  rewrite updateLOD_scene.
  rewrite (updateLOD_entry_eval _ key0 (record0 isLoaded isHigh) (sprite0 texture)
             (-5, 15, -5)) by reflexivity.
  cbv zeta. simpl.
  destruct (_ && _); [destruct (decide _); reflexivity|].
  destruct (_ && _); [|reflexivity].
  destruct (textures !! "a.jpg"); reflexivity.
Qed.

(** *** The warm-up load succeeds, then the camera comes close *)

Definition loadedStandard : State :=
  scene (StandardTexture "a.jpg") (record0 true false)
        (<["a.jpg" := StandardTexture "a.jpg"]> ∅) afterWarmup [] home.

Definition closeUp : State :=
  scene (StandardTexture "a.jpg") (record0 true false)
        (<["a.jpg" := StandardTexture "a.jpg"]> ∅) afterWarmup [] near.

Definition closeUpUpdated : State :=
  scene (StandardTexture "a.jpg") (record0 true false)
        (<["a.jpg" := StandardTexture "a.jpg"]> ∅)
        (afterWarmup ∪ {[hqKey "a.jpg"]})
        [HighFetch key0 "a.jpg" 0] near.

Lemma loadedStandard_reachable : reachable posterMap loadedStandard.
Proof.
  apply (reach_step _ laidOut); [apply reach_layout|].
  replace loadedStandard
    with (onStandardLoaded "a.jpg" key0 0 (set_loads (delete 0%nat (loads laidOut)) laidOut))
    by (rewrite laidOut_eq; reflexivity).
  apply step_standard_loaded. rewrite laidOut_eq. reflexivity.
Qed.

Lemma closeUp_reachable : reachable posterMap closeUp.
Proof.
  apply (reach_step _ loadedStandard); [apply loadedStandard_reachable|].
  apply (step_camera loadedStandard near).
Qed.

Lemma closeUp_updated : updateLOD closeUp = closeUpUpdated.
Proof.
  unfold closeUp. rewrite updateLOD_scene_eval. cbv zeta.
  rewrite distance_near.
  replace (Rltb 0 LOD_DISTANCE) with true
    by (symmetry; apply Rltb_true; unfold LOD_DISTANCE; lra).
  simpl. destruct (decide _) as [Hin|_]; [|reflexivity].
  exfalso. exact (hq_not_pending Hin).
Qed.

Lemma closeUpUpdated_reachable : reachable posterMap closeUpUpdated.
Proof.
  rewrite <- closeUp_updated.
  apply (reach_step _ closeUp); [apply closeUp_reachable|apply step_updateLOD].
Qed.



(** *** The warm-up load fails, the high-tier load succeeds, the camera leaves *)









(** *** The theorems above on this scene *)


Lemma confidence_filter_witness :
  imageData (filterImagesByConfidence (1 / 2) laidOut) = imageData laidOut /\
  (forall key d,
     In (key, d) (imageData laidOut) ->
     (isVisible (filterImagesByConfidence (1 / 2) laidOut) d = true <-> confidence d >= 1 / 2) /\
     exists sp,
       sprites laidOut !! sprite d = Some sp /\
       sprites (filterImagesByConfidence (1 / 2) laidOut) !! sprite d
       = Some (set_visible (Rgeb (confidence d) (1 / 2)) sp)) /\
  filterImagesByConfidence (1 / 2) (filterImagesByConfidence (1 / 2) laidOut)
  = filterImagesByConfidence (1 / 2) laidOut /\
  incl (visibleKeys (filterImagesByConfidence (1 / 2) (filterImagesByConfidence (3 / 10) laidOut)))
       (visibleKeys (filterImagesByConfidence (3 / 10) laidOut)) /\
  incl (visibleKeys (filterImagesByConfidence (1 / 2) laidOut))
       (visibleKeys (filterImagesByConfidence (3 / 10) (filterImagesByConfidence (1 / 2) laidOut))).
Proof.
  destruct (confidence_filter posterMap laidOut (1 / 2) (3 / 10) (1 / 2)
              (reach_layout posterMap)) as (Hkeep & Hiff & Hidem & Hmono).
  split; [exact Hkeep|]. split; [exact Hiff|]. split; [exact Hidem|]. apply Hmono. lra.
Defined.

Lemma placeholder_never_restored_witness :
  material_map (sprite0 (StandardTexture "a.jpg")) <> placeholderTexture.
Proof.
  apply (placeholder_never_restored posterMap loadedStandard closeUpUpdated 0
           (sprite0 (StandardTexture "a.jpg")) (sprite0 (StandardTexture "a.jpg"))).
  - apply loadedStandard_reachable.
  - rewrite <- closeUp_updated.
    apply (steps_step _ closeUp); [|apply step_updateLOD].
    apply (steps_step _ loadedStandard); [apply steps_refl|].
    apply (step_camera loadedStandard near).
  - reflexivity.
  - discriminate.
  - reflexivity.
Defined.

Lemma click_rebuilds_stored_key_witness : click_resolves laidOut 0.
Proof.
  apply (proj2 (click_rebuilds_stored_key posterMap laidOut "poster"
                  (mkGroup [0%nat] "poster" 1) 0)).
  - apply reach_layout.
  - rewrite laidOut_eq. left. reflexivity.
  - left. reflexivity.
Defined.

End Scenario.

(* ===================================================================== *)
(** * More on the classification pipeline *)
(* ===================================================================== *)

Module PipelineMore.
Import Pipeline PipelineFacts.

(** ** Counting the bucket entries *)

Definition totalEntries (m : CategoriesMap) : nat :=
  fold_right (fun e n => length (snd e) + n) 0 m.

(** The image classified with at least one result. *)
Definition isClassified (env : nat -> Outcome) (i : nat) : bool :=
  match env i with
  | Classified (_ :: _) => true
  | _ => false
  end.

Definition classifiedCount (env : nat -> Outcome) (l : list nat) : nat :=
  length (List.filter (isClassified env) l).

Lemma push_category_total category entry m :
  totalEntries (push_category category entry m) = S (totalEntries m).
Proof.
  induction m as [|[k b] m IH]; simpl; [reflexivity|].
  destruct (String.eqb k category); simpl.
  - rewrite length_app. simpl. lia.
  - rewrite IH. lia.
Qed.

Lemma push_category_keys category entry m k :
  In k (map fst (push_category category entry m)) -> k = category \/ In k (map fst m).
Proof.
  induction m as [|[k0 b] m IH]; simpl.
  - intros [<-|[]]. now left.
  - destruct (String.eqb_spec k0 category) as [->|Hne]; simpl.
    + intros [<-|Hin]; auto.
    + intros [<-|Hin]; auto. destruct (IH Hin); auto.
Qed.

Lemma push_category_NoDup category entry m :
  List.NoDup (map fst m) -> List.NoDup (map fst (push_category category entry m)).
Proof.
  induction m as [|[k b] m IH]; simpl; intros Hnd.
  - constructor; [tauto|constructor].
  - inversion Hnd as [|? ? Hnot Hnd']; subst.
    destruct (String.eqb_spec k category) as [->|Hne]; simpl.
    + now constructor.
    + constructor; [|auto]. intros Hin.
      apply push_category_keys in Hin. destruct Hin; [congruence|contradiction].
Qed.

Lemma push_category_nonempty category entry m :
  Forall (fun e => snd e <> []) m ->
  Forall (fun e => snd e <> []) (push_category category entry m).
Proof.
  induction m as [|[k b] m IH]; simpl; intros Hall.
  - constructor; [discriminate|constructor].
  - inversion Hall as [|? ? Hb Hall']; subst.
    destruct (String.eqb k category); constructor; auto.
    simpl. destruct b; discriminate.
Qed.

Lemma bucket_totals (env : nat -> Outcome) (files : list string) (s : Pipeline) :
  reachable env files s ->
  List.NoDup (map fst (categoriesMap s)) /\
  Forall (fun e => snd e <> []) (categoriesMap s) /\
  totalEntries (categoriesMap s) = classifiedCount env (resolved s).
Proof.
  induction 1 as [|s s' Hreach IH Hstep]; [repeat split; constructor|].
  destruct IH as (Hnd & Hne & Hcount).
  destruct Hstep as [s i Hph Hin Hnew Henv
                    | s i file results Hph Hin Hnew Henv Hres Hnth
                    | s Hph Hall
                    | s Hph]; simpl; auto.
  - repeat split; auto. unfold classifiedCount, isClassified. simpl.
    rewrite Henv. exact Hcount.
  - destruct (stores_inv results Hres) as (l & c & rest & E & Hown).
    rewrite E in *. rewrite (onclassified_stores _ _ _ _ _ _ Hown). simpl.
    split; [now apply push_category_NoDup|].
    split; [now apply push_category_nonempty|].
    rewrite push_category_total. unfold classifiedCount, isClassified. simpl.
    rewrite Henv. simpl. now rewrite Hcount.
Qed.

(** X1.  In every state of the pipeline the labels of [categoriesMap] are
    pairwise different, no bucket is empty, and the buckets together hold one
    entry for each image whose promise was resolved after a classification:
    images that failed to load are counted in no bucket, and no image is
    counted twice. *)
Theorem buckets_count_classified (env : nat -> Outcome) (files : list string)
    (s : Pipeline) :
  reachable env files s ->
  List.NoDup (map fst (categoriesMap s)) /\
  Forall (fun e => snd e <> []) (categoriesMap s) /\
  totalEntries (categoriesMap s) = classifiedCount env (resolved s) /\
  totalEntries (categoriesMap s) <= completed s /\
  completed s <= length files.
Proof.
  intros Hreach.
  destruct (bucket_totals env files s Hreach) as (Hnd & Hne & Hcount). repeat split; auto.
  - rewrite Hcount. unfold classifiedCount, completed. apply List.filter_length_le.
  - destruct (reachable_inv env files s Hreach) as [Hf Hs He Hb Hbd Hndr Ho Hp Ht Hr].
    unfold completed. rewrite <- (length_seq (length files) 0).
    apply NoDup_incl_length; [exact Hndr|].
    intros i Hi. apply in_seq. apply Hbd in Hi. lia.
Qed.

Lemma filter_length_perm {A : Type} (f : A -> bool) (l l' : list A) :
  Permutation.Permutation l l' -> length (List.filter f l) = length (List.filter f l').
Proof.
  induction 1 as [|a l l' _ IH|a b l|l l' l'' _ IH1 _ IH2]; simpl.
  - reflexivity.
  - destruct (f a); simpl; now rewrite IH.
  - destruct (f a), (f b); reflexivity.
  - congruence.
Qed.

Lemma ready_totals (env : nat -> Outcome) (files : list string) (s : Pipeline) :
  reachable env files s -> phase s = Ready ->
  totalEntries (categoriesMap s) = classifiedCount env (seq 0 (length files)).
Proof.
  intros Hreach Hph.
  destruct (bucket_totals env files s Hreach) as (_ & _ & Hcount).
  destruct (reachable_inv env files s Hreach) as [Hf Hs He Hb Hbd Hnd Ho Hp Ht Hr].
  destruct (Hr Hph) as [Hlen Hall].
  rewrite Hcount. unfold classifiedCount.
  apply filter_length_perm.
  apply Permutation.NoDup_Permutation; [exact Hnd|apply seq_NoDup|].
  intros i. rewrite in_seq. split.
  - intros Hi. apply Hbd in Hi. lia.
  - intros Hi. destruct (Nat.lt_ge_cases i (startIndex s)); [auto|].
    apply Hall. unfold inBatch. lia.
Qed.

(** X2.  Every entry of a bucket comes from an image of the manifest whose
    classification was resolved with the label of the bucket on top, and
    records the name of that image and the confidence of that prediction: an
    image that failed to load is in no bucket. *)
Theorem bucket_entries_classified (env : nat -> Outcome) (files : list string)
    (s : Pipeline) (label : string) (bucket : list Image.t) (img : Image.t) :
  reachable env files s ->
  In (label, bucket) (categoriesMap s) -> In img bucket ->
  exists i conf rest,
    In i (resolved s) /\ env i = Classified ((label, conf) :: rest) /\
    nth_error files i = Some (Image.filename img) /\ Image.confidence img = conf.
Proof. intros Hreach. now apply bucket_provenance. Qed.


(** ** A manifest of two images: one is classified, one cannot be read *)

Definition twoFiles : list string := ["a.jpg"; "b.jpg"].

Definition oneClassified : nat -> Outcome :=
  fun i => match i with
           | O => Classified [("poster", (1 / 2)%R)]
           | S _ => LoadError
           end.

Definition bothSettled : Pipeline :=
  onerror 1 (onclassified 0 "a.jpg" [("poster", (1 / 2)%R)]
               (processImagesInBatches twoFiles 0 [] [])).

Lemma bothSettled_reachable : reachable oneClassified twoFiles bothSettled.
Proof.
  unfold bothSettled.
  eapply reach_step;
    [|apply step_onerror;
        [reflexivity | unfold inBatch; simpl; lia | simpl; lia | reflexivity]].
  eapply reach_step; [apply reach_init|].
  apply step_classified;
    [reflexivity | unfold inBatch; simpl; lia | simpl; tauto | reflexivity
     | reflexivity | reflexivity].
Qed.

Lemma bothSettled_ready : reachable oneClassified twoFiles (onAllSettled bothSettled).
Proof.
  eapply reach_step; [apply bothSettled_reachable|].
  apply step_all; [reflexivity|].
  intros i [_ Hi]. simpl in *. lia.
Qed.

Lemma buckets_count_classified_witness :
  List.NoDup (map fst (categoriesMap bothSettled)) /\
  Forall (fun e => snd e <> []) (categoriesMap bothSettled) /\
  totalEntries (categoriesMap bothSettled) = classifiedCount oneClassified (resolved bothSettled) /\
  totalEntries (categoriesMap bothSettled) <= completed bothSettled /\
  completed bothSettled <= length twoFiles.
Proof.
  apply (buckets_count_classified oneClassified twoFiles bothSettled).
  exact bothSettled_reachable.
Defined.

Lemma bucket_entries_classified_witness :
  exists i conf rest,
    In i (resolved bothSettled) /\
    oneClassified i = Classified (("poster", conf) :: rest) /\
    nth_error twoFiles i = Some (Image.filename (Image.mk "a.jpg" (1 / 2)%R)) /\
    Image.confidence (Image.mk "a.jpg" (1 / 2)%R) = conf.
Proof.
  apply (bucket_entries_classified oneClassified twoFiles bothSettled
           "poster" [Image.mk "a.jpg" (1 / 2)%R]).
  - exact bothSettled_reachable.
  - left. reflexivity.
  - left. reflexivity.
Defined.



(** ** A label that names an inherited property *)

Lemma push_category_own category entry (m : CategoriesMap) :
  JSObject.inherited category = false ->
  Forall (fun e => JSObject.inherited (fst e) = false) m ->
  Forall (fun e => JSObject.inherited (fst e) = false) (push_category category entry m).
Proof.
  intros Hown. induction m as [|[k b] m IH]; simpl; intros Hall.
  - constructor; [exact Hown|constructor].
  - inversion Hall as [|? ? Hk Hall']; subst.
    destruct (String.eqb k category); constructor; auto.
Qed.

Lemma labels_own (env : nat -> Outcome) (files : list string) (s : Pipeline) :
  reachable env files s ->
  Forall (fun e => JSObject.inherited (fst e) = false) (categoriesMap s).
Proof.
  induction 1 as [|s s' Hreach IH Hstep]; [constructor|].
  destruct Hstep as [s i Hph Hin Hnew Henv
                    | s i file results Hph Hin Hnew Henv Hres Hnth
                    | s Hph Hall
                    | s Hph]; simpl; auto.
  destruct (stores_inv results Hres) as (l & c & rest & E & Hown).
  rewrite E in *. rewrite (onclassified_stores _ _ _ _ _ _ Hown). simpl.
  now apply push_category_own.
Qed.

Lemma categoryMap_own (env : nat -> Outcome) (files : list string) (s : Pipeline) :
  reachable env files s ->
  Forall (fun e => JSObject.inherited (fst e) = false) (categoryMap s).
Proof.
  intros Hreach. pose proof (labels_own env files s Hreach) as Hall.
  rewrite List.Forall_forall in *. intros e He. apply Hall.
  now apply JSObjectFacts.Object_entries_In.
Qed.

(** X30.  An image whose classification comes back with no result, or with
    a first label that names a property every object inherits from
    [Object.prototype], is stored in no bucket and its promise is never
    resolved: the pipeline never reaches the call of [createParticleGroups],
    it does not get past the batch of that image, and no bucket ever has such
    a name, in [categoriesMap] or in the [Map] made of it. *)
Theorem inherited_label_blocks_pipeline (env : nat -> Outcome) (files : list string)
    (s : Pipeline) (i : nat) (r : list (string * R)) :
  reachable env files s -> i < length files ->
  env i = Classified r -> stores r = false ->
  ~ In i (resolved s) /\ phase s <> Ready /\ startIndex s <= i /\
  Forall (fun e => JSObject.inherited (fst e) = false) (categoriesMap s) /\
  Forall (fun e => JSObject.inherited (fst e) = false) (categoryMap s).
Proof.
  intros Hreach Hi Henv Hst.
  destruct (reachable_inv env files s Hreach) as [Hf Hs He Hb Hbd Hnd Ho Hp Ht Hr].
  assert (Hnot : ~ In i (resolved s)).
  { intros Hin. destruct (Ho i Hin) as [E|(r' & E & Hst')]; [congruence|].
    rewrite Henv in E. injection E as <-. congruence. }
  assert (Hlo : startIndex s <= i).
  { destruct (Nat.lt_ge_cases i (startIndex s)) as [Hlt|Hge]; [|exact Hge].
    exfalso. apply Hnot. now apply Hb. }
  split; [exact Hnot|].
  split; [|split; [exact Hlo|split; [now apply (labels_own env files)|]]].
  - intros Hph. destruct (Hr Hph) as [Hlen Hall].
    apply Hnot, Hall. unfold inBatch. lia.
  - now apply (categoryMap_own env files).
Qed.

Definition constructorLabelled : nat -> Outcome :=
  fun _ => Classified [("constructor", (9 / 10)%R)].

Lemma inherited_label_blocks_pipeline_witness :
  ~ In 0 (resolved (processImagesInBatches ["a.jpg"] 0 [] [])) /\
  phase (processImagesInBatches ["a.jpg"] 0 [] []) <> Ready /\
  startIndex (processImagesInBatches ["a.jpg"] 0 [] []) <= 0 /\
  Forall (fun e => JSObject.inherited (fst e) = false)
         (categoriesMap (processImagesInBatches ["a.jpg"] 0 [] [])) /\
  Forall (fun e => JSObject.inherited (fst e) = false)
         (categoryMap (processImagesInBatches ["a.jpg"] 0 [] [])).
Proof.
  apply (inherited_label_blocks_pipeline constructorLabelled ["a.jpg"]
           (processImagesInBatches ["a.jpg"] 0 [] []) 0 [("constructor", (9 / 10)%R)]).
  - apply reach_init.
  - simpl. lia.
  - reflexivity.
  - reflexivity.
Defined.

(** ** The empty manifest *)

(** X4.  With an empty manifest the pipeline has two states: the one in
    which the empty batch was launched, where the indicator shows NaN, and the
    one in which [createParticleGroups] was called with an empty map; no
    classification outcome is ever consulted. *)
Theorem empty_manifest (env : nat -> Outcome) (s : Pipeline) :
  reachable env [] s ->
  (s = processImagesInBatches [] 0 [] [] \/
   s = onAllSettled (processImagesInBatches [] 0 [] [])) /\
  progress s = None /\ categoriesMap s = [] /\ resolved s = [] /\
  reachable env [] (onAllSettled (processImagesInBatches [] 0 [] [])) /\
  phase (onAllSettled (processImagesInBatches [] 0 [] [])) = Ready.
Proof.
  intros Hreach.
  assert (Hlast : reachable env [] (onAllSettled (processImagesInBatches [] 0 [] []))).
  { eapply reach_step; [apply reach_init|]. apply step_all; [reflexivity|].
    intros i [_ Hi]. simpl in Hi. lia. }
  assert (Hs : s = processImagesInBatches [] 0 [] [] \/
               s = onAllSettled (processImagesInBatches [] 0 [] [])).
  { induction Hreach as [|s s' _ IH Hstep]; [now left|].
    destruct IH as [-> | ->];
      inversion Hstep as [s0 i Hph Hin Hnew Henv
                         | s0 i file results Hph Hin Hnew Henv Hne Hnth
                         | s0 Hph Hall
                         | s0 Hph]; subst;
      try (unfold inBatch in Hin; simpl in Hin; lia);
      try discriminate.
    now right. }
  split; [exact Hs|]. destruct Hs as [-> | ->]; repeat split; auto.
Qed.

Lemma empty_manifest_witness :
  (processImagesInBatches [] 0 [] [] = processImagesInBatches [] 0 [] [] \/
   processImagesInBatches [] 0 [] [] = onAllSettled (processImagesInBatches [] 0 [] [])) /\
  progress (processImagesInBatches [] 0 [] []) = None /\
  categoriesMap (processImagesInBatches [] 0 [] []) = [] /\
  resolved (processImagesInBatches [] 0 [] []) = [] /\
  reachable rejecting [] (onAllSettled (processImagesInBatches [] 0 [] [])) /\
  phase (onAllSettled (processImagesInBatches [] 0 [] [])) = Ready.
Proof.
  apply (empty_manifest rejecting (processImagesInBatches [] 0 [] [])).
  apply reach_init.
Defined.

End PipelineMore.

(* ===================================================================== *)
(** * The progress indicator *)
(* ===================================================================== *)

Module ProgressFacts.
Import Pipeline PipelineFacts.

Lemma Zpos_of_nat_S n : Z.pos (Pos.of_nat (S n)) = Z.of_nat (S n).
Proof. rewrite <- Pos.of_nat_succ, Zpos_P_of_succ_nat, Nat2Z.inj_succ. reflexivity. Qed.

Lemma percent_between (q : Q) (lo hi : Z) :
  (0 <= lo)%Z -> (hi <= 1)%Z ->
  (inject_Z lo <= q <= inject_Z hi)%Q ->
  (inject_Z (lo * 100) <= Binary64.binary64 (Binary64.binary64 q * 100)
   <= inject_Z (hi * 100))%Q.
Proof.
  intros Hlo Hhi Hq.
  apply Binary64Facts.binary64_between; [lia | lia |].
  destruct (Binary64Facts.binary64_between q lo hi Hlo ltac:(lia) Hq) as [H1 H2].
  rewrite !inject_Z_mult. split.
  - apply Qmult_le_compat_r; [exact H1|discriminate].
  - apply Qmult_le_compat_r; [exact H2|discriminate].
Qed.

Lemma percentComplete_bounds e len :
  e <= len -> 0 < len ->
  exists p, percentComplete e len = Some p /\ (0 <= p <= 100)%Z /\ (e = len -> p = 100%Z).
Proof.
  intros He Hlen. destruct len as [|n]; [lia|]. unfold percentComplete, Math_round.
  eexists. split; [reflexivity|].
  assert (Hq0 : (inject_Z 0 <= Z.of_nat e # Pos.of_nat (S n))%Q).
  { unfold Qle. simpl. lia. }
  assert (Hq1 : (Z.of_nat e # Pos.of_nat (S n) <= inject_Z 1)%Q).
  { unfold Qle. simpl Qnum. simpl Qden. rewrite Zpos_of_nat_S. lia. }
  destruct (percent_between _ 0 1 ltac:(lia) ltac:(lia) (conj Hq0 Hq1)) as [H0 H100].
  split; [split|].
  - change 0%Z with (Qfloor (inject_Z (0 * 100) + (1 # 2))). apply Qfloor_resp_le.
    apply Qplus_le_l. exact H0.
  - change 100%Z with (Qfloor (inject_Z (1 * 100) + (1 # 2))). apply Qfloor_resp_le.
    apply Qplus_le_l. exact H100.
  - intros ->.
    assert (Hq2 : (inject_Z 1 <= Z.of_nat (S n) # Pos.of_nat (S n))%Q).
    { unfold Qle. simpl Qnum. simpl Qden. rewrite Zpos_of_nat_S. lia. }
    destruct (percent_between _ 1 1 ltac:(lia) ltac:(lia) (conj Hq2 Hq1)) as [Hlo Hhi].
    change 100%Z with (Qfloor (inject_Z (1 * 100) + (1 # 2))).
    apply Qfloor_comp. apply Qplus_comp; [|reflexivity].
    apply Qle_antisym; assumption.
Qed.

(** The rounding of the quotient decides the number shown: with 230 of 400
    images launched the indicator shows 57, whereas the exact quotient, 57.5,
    would be rounded to 58; likewise at 290, 570 and 1130 of 2000. *)
Lemma percentComplete_rounds_double :
  percentComplete 230 400 = Some 57%Z /\ Math_round ((230 # 400) * 100) = 58%Z /\
  percentComplete 290 2000 = Some 14%Z /\ Math_round ((290 # 2000) * 100) = 15%Z /\
  percentComplete 570 2000 = Some 28%Z /\ Math_round ((570 # 2000) * 100) = 29%Z /\
  percentComplete 1130 2000 = Some 56%Z /\ Math_round ((1130 # 2000) * 100) = 57%Z.
Proof. repeat split; vm_compute; reflexivity. Qed.

(** X5.  For a manifest that is not empty the indicator shows a whole
    number between 0 and 100, and it shows 100 from the moment the last batch
    is launched, before any image of that batch has settled: with at most
    [BATCH_SIZE] images it shows 100 from the start. *)
Theorem progress_full_at_last_launch (env : nat -> Outcome) (files : list string)
    (s : Pipeline) :
  reachable env files s -> files <> [] ->
  exists p,
    progress s = Some p /\ (0 <= p <= 100)%Z /\
    (endIndex s = length files -> p = 100%Z) /\
    (length files <= BATCH_SIZE -> p = 100%Z).
Proof.
  intros Hreach Hne.
  destruct (reachable_inv env files s Hreach) as [Hf Hs He Hb Hbd Hnd Ho Hp Ht Hr].
  assert (Hlen : 0 < length files) by (destruct files; [congruence|simpl; lia]).
  destruct (percentComplete_bounds (endIndex s) (length files)) as (p & Hpc & Hb01 & Hfull);
    [lia|exact Hlen|].
  exists p. rewrite Hp. split; [exact Hpc|]. split; [exact Hb01|]. split; [exact Hfull|].
  intros Hsmall. apply Hfull. unfold BATCH_SIZE in *. lia.
Qed.

Lemma progress_full_at_last_launch_witness :
  exists p,
    progress (processImagesInBatches PipelineMore.twoFiles 0 [] []) = Some p /\
    (0 <= p <= 100)%Z /\
    (endIndex (processImagesInBatches PipelineMore.twoFiles 0 [] [])
     = length PipelineMore.twoFiles -> p = 100%Z) /\
    (length PipelineMore.twoFiles <= BATCH_SIZE -> p = 100%Z).
Proof.
  apply (progress_full_at_last_launch PipelineMore.oneClassified PipelineMore.twoFiles).
  - apply reach_init.
  - discriminate.
Defined.

End ProgressFacts.

(* ===================================================================== *)
(** * The manifest: [loadAndProcessImages] *)
(* ===================================================================== *)

Module Manifest.

Definition LF : ascii := "010"%char.
Definition CR : ascii := "013"%char.

(** [s.split(sep)] for a separator of one character. *)
Fixpoint split (sep : ascii) (s : string) : list string :=
  match s with
  | EmptyString => [EmptyString]
  | String c s' =>
      if Ascii.eqb c sep then EmptyString :: split sep s'
      else match split sep s' with
           | [] => [String c EmptyString]
           | w :: ws => String c w :: ws
           end
  end.

(** [s.endsWith(suffix)]: some tail of [s] is [suffix]. *)
Fixpoint endsWith (s suffix : string) : bool :=
  String.eqb s suffix ||
  match s with
  | EmptyString => false
  | String _ s' => endsWith s' suffix
  end.

(** [text.split('\n').filter(file => file.endsWith('.jpg'))] *)
Definition imageFiles (text : string) : list string :=
  List.filter (fun file => endsWith file ".jpg") (split LF text).

(** [lines.join(sep)] *)
Definition join (sep : string) (lines : list string) : string := String.concat sep lines.

Fixpoint contains (c : ascii) (s : string) : bool :=
  match s with
  | EmptyString => false
  | String d s' => Ascii.eqb d c || contains c s'
  end.

End Manifest.

Module ManifestFacts.
Import Manifest.

Lemma endsWith_spec s suffix :
  endsWith s suffix = true <-> exists p, s = (p ++ suffix)%string.
Proof.
  induction s as [|c s IH]; cbn [endsWith].
  - rewrite orb_false_r, String.eqb_eq. split.
    + intros <-. now exists EmptyString.
    + intros ([|d p] & Hp); simpl in Hp; [auto|discriminate].
  - rewrite orb_true_iff, String.eqb_eq, IH. split.
    + intros [<- | (p & ->)]; [now exists EmptyString|now exists (String c p)].
    + intros ([|d p] & Hp); simpl in Hp; [now left|].
      injection Hp as -> ->. right. now exists p.
Qed.

Lemma split_nonempty sep s : split sep s <> [].
Proof.
  destruct s as [|c s]; simpl; [discriminate|].
  destruct (Ascii.eqb c sep); [discriminate|].
  destruct (split sep s); discriminate.
Qed.

Lemma split_free sep a : contains sep a = false -> split sep a = [a].
Proof.
  induction a as [|c a IH]; simpl; [reflexivity|].
  intros Hc. apply orb_false_iff in Hc. destruct Hc as [Hc Ha].
  rewrite Hc, (IH Ha). reflexivity.
Qed.

Lemma split_app sep a b :
  contains sep a = false ->
  split sep (a ++ String sep b) = a :: split sep b.
Proof.
  induction a as [|c a IH]; simpl.
  - intros _. now rewrite Ascii.eqb_refl.
  - intros Hc. apply orb_false_iff in Hc. destruct Hc as [Hc Ha].
    rewrite Hc, (IH Ha). reflexivity.
Qed.

Lemma join_cons sep l l' lines :
  join sep (l :: l' :: lines) = (l ++ sep ++ join sep (l' :: lines))%string.
Proof. reflexivity. Qed.

Lemma split_join sep lines :
  lines <> [] -> Forall (fun l => contains sep l = false) lines ->
  split sep (join (String sep EmptyString) lines) = lines.
Proof.
  induction lines as [|l lines IH]; [congruence|].
  intros _ Hall. inversion Hall as [|? ? Hl Hrest]; subst.
  destruct lines as [|l' lines].
  - now apply split_free.
  - rewrite join_cons.
    change (String sep "" ++ join (String sep "") (l' :: lines))%string
      with (String sep (join (String sep "") (l' :: lines))).
    rewrite split_app by exact Hl. f_equal. apply IH; [discriminate|exact Hrest].
Qed.

Lemma contains_app c a b : contains c (a ++ b)%string = contains c a || contains c b.
Proof.
  induction a as [|d a IH]; simpl; [reflexivity|]. now rewrite IH, orb_assoc.
Qed.

Lemma append_last p q (c d : ascii) :
  (p ++ String c EmptyString = q ++ String d EmptyString)%string -> c = d.
Proof.
  revert q. induction p as [|a p IH]; intros [|b q] E; simpl in E.
  - now injection E.
  - injection E as _ E. destruct q; discriminate.
  - injection E as _ E. destruct p; discriminate.
  - injection E as _ E. eauto.
Qed.

Lemma append_assoc (a b c : string) : ((a ++ b) ++ c = a ++ (b ++ c))%string.
Proof.
  induction a as [|x a IH]; [reflexivity|].
  change (String x ((a ++ b) ++ c) = String x (a ++ (b ++ c)))%string. now f_equal.
Qed.

(** A name followed by a carriage return is not taken for a JPEG. *)
Lemma endsWith_CR l : endsWith (l ++ String CR EmptyString) ".jpg" = false.
Proof.
  destruct (endsWith (l ++ String CR EmptyString) ".jpg") eqn:E; [|reflexivity].
  apply endsWith_spec in E. destruct E as (p & E).
  change ".jpg" with (".jp" ++ String "g"%char EmptyString)%string in E.
  rewrite <- append_assoc in E. apply append_last in E. discriminate.
Qed.

(** X6.  A manifest made of lines joined by line feeds yields the lines
    that end in [.jpg], in their order: every other line, and the empty line
    after a final line feed, is dropped. *)
Theorem imageFiles_join (lines : list string) :
  Forall (fun l => contains LF l = false) lines ->
  imageFiles (join (String LF EmptyString) lines)
  = List.filter (fun file => endsWith file ".jpg") lines.
Proof.
  intros Hall. unfold imageFiles.
  destruct lines as [|l lines]; [reflexivity|].
  rewrite split_join; [reflexivity|discriminate|exact Hall].
Qed.

Lemma imageFiles_join_witness :
  imageFiles (join (String LF EmptyString) ["a.jpg"; "notes.txt"; "b.jpg"; ""])
  = ["a.jpg"; "b.jpg"].
Proof.
  apply (imageFiles_join ["a.jpg"; "notes.txt"; "b.jpg"; ""]).
  repeat constructor.
Defined.

Lemma split_join_CRLF lines l :
  Forall (fun l => contains LF l = false) (lines ++ [l]) ->
  split LF (join (String CR (String LF EmptyString)) (lines ++ [l]))
  = map (fun x => (x ++ String CR EmptyString)%string) lines ++ [l].
Proof.
  induction lines as [|a lines IH]; intros Hall.
  - inversion Hall; subst. now apply split_free.
  - inversion Hall as [|? ? Ha Hrest]; subst.
    change ((a :: lines) ++ [l]) with (a :: (lines ++ [l])).
    destruct (lines ++ [l]) as [|b rest] eqn:E; [now destruct lines|].
    rewrite join_cons.
    change (a ++ String CR (String LF EmptyString) ++ join (String CR (String LF EmptyString)) (b :: rest))%string
      with (a ++ (String CR EmptyString ++ String LF (join (String CR (String LF EmptyString)) (b :: rest))))%string.
    rewrite <- append_assoc, split_app.
    + simpl. f_equal. apply IH. exact Hrest.
    + rewrite contains_app, Ha. reflexivity.
Qed.

(** X7.  Of a manifest whose lines are separated by carriage return and
    line feed, only the last line can be taken for an image: every earlier
    name keeps its carriage return and fails the [.jpg] test. *)
Theorem imageFiles_CRLF (lines : list string) (l : string) :
  Forall (fun l => contains LF l = false) (lines ++ [l]) ->
  imageFiles (join (String CR (String LF EmptyString)) (lines ++ [l]))
  = if endsWith l ".jpg" then [l] else [].
Proof.
  intros Hall. unfold imageFiles. rewrite split_join_CRLF by exact Hall.
  rewrite List.filter_app. simpl.
  replace (List.filter (fun file => endsWith file ".jpg")
             (map (fun x => (x ++ String CR EmptyString)%string) lines)) with (@nil string).
  - reflexivity.
  - clear Hall. induction lines as [|a lines IH]; simpl; [reflexivity|].
    now rewrite endsWith_CR.
Qed.

Lemma imageFiles_CRLF_witness :
  imageFiles (join (String CR (String LF EmptyString)) (["a.jpg"; "b.jpg"] ++ ["c.jpg"]))
  = ["c.jpg"].
Proof.
  apply (imageFiles_CRLF ["a.jpg"; "b.jpg"] "c.jpg").
  repeat constructor.
Defined.

End ManifestFacts.

(* ===================================================================== *)
(** * More on the layout *)
(* ===================================================================== *)

From Stdlib Require Import Sorted.

Module LayoutMore.
Import Viz LayoutFacts SceneFacts.
Local Open Scope R_scope.

(** ** The sort of the categories *)

Definition hasCount (n : nat) (c : string * list Image.t) : bool := (count c =? n)%nat.

Lemma insert_by_count_sorted c l :
  StronglySorted (fun a b => (count b <= count a)%nat) l ->
  StronglySorted (fun a b => (count b <= count a)%nat) (insert_by_count c l).
Proof.
  induction 1 as [|d l Hs IH Hd]; simpl.
  - constructor; constructor.
  - destruct (length (snd d) <=? length (snd c))%nat eqn:Hle.
    + apply Nat.leb_le in Hle. constructor; [now constructor|].
      constructor; [exact Hle|].
      rewrite List.Forall_forall in *. intros x Hx. specialize (Hd x Hx).
      unfold count in *. lia.
    + apply Nat.leb_gt in Hle. constructor; [exact IH|].
      apply List.Forall_forall. intros x Hx.
      apply (Permutation.Permutation_in _
               (Permutation.Permutation_sym (insert_by_count_perm c l))) in Hx.
      destruct Hx as [<-|Hx]; [unfold count; lia|].
      rewrite List.Forall_forall in Hd. now apply Hd.
Qed.

Lemma insert_by_count_stable n c l :
  List.filter (hasCount n) (insert_by_count c l) = List.filter (hasCount n) (c :: l).
Proof.
  induction l as [|d l IH]; [reflexivity|].
  cbn [insert_by_count].
  destruct (length (snd d) <=? length (snd c))%nat eqn:Hle; [reflexivity|].
  apply Nat.leb_gt in Hle.
  cbn [List.filter] in *. rewrite IH. unfold hasCount, count.
  destruct (length (snd c) =? n)%nat eqn:Ec, (length (snd d) =? n)%nat eqn:Ed;
    try reflexivity.
  apply Nat.eqb_eq in Ec, Ed. lia.
Qed.

(** X8.  The sort of the categories returns a rearrangement of its input
    in which the member counts never increase, and categories with the same
    member count keep the order they had in the input. *)
Theorem sort_by_count_spec (m : CategoriesMap) :
  Permutation.Permutation m (sort_by_count m) /\
  StronglySorted (fun a b => (count b <= count a)%nat) (sort_by_count m) /\
  forall n, List.filter (hasCount n) (sort_by_count m) = List.filter (hasCount n) m.
Proof.
  split; [apply sort_by_count_perm|]. split.
  - induction m as [|c m IH]; simpl; [constructor|]. now apply insert_by_count_sorted.
  - intros n. induction m as [|c m IH]; [reflexivity|].
    cbn [sort_by_count fold_right]. fold (sort_by_count m).
    rewrite insert_by_count_stable. cbn [List.filter]. now rewrite IH.
Qed.

(** ** The sprites of a layout *)

(** What [gridSprites] lists, image by image. *)
Lemma gridSprites_In ax ay az cols len images : forall i sp,
  In sp (gridSprites ax ay az cols len images i) ->
  exists j img, (i <= j < i + length images)%nat /\ In img images /\
    sp = mkSprite (imagePosition ax ay az cols len (Image.confidence img) j)
                  true placeholderTexture 1.
Proof.
  induction images as [|img rest IH]; intros i sp; simpl; [tauto|].
  intros [<-|Hin].
  - exists i, img. split; [lia|]. auto.
  - destruct (IH (S i) sp Hin) as (j & img' & Hj & Himg & ->).
    exists j, img'. split; [lia|]. auto.
Qed.

(** The cell of image [i] lies in the square of side [cols * SPACING] around
    the anchor. *)
Lemma imagePosition_extent ax ay az len conf i :
  (i < len)%nat ->
  let cols := Nat.sqrt_up len in
  let '(x, y, z) := imagePosition ax ay az cols len conf i in
  ax - INR cols * SPACING / 2 <= x <= ax + INR cols * SPACING / 2 - SPACING /\
  az - INR cols * SPACING / 2 <= z <= az + INR cols * SPACING / 2 /\
  y = ay + conf * 30.
Proof.
  intros Hi. cbv zeta. unfold imagePosition, SPACING.
  set (cols := Nat.sqrt_up len).
  assert (Hcols : (0 < cols)%nat) by (apply Nat.sqrt_up_pos; lia).
  assert (Hsq : (len <= cols * cols)%nat) by (apply Nat.sqrt_up_spec; lia).
  assert (Hmod : (i mod cols < cols)%nat) by (apply Nat.mod_upper_bound; lia).
  assert (Hdiv : (i / cols <= len / cols)%nat) by (apply Nat.Div0.div_le_mono; lia).
  assert (Hf : (len / cols <= cols)%nat).
  { apply Nat.Div0.div_le_upper_bound. exact Hsq. }
  assert (H1 : INR (i mod cols) <= INR cols - 1).
  { replace 1 with (INR 1) by reflexivity. rewrite <- minus_INR by lia.
    apply le_INR. lia. }
  assert (H0 : 0 <= INR (i mod cols)) by apply pos_INR.
  assert (H2 : INR (i / cols) <= INR (len / cols)) by now apply le_INR.
  assert (H3 : INR (len / cols) <= INR cols) by now apply le_INR.
  assert (H4 : 0 <= INR (i / cols)) by apply pos_INR.
  repeat split; lra.
Qed.

(** X9.  The sprites that [placeCategory] adds for a category are one per
    image, they sit at pairwise different positions, and each of them lies
    within [cols * SPACING / 2] of the anchor along x and z, at the height
    [30 * confidence] of one of the images; the side [cols] of the grid is the
    least number whose square reaches the member count. *)
Theorem category_grid `{Runtime} (total : nat) (s : State) (k : nat) (category : string)
    (images : list Image.t) :
  let cols := Nat.sqrt_up (length images) in
  let '(ax, az) := getSpiralCoordinates k total in
  exists new,
    sprites (placeCategory total s k (category, images)) = sprites s ++ new /\
    length new = length images /\
    List.NoDup (map position new) /\
    (forall sp, In sp new ->
       let '(x, y, z) := position sp in
       Rabs (x - ax) <= INR cols * SPACING / 2 /\
       Rabs (z - az) <= INR cols * SPACING / 2 /\
       exists img, In img images /\ y = Image.confidence img * 30) /\
    (length images <= cols * cols)%nat /\
    (forall c, (length images <= c * c)%nat -> (cols <= c)%nat).
Proof.
  cbv zeta. pose proof (placeCategory_sprites total s k category images) as Hs.
  destruct (getSpiralCoordinates k total) as [ax az]. simpl in Hs.
  eexists. split; [exact Hs|]. split; [apply gridSprites_length|]. split; [|split; [|split]].
  - destruct images as [|img rest]; [constructor|].
    apply gridSprites_positions_NoDup. apply Nat.sqrt_up_pos. simpl. lia.
  - intros sp Hin. apply gridSprites_In in Hin.
    destruct Hin as (j & img & Hj & Himg & ->). simpl position.
    pose proof (imagePosition_extent ax 0 az (length images) (Image.confidence img) j
                  ltac:(lia)) as Hext.
    cbv zeta in Hext.
    destruct (imagePosition ax 0 az (Nat.sqrt_up (length images)) (length images)
                (Image.confidence img) j) as [[x y] z].
    destruct Hext as (Hx & Hz & Hy). unfold SPACING in *.
    split; [apply Rabs_le; lra|]. split; [apply Rabs_le; lra|].
    exists img. split; [exact Himg|lra].
  - apply Nat.sqrt_sqrt_up_spec. lia.
  - intros c Hc. apply Nat.sqrt_up_le_square; [lia|lia|exact Hc].
Qed.

(** The sprites of the categories [l], laid out from spiral index [k] on. *)
Fixpoint layoutSprites (total : nat) (l : CategoriesMap) (k : nat) : list Sprite :=
  match l with
  | [] => []
  | entry :: l' =>
      gridSprites (fst (getSpiralCoordinates k total)) 0 (snd (getSpiralCoordinates k total))
                  (Nat.sqrt_up (length (snd entry))) (length (snd entry)) (snd entry) 0
      ++ layoutSprites total l' (S k)
  end.

Lemma forEach_placeCategory_sprites `{Runtime} total l : forall k s,
  sprites (forEach_indexed (placeCategory total) l k s) = sprites s ++ layoutSprites total l k.
Proof.
  induction l as [|[category images] l IH]; intros k s; cbn [forEach_indexed layoutSprites].
  - now rewrite app_nil_r.
  - rewrite IH, placeCategory_sprites, <- app_assoc. reflexivity.
Qed.

Lemma layoutSprites_length total l : forall k,
  length (layoutSprites total l k) = PipelineMore.totalEntries l.
Proof.
  induction l as [|e l IH]; intros k; simpl; [reflexivity|].
  now rewrite length_app, gridSprites_length, IH.
Qed.

Lemma layoutSprites_fresh total l : forall k,
  Forall (fun sp => visible sp = true /\ material_map sp = placeholderTexture /\
                    material_opacity sp = 1) (layoutSprites total l k).
Proof.
  induction l as [|e l IH]; intros k; simpl; [constructor|].
  apply Forall_app. split; [|apply IH].
  apply List.Forall_forall. intros sp Hin. apply gridSprites_In in Hin.
  destruct Hin as (j & img & _ & _ & ->). auto.
Qed.

Lemma totalEntries_perm (l l' : CategoriesMap) :
  Permutation.Permutation l l' -> PipelineMore.totalEntries l = PipelineMore.totalEntries l'.
Proof. induction 1; simpl; lia. Qed.

Lemma createParticleGroups_sprites `{Runtime} (m : CategoriesMap) :
  sprites (createParticleGroups m initialState)
  = layoutSprites (length (sort_by_count m)) (sort_by_count m) 0.
Proof.
  unfold createParticleGroups, positionCameraForSpiralView. simpl.
  now rewrite forEach_placeCategory_sprites.
Qed.

Lemma createParticleGroups_length `{Runtime} (m : CategoriesMap) :
  length (sprites (createParticleGroups m initialState)) = PipelineMore.totalEntries m.
Proof.
  rewrite createParticleGroups_sprites, layoutSprites_length.
  symmetry. apply totalEntries_perm, sort_by_count_perm.
Qed.

(** X10.  After [createParticleGroups] the store holds, in order, the grids
    of the sorted categories: one sprite per bucket entry, each visible, fully
    opaque and showing the placeholder; no texture is cached and no preview is
    shown. *)
Theorem layout_sprites `{Runtime} (m : CategoriesMap) :
  let s := createParticleGroups m initialState in
  sprites s = layoutSprites (length (sort_by_count m)) (sort_by_count m) 0 /\
  length (sprites s) = PipelineMore.totalEntries m /\
  Forall (fun sp => visible sp = true /\ material_map sp = placeholderTexture /\
                    material_opacity sp = 1) (sprites s) /\
  highResTextures s = ∅ /\ imagePreview s = None.
Proof.
  cbv zeta. split; [apply createParticleGroups_sprites|].
  split; [apply createParticleGroups_length|].
  split; [rewrite createParticleGroups_sprites; apply layoutSprites_fresh|].
  split; [apply createParticleGroups_wf|].
  unfold createParticleGroups, positionCameraForSpiralView. simpl.
  apply (forEach_indexed_inv (fun s => imagePreview s = None)); [|reflexivity].
  intros s k [category images] Hs. unfold placeCategory.
  destruct (getSpiralCoordinates k _) as [ax az].
  pose proof (forEach_indexed_inv (fun acc : State * list nat => imagePreview (fst acc) = None)
                (placeImage category ax 0 az (Nat.sqrt_up (length images)) (length images)))
    as Hloop.
  specialize (Hloop ltac:(intros [s0 g] i a Ha; unfold placeImage;
                          destruct (decide _); exact Ha) images 0%nat (s, []) Hs).
  destruct (forEach_indexed _ images 0%nat (s, [])) as [s1 group]. exact Hloop.
Qed.

(** X11.  From the manifest to the scene: when the pipeline hands its
    buckets to [createParticleGroups], the scene gets exactly one sprite for
    each image of the manifest that loaded and was classified.  This holds
    for the buckets in the order of [Object.entries], in which the [Map] given
    to [createParticleGroups] is filled, and in the order of their creation. *)
Theorem sprites_count_manifest `{Runtime} (env : nat -> Pipeline.Outcome)
    (files : list string) (p : Pipeline.Pipeline) :
  Pipeline.reachable env files p -> Pipeline.phase p = Pipeline.Ready ->
  length (sprites (createParticleGroups (Pipeline.categoryMap p) initialState))
  = PipelineMore.classifiedCount env (seq 0 (length files)) /\
  length (sprites (createParticleGroups (Pipeline.categoriesMap p) initialState))
  = PipelineMore.classifiedCount env (seq 0 (length files)).
Proof.
  intros Hreach Hready. rewrite !createParticleGroups_length.
  unfold Pipeline.categoryMap.
  rewrite (totalEntries_perm _ _ (JSObjectFacts.Object_entries_perm (Pipeline.categoriesMap p))).
  split; now apply PipelineMore.ready_totals.
Qed.

Lemma sprites_count_manifest_witness :
  length (sprites (@createParticleGroups exampleRuntime
                     (Pipeline.categoryMap (Pipeline.onAllSettled PipelineMore.bothSettled))
                     initialState))
  = PipelineMore.classifiedCount PipelineMore.oneClassified
      (seq 0 (length PipelineMore.twoFiles)) /\
  length (sprites (@createParticleGroups exampleRuntime
                     (Pipeline.categoriesMap (Pipeline.onAllSettled PipelineMore.bothSettled))
                     initialState))
  = PipelineMore.classifiedCount PipelineMore.oneClassified
      (seq 0 (length PipelineMore.twoFiles)).
Proof.
  apply (@sprites_count_manifest exampleRuntime PipelineMore.oneClassified
           PipelineMore.twoFiles (Pipeline.onAllSettled PipelineMore.bothSettled)).
  - exact PipelineMore.bothSettled_ready.
  - reflexivity.
Defined.

End LayoutMore.

(* ===================================================================== *)
(** * More on the scene *)
(* ===================================================================== *)

Module KeyFacts.
Import Viz LayoutFacts SceneFacts Manifest ManifestFacts.
Local Open Scope R_scope.

Lemma split_comma_split s : split_comma s = split ","%char s.
Proof. induction s as [|c s IH]; simpl; [reflexivity|now rewrite IH]. Qed.

(** The runtime converts [x] to a string without a comma from which [Number]
    gives [x] back. *)
Definition converts `{Runtime} (x : R) : Prop :=
  contains ","%char (Number_toString x) = false /\ Number (Number_toString x) = x.

Definition convertible `{Runtime} (p : Vec3) : Prop :=
  let '(x, y, z) := p in converts x /\ converts y /\ converts z.

Lemma keyPosition_positionKey `{Runtime} (p : Vec3) :
  convertible p -> keyPosition (positionKey p) = Some p.
Proof.
  destruct p as [[x y] z]. intros ((Hx & Nx) & (Hy & Ny) & (Hz & Nz)).
  unfold keyPosition, positionKey. rewrite split_comma_split.
  change (Number_toString x ++ "," ++ Number_toString y ++ "," ++ Number_toString z)%string
    with (Number_toString x ++
          String ","%char (Number_toString y ++ String ","%char (Number_toString z)))%string.
  rewrite split_app by exact Hx. rewrite split_app by exact Hy.
  rewrite split_free by exact Hz. simpl. now rewrite Nx, Ny, Nz.
Qed.

(** X12.  Where the runtime converts the three coordinates of a position
    faithfully, the key built from the position parses back to it, two such
    positions with one key are equal, and in every state of the scene
    [updateLOD] measures the distance from the camera to the very place of the
    sprite of the record. *)
Theorem positionKey_roundtrip `{Runtime} (p : Vec3) :
  convertible p ->
  keyPosition (positionKey p) = Some p /\
  (forall q, convertible q -> positionKey q = positionKey p -> q = p) /\
  (forall categoriesMap s key d sp,
     reachable categoriesMap s -> In (key, d) (imageData s) ->
     sprites s !! sprite d = Some sp -> position sp = p ->
     keyPosition key = Some (position sp)).
Proof.
  intros Hp. split; [now apply keyPosition_positionKey|]. split.
  - intros q Hq E. apply keyPosition_positionKey in Hq, Hp. congruence.
  - intros categoriesMap s key d sp Hreach Hin Hsp Hpos.
    destruct (wf_entry_sprite s key d (reachable_wf _ _ Hreach) Hin) as (sp' & Hsp' & ->).
    rewrite Hsp in Hsp'. injection Hsp' as <-. rewrite Hpos.
    now apply keyPosition_positionKey.
Qed.

Lemma example_convertible : @convertible exampleRuntime (-5, 15, -5).
Proof.
  unfold convertible, converts. simpl.
  destruct (Req_dec_T (-5) (-5)) as [_|Hne]; [|lra].
  destruct (Req_dec_T 15 (-5)) as [Heq|_]; [lra|].
  destruct (Req_dec_T 15 15) as [_|Hne]; [|lra].
  simpl. repeat split; reflexivity.
Qed.

Lemma positionKey_roundtrip_witness :
  @keyPosition exampleRuntime (@positionKey exampleRuntime (-5, 15, -5))
  = Some (-5, 15, -5).
Proof.
  apply (@positionKey_roundtrip exampleRuntime (-5, 15, -5)).
  exact example_convertible.
Defined.

End KeyFacts.

(* ===================================================================== *)
(** * Requests in flight and the pending set *)
(* ===================================================================== *)

Module StreamFacts.
Import Viz SceneFacts.

(** The key under which a request is entered in [pendingTextures]. *)
Definition fetchKey (f : Fetch) : string :=
  match f with
  | StandardFetch file _ _ => file
  | HighFetch _ file _ => hqKey file
  end.

Definition inFlight (s : State) : list string := map fetchKey (loads s).

(** No key has two requests in flight, and the pending set holds exactly the
    keys of the requests in flight. *)
Definition deduplicated (s : State) : Prop :=
  List.NoDup (inFlight s) /\ forall k, k ∈ pendingTextures s <-> In k (inFlight s).

Lemma deduplicated_same s s' :
  loads s' = loads s -> pendingTextures s' = pendingTextures s ->
  deduplicated s -> deduplicated s'.
Proof. unfold deduplicated, inFlight. intros -> ->. auto. Qed.

Lemma deduplicated_request s f :
  deduplicated s -> fetchKey f ∉ pendingTextures s ->
  deduplicated (set_loads (loads s ++ [f])
                  (set_pendingTextures (pendingTextures s ∪ {[fetchKey f]}) s)).
Proof.
  intros [Hnd Hiff] Hnew. unfold deduplicated, inFlight in *. simpl.
  rewrite map_app. simpl. split.
  - apply List.NoDup_app; [exact Hnd|repeat constructor; simpl; tauto|].
    intros k Hk [<-|[]]. apply Hnew, Hiff, Hk.
  - intros k. rewrite elem_of_union, elem_of_singleton, List.in_app_iff, Hiff. simpl.
    intuition congruence.
Qed.

Lemma deduplicated_settled s s' n f :
  deduplicated s -> loads s !! n = Some f ->
  loads s' = delete n (loads s) ->
  pendingTextures s' = pendingTextures s ∖ {[fetchKey f]} ->
  deduplicated s'.
Proof.
  intros [Hnd Hiff] Hn Hl Hp. unfold deduplicated, inFlight in *.
  rewrite Hl, Hp. rewrite delete_take_drop.
  rewrite <- (take_drop_middle _ _ _ Hn) in Hnd, Hiff.
  rewrite map_app in Hnd, Hiff. simpl in Hnd, Hiff.
  apply List.NoDup_remove in Hnd. destruct Hnd as [Hnd Hnot].
  rewrite map_app. split; [exact Hnd|].
  intros k. rewrite elem_of_difference, elem_of_singleton, Hiff.
  rewrite !List.in_app_iff. simpl. rewrite List.in_app_iff in Hnot.
  split.
  - intros [[Hk|[Hk|Hk]] Hne]; auto. congruence.
  - intros Hk. split; [tauto|]. intros ->. tauto.
Qed.

Section Invariant.
Context `{Runtime}.

Lemma placeImage_deduplicated category ax ay az cols len acc i img :
  deduplicated (fst acc) ->
  deduplicated (fst (placeImage category ax ay az cols len acc i img)).
Proof.
  destruct acc as [s group]. simpl. intros Hd. unfold placeImage. cbv zeta.
  destruct (decide _) as [Hin|Hnot]; simpl fst.
  - revert Hd. now apply deduplicated_same.
  - simpl in Hnot.
    apply (deduplicated_request
             (set_imageData _ (set_sprites _ s))
             (StandardFetch (Image.filename img) _ _)); [|exact Hnot].
    revert Hd. now apply deduplicated_same.
Qed.

Lemma placeCategory_deduplicated total s k entry :
  deduplicated s -> deduplicated (placeCategory total s k entry).
Proof.
  intros Hd. destruct entry as [category images]. unfold placeCategory.
  destruct (getSpiralCoordinates k total) as [ax az].
  pose proof (forEach_indexed_inv (fun acc : State * list nat => deduplicated (fst acc))
                (placeImage category ax 0 az (Nat.sqrt_up (length images)) (length images))
                (fun acc i a Ha => placeImage_deduplicated _ _ _ _ _ _ acc i a Ha)
                images 0%nat (s, []) Hd) as Hloop.
  destruct (forEach_indexed _ images 0%nat (s, [])) as [s1 group].
  revert Hloop. now apply deduplicated_same.
Qed.

Lemma createParticleGroups_deduplicated categoriesMap :
  deduplicated (createParticleGroups categoriesMap initialState).
Proof.
  unfold createParticleGroups, positionCameraForSpiralView.
  apply (deduplicated_same
           (forEach_indexed (placeCategory (length (sort_by_count categoriesMap)))
              (sort_by_count categoriesMap) 0%nat initialState)); [reflexivity|reflexivity|].
  apply (forEach_indexed_inv deduplicated).
  - intros s k e. apply placeCategory_deduplicated.
  - split; [constructor|]. intros k. simpl. split; [|tauto].
    intros Hk. now apply elem_of_empty in Hk.
Qed.

Lemma updateLOD_entry_deduplicated s k :
  deduplicated s -> deduplicated (updateLOD_entry s k).
Proof.
  intros Hd. unfold updateLOD_entry.
  destruct (Map_get k (imageData s)) as [d|]; [|exact Hd].
  destruct (sprites s !! sprite d) as [sp|]; [|exact Hd].
  destruct (negb (visible sp)); [exact Hd|].
  destruct (keyPosition k) as [p|]; [|exact Hd].
  destruct (Rltb _ _ && negb (highQualityLoaded d)).
  - destruct (decide _) as [Hin|Hnot]; [exact Hd|].
    exact (deduplicated_request s (HighFetch k (filename d) (sprite d)) Hd Hnot).
  - destruct (Rgeb _ _ && highQualityLoaded d); [|exact Hd].
    destruct (highResTextures s !! filename d) as [texture|]; [|exact Hd].
    revert Hd. now apply deduplicated_same.
Qed.

Lemma updateLOD_deduplicated s : deduplicated s -> deduplicated (updateLOD s).
Proof.
  unfold updateLOD. generalize (map fst (imageData s)). intros l. revert s.
  induction l as [|k l IH]; intros s Hd; simpl; [exact Hd|].
  apply IH, updateLOD_entry_deduplicated, Hd.
Qed.

Definition traffic (s : State) : list Fetch * gset string := (loads s, pendingTextures s).

Lemma traffic_deduplicated s s' : traffic s' = traffic s -> deduplicated s -> deduplicated s'.
Proof. intros [= Hl Hp]. now apply deduplicated_same. Qed.

Lemma traffic_filter t s : traffic (filterImagesByConfidence t s) = traffic s.
Proof.
  unfold filterImagesByConfidence. apply (fold_left_kept _ traffic). reflexivity.
Qed.

Lemma traffic_onClick hit s : traffic (onClick hit s) = traffic s.
Proof.
  unfold onClick.
  assert (Hfold : forall groups acc,
            traffic (fst (fold_left (onClick_group hit) groups acc)) = traffic (fst acc)).
  { intros groups acc. apply (fold_left_kept _ (fun a => traffic (fst a))).
    intros [s0 h] g. unfold onClick_group.
    destruct (hit (fst g)); [|reflexivity].
    destruct (clickData s0 n); reflexivity. }
  specialize (Hfold (Object_values_particles s) (s, false)).
  destruct (fold_left (onClick_group hit) (Object_values_particles s) (s, false)) as [s1 h].
  destruct h; exact Hfold.
Qed.

Lemma step_deduplicated s s' : step s s' -> deduplicated s -> deduplicated s'.
Proof.
  intros Hstep Hd.
  destruct Hstep as [s n file key spr Hn | s n file key spr Hn
                    | s n key file spr Hn | s n key file spr Hn
                    | s p | s | s t | s hit Hray | s].
  - apply (deduplicated_settled s _ n _ Hd Hn).
    + unfold onStandardLoaded. simpl. destruct (Map_get key (imageData s)); reflexivity.
    + unfold onStandardLoaded. simpl. destruct (Map_get key (imageData s)); reflexivity.
  - apply (deduplicated_settled s _ n _ Hd Hn); reflexivity.
  - apply (deduplicated_settled s _ n _ Hd Hn); reflexivity.
  - apply (deduplicated_settled s _ n _ Hd Hn); reflexivity.
  - revert Hd. now apply deduplicated_same.
  - now apply updateLOD_deduplicated.
  - revert Hd. apply traffic_deduplicated, traffic_filter.
  - revert Hd. apply traffic_deduplicated, traffic_onClick.
  - revert Hd. now apply deduplicated_same.
Qed.

(** X13.  In every state of the scene no key has two requests in flight,
    and [pendingTextures] holds exactly the keys of the requests in flight: a
    key enters the set when its request is issued and leaves it when the
    request succeeds or fails. *)
Theorem pending_matches_loads (categoriesMap : CategoriesMap) (s : State) :
  reachable categoriesMap s ->
  List.NoDup (inFlight s) /\ forall k, k ∈ pendingTextures s <-> In k (inFlight s).
Proof.
  induction 1 as [|s s' _ IH Hstep].
  - apply createParticleGroups_deduplicated.
  - exact (step_deduplicated s s' Hstep IH).
Qed.

End Invariant.

Lemma pending_matches_loads_witness :
  List.NoDup (inFlight Scenario.closeUpUpdated) /\
  forall k, k ∈ pendingTextures Scenario.closeUpUpdated <-> In k (inFlight Scenario.closeUpUpdated).
Proof.
  apply (@pending_matches_loads LayoutFacts.exampleRuntime Scenario.posterMap).
  exact Scenario.closeUpUpdated_reachable.
Defined.

End StreamFacts.

(* ===================================================================== *)
(** * Level of detail, filter and selection together *)
(* ===================================================================== *)

Module SceneMore.
Import Viz SceneFacts.
Local Open Scope R_scope.

Lemma fold_left_fixed {A B : Type} (f : A -> B -> A) (l : list B) (a : A) :
  (forall b, In b l -> f a b = a) -> fold_left f l a = a.
Proof.
  induction l as [|b l IH]; intros Hf; simpl; [reflexivity|].
  rewrite (Hf b) by now left. apply IH. intros b' Hb'. apply Hf. now right.
Qed.

Lemma Rgeb_negb (a b : R) : Rgeb a b = negb (Rltb a b).
Proof. unfold Rgeb, Rltb. destruct (Rge_dec a b), (Rlt_dec a b); simpl; auto; lra. Qed.

Section Lod.
Context `{Runtime}.

Lemma updateLOD_keys s : map fst (imageData (updateLOD s)) = map fst (imageData s).
Proof.
  pose proof (skeleton_updateLOD s) as Hs. unfold skeleton in Hs.
  injection Hs as _ Hi _. rewrite <- !index_keys. unfold index in Hi. now rewrite Hi.
Qed.

(** After a run of [updateLOD], the iteration for any key finds nothing to do. *)
Lemma updateLOD_entry_settled s key :
  wf s -> In key (map fst (imageData s)) ->
  updateLOD_entry (updateLOD s) key = updateLOD s.
Proof.
  intros Hwf Hin.
  destruct (Map_get_key key (imageData s) Hin) as (d0 & Hd0).
  pose proof (frame_fold _ (wf_keys_NoDup s Hwf) s) as F. fold (updateLOD s) in F.
  destruct (updateLOD_split s key d0 Hwf Hd0) as (sa & Fa & Hda & Hspa & Hpend & Hget & Hspr).
  assert (Hcam : camera_position (updateLOD s) = camera_position sa)
    by (rewrite (fr_camera _ _ _ F), (fr_camera _ _ _ Fa); reflexivity).
  assert (Htex : highResTextures (updateLOD s) = highResTextures sa)
    by (rewrite (fr_textures _ _ _ F), (fr_textures _ _ _ Fa); reflexivity).
  clear Hspa F Fa Hin Hd0 Hwf.
  set (s' := updateLOD s) in *. clearbody s'.
  destruct (sprites sa !! sprite d0) as [sp|] eqn:Hsp.
  2:{ assert (He : updateLOD_entry sa key = sa)
        by (unfold updateLOD_entry; rewrite Hda, Hsp; reflexivity).
      rewrite He in Hget, Hspr. unfold updateLOD_entry. rewrite Hget, Hda, Hspr, Hsp.
      reflexivity. }
  destruct (visible sp) eqn:Hv.
  2:{ assert (He : updateLOD_entry sa key = sa)
        by (unfold updateLOD_entry; rewrite Hda, Hsp, Hv; reflexivity).
      rewrite He in Hget, Hspr. unfold updateLOD_entry. rewrite Hget, Hda, Hspr, Hsp, Hv.
      reflexivity. }
  destruct (keyPosition key) as [p|] eqn:Hp.
  2:{ assert (He : updateLOD_entry sa key = sa)
        by (unfold updateLOD_entry; rewrite Hda, Hsp, Hv, Hp; reflexivity).
      rewrite He in Hget, Hspr. unfold updateLOD_entry. rewrite Hget, Hda, Hspr, Hsp, Hv, Hp.
      reflexivity. }
  pose proof (updateLOD_entry_eval sa key d0 sp p Hda Hsp Hv Hp) as He.
  rewrite Rgeb_negb in He.
  destruct (Rltb (distanceTo (camera_position sa) p) LOD_DISTANCE) eqn:Hnear;
    destruct (highQualityLoaded d0) eqn:Hq; simpl in He.
  - rewrite He in Hget, Hspr. rewrite Hda in Hget. rewrite Hsp in Hspr.
    rewrite (updateLOD_entry_eval s' key d0 sp p Hget Hspr Hv Hp).
    rewrite Rgeb_negb, Hcam, Hnear, Hq. reflexivity.
  - assert (Hrec : Map_get key (imageData (updateLOD_entry sa key)) = Some d0 /\
                   sprites (updateLOD_entry sa key) !! sprite d0 = Some sp /\
                   hqKey (filename d0) ∈ pendingTextures (updateLOD_entry sa key)).
    { rewrite He. destruct (decide _) as [Hin|Hnot]; simpl; repeat split; auto.
      apply elem_of_union. right. now apply elem_of_singleton. }
    destruct Hrec as (Hg & Hs & Hpe). rewrite Hg in Hget. rewrite Hs in Hspr.
    rewrite (updateLOD_entry_eval s' key d0 sp p Hget Hspr Hv Hp).
    rewrite Hcam, Hnear, Hq. simpl.
    destruct (decide (hqKey (filename d0) ∈ pendingTextures s')) as [_|Hnot]; [reflexivity|].
    exfalso. apply Hnot, Hpend, Hpe.
  - destruct (highResTextures sa !! filename d0) as [texture|] eqn:Ht.
    + rewrite He in Hget, Hspr. simpl in Hget, Hspr.
      rewrite Map_get_alter_eq, Hda in Hget. rewrite list_lookup_alter_eq, Hsp in Hspr.
      simpl in Hget, Hspr.
      rewrite (updateLOD_entry_eval s' key (set_highQualityLoaded false d0)
                 (set_material_map texture sp) p Hget Hspr Hv Hp).
      rewrite Rgeb_negb, Hcam, Hnear. reflexivity.
    + rewrite He in Hget, Hspr. rewrite Hda in Hget. rewrite Hsp in Hspr.
      rewrite (updateLOD_entry_eval s' key d0 sp p Hget Hspr Hv Hp).
      rewrite Rgeb_negb, Hcam, Hnear, Hq, Htex, Ht. reflexivity.
  - rewrite He in Hget, Hspr. rewrite Hda in Hget. rewrite Hsp in Hspr.
    rewrite (updateLOD_entry_eval s' key d0 sp p Hget Hspr Hv Hp).
    rewrite Rgeb_negb, Hcam, Hnear, Hq. reflexivity.
Qed.

(** X14.  A second run of [updateLOD] right after the first changes
    nothing: the requests it would issue are pending, and the records it would
    demote are demoted. *)
Theorem updateLOD_idempotent (categoriesMap : CategoriesMap) (s : State) :
  reachable categoriesMap s -> updateLOD (updateLOD s) = updateLOD s.
Proof.
  intros Hreach. unfold updateLOD at 1. rewrite updateLOD_keys.
  apply fold_left_fixed. intros key Hin.
  apply updateLOD_entry_settled; [exact (reachable_wf _ _ Hreach)|exact Hin].
Qed.

(** A request that the iteration for [k] of a run of [updateLOD] from [s0]
    may issue. *)
Definition lod_request_at (s0 : State) (k : string) (f : Fetch) : Prop :=
  exists d sp p,
    f = HighFetch k (filename d) (sprite d) /\
    Map_get k (imageData s0) = Some d /\
    sprites s0 !! sprite d = Some sp /\ visible sp = true /\
    keyPosition k = Some p /\
    distanceTo (camera_position s0) p < LOD_DISTANCE /\
    highQualityLoaded d = false /\
    hqKey (filename d) ∉ pendingTextures s0.

Definition lod_request (s0 : State) (f : Fetch) : Prop := exists k, lod_request_at s0 k f.

Lemma updateLOD_entry_loads sc k f :
  In f (loads (updateLOD_entry sc k)) -> In f (loads sc) \/ lod_request_at sc k f.
Proof.
  unfold updateLOD_entry.
  destruct (Map_get k (imageData sc)) as [d|] eqn:Hd; [|now left].
  destruct (sprites sc !! sprite d) as [sp|] eqn:Hsp; [|now left].
  destruct (visible sp) eqn:Hv; simpl; [|now left].
  destruct (keyPosition k) as [p|] eqn:Hp; [|now left].
  destruct (Rltb _ _ && negb (highQualityLoaded d)) eqn:E1.
  - apply andb_true_iff in E1. destruct E1 as [Hnear Hq].
    apply Rltb_true in Hnear. apply negb_true_iff in Hq.
    destruct (decide _) as [Hin|Hnot]; [now left|]. simpl.
    intros Hf. apply in_app_or in Hf. destruct Hf as [Hf|[<-|[]]]; [now left|].
    right. exists d, sp, p. auto 10.
  - destruct (Rgeb _ _ && highQualityLoaded d); [|now left].
    destruct (highResTextures sc !! filename d); now left.
Qed.

Lemma frame_request l s0 sc k f :
  frame l s0 sc -> ~ In k l -> lod_request_at sc k f -> lod_request_at s0 k f.
Proof.
  intros F Hnot (d & sp & p & -> & Hd & Hsp & Hv & Hp & Hnear & Hq & Hpe).
  rewrite (fr_get _ _ _ F k Hnot) in Hd.
  pose proof (f_equal (fun l => l !! sprite d) (fr_visible _ _ _ F)) as Hvis.
  simpl in Hvis. rewrite !lookup_map, Hsp in Hvis.
  destruct (sprites s0 !! sprite d) as [sp0|] eqn:Hsp0; [|discriminate].
  simpl in Hvis. injection Hvis as Hvis.
  exists d, sp0, p. rewrite <- (fr_camera _ _ _ F).
  repeat split; auto; [congruence|].
  intros Hin. apply Hpe. now apply (fr_pending _ _ _ F).
Qed.

Lemma fold_requests l2 : forall l1 s0 f,
  List.NoDup (l1 ++ l2) ->
  In f (loads (fold_left updateLOD_entry l2 (fold_left updateLOD_entry l1 s0))) ->
  In f (loads (fold_left updateLOD_entry l1 s0)) \/ lod_request s0 f.
Proof.
  induction l2 as [|k l2 IH]; intros l1 s0 f Hnd Hf; [now left|].
  simpl in Hf.
  replace (updateLOD_entry (fold_left updateLOD_entry l1 s0) k)
    with (fold_left updateLOD_entry (l1 ++ [k]) s0) in Hf
    by (rewrite fold_left_app; reflexivity).
  apply IH in Hf; [|now rewrite <- app_assoc].
  destruct Hf as [Hf|Hf]; [|now right].
  rewrite fold_left_app in Hf. simpl in Hf.
  apply updateLOD_entry_loads in Hf. destruct Hf as [Hf|Hf]; [now left|].
  right. exists k.
  apply (frame_request l1 s0 (fold_left updateLOD_entry l1 s0) k f); [| |exact Hf].
  - apply frame_fold. now apply NoDup_app_remove_r in Hnd.
  - apply List.NoDup_remove_2 in Hnd. intros Hin. apply Hnd, in_or_app. now left.
Qed.

(** X15.  A run of [updateLOD] issues requests only for records that were
    visible, closer to the camera than [LOD_DISTANCE], not High, and whose
    high-tier key was not pending; a record whose sprite is hidden by the
    filter is left as it was, with its sprite. *)
Theorem lod_requests (categoriesMap : CategoriesMap) (s : State) :
  reachable categoriesMap s ->
  (forall f, In f (loads (updateLOD s)) -> In f (loads s) \/ lod_request s f) /\
  (forall key d sp,
     Map_get key (imageData s) = Some d -> sprites s !! sprite d = Some sp ->
     visible sp = false ->
     Map_get key (imageData (updateLOD s)) = Some d /\
     sprites (updateLOD s) !! sprite d = Some sp).
Proof.
  intros Hreach. pose proof (reachable_wf _ _ Hreach) as Hwf. split.
  - intros f Hf.
    apply (fold_requests (map fst (imageData s)) [] s f); [|exact Hf].
    simpl. now apply wf_keys_NoDup.
  - intros key d sp Hd Hsp Hv.
    destruct (updateLOD_split s key d Hwf Hd) as (sa & _ & Hda & Hspa & _ & Hget & Hspr).
    rewrite Hsp in Hspa.
    assert (He : updateLOD_entry sa key = sa)
      by (unfold updateLOD_entry; rewrite Hda, Hspa, Hv; reflexivity).
    rewrite He in Hget, Hspr. split; congruence.
Qed.

End Lod.

Lemma lod_requests_witness :
  In (HighFetch Scenario.key0 "a.jpg" 0) (loads Scenario.closeUp) \/
  @lod_request LayoutFacts.exampleRuntime Scenario.closeUp (HighFetch Scenario.key0 "a.jpg" 0).
Proof.
  apply (@lod_requests LayoutFacts.exampleRuntime Scenario.posterMap Scenario.closeUp
           Scenario.closeUp_reachable).
  rewrite Scenario.closeUp_updated. left. reflexivity.
Defined.

Section Filter.
Context `{Runtime}.

Lemma filter_lookup t s key d :
  wf s -> In (key, d) (imageData s) ->
  sprites (filterImagesByConfidence t s) !! sprite d
  = option_map (set_visible (Rgeb (confidence d) t)) (sprites s !! sprite d).
Proof.
  intros Hwf Hin. unfold filterImagesByConfidence. rewrite filter_sprites. simpl.
  apply sweep_visible_own; [now apply wf_refs_NoDup|].
  change d with (snd (key, d)). now apply in_map.
Qed.

Lemma filter_overrides t1 t2 s :
  wf s ->
  filterImagesByConfidence t2 (filterImagesByConfidence t1 s) = filterImagesByConfidence t2 s.
Proof.
  intros Hwf. unfold filterImagesByConfidence at 1. rewrite filter_imageData.
  unfold filterImagesByConfidence. rewrite !filter_sprites. simpl.
  unfold set_sprites. simpl. f_equal.
  set (ds := map snd (imageData s)). apply list_eq. intros i.
  destruct (in_dec Nat.eq_dec i (map sprite ds)) as [Hin|Hnot].
  - apply in_map_iff in Hin. destruct Hin as (d & <- & Hin).
    rewrite !sweep_visible_own by (try apply wf_refs_NoDup; assumption).
    destruct (sprites s !! sprite d); reflexivity.
  - now rewrite !sweep_visible_other by exact Hnot.
Qed.

(** X16.  The filter keeps no memory: the scene after two settings of the
    slider is the scene after the second alone, and a run of the filter touches
    nothing but the visibility of the sprites of the index. *)
Theorem filter_last_wins (categoriesMap : CategoriesMap) (s : State) (t1 t2 : R) :
  reachable categoriesMap s ->
  filterImagesByConfidence t2 (filterImagesByConfidence t1 s) = filterImagesByConfidence t2 s /\
  (forall key d,
     In (key, d) (imageData s) ->
     sprites (filterImagesByConfidence t2 s) !! sprite d
     = option_map (set_visible (Rgeb (confidence d) t2)) (sprites s !! sprite d)) /\
  imageData (filterImagesByConfidence t2 s) = imageData s /\
  StreamFacts.traffic (filterImagesByConfidence t2 s) = StreamFacts.traffic s.
Proof.
  intros Hreach. pose proof (reachable_wf _ _ Hreach) as Hwf.
  split; [now apply filter_overrides|].
  split; [intros key d; now apply filter_lookup|].
  split; [apply filter_imageData|apply StreamFacts.traffic_filter].
Qed.

End Filter.

Lemma filter_last_wins_witness :
  filterImagesByConfidence (3 / 4) (filterImagesByConfidence (1 / 4) Scenario.laidOut)
  = filterImagesByConfidence (3 / 4) Scenario.laidOut.
Proof.
  apply (@filter_last_wins LayoutFacts.exampleRuntime Scenario.posterMap).
  apply reach_layout.
Defined.

Lemma updateLOD_idempotent_witness :
  @updateLOD LayoutFacts.exampleRuntime (@updateLOD LayoutFacts.exampleRuntime Scenario.closeUp)
  = @updateLOD LayoutFacts.exampleRuntime Scenario.closeUp.
Proof.
  apply (@updateLOD_idempotent LayoutFacts.exampleRuntime Scenario.posterMap).
  exact Scenario.closeUp_reachable.
Defined.

End SceneMore.

(* ===================================================================== *)
(** * Groups and selection *)
(* ===================================================================== *)

Module SelectionFacts.
Import Viz SceneFacts.
Local Open Scope R_scope.

(** ** The groups of a layout *)

Definition groupChildren (groups : list (string * Group)) : list nat :=
  flat_map (fun p => children (snd p)) groups.

(** A group is named after its key, counts its children, and its children
    are consecutive sprites of the store. *)
Definition group_ok (n : nat) (p : string * Group) : Prop :=
  userData_category (snd p) = fst p /\
  userData_count (snd p) = length (children (snd p)) /\
  exists start, children (snd p) = seq start (userData_count (snd p)) /\
                (start + userData_count (snd p) <= n)%nat.

Definition groups_ok (n : nat) (groups : list (string * Group)) : Prop :=
  List.NoDup (map fst groups) /\
  List.NoDup (groupChildren groups) /\
  Forall (group_ok n) groups.

Lemma group_ok_mono n n' p : (n <= n')%nat -> group_ok n p -> group_ok n' p.
Proof.
  intros Hle (Hc & Hn & start & Hs & Hb). repeat split; auto.
  exists start. split; [exact Hs|lia].
Qed.

Lemma groupChildren_bound n groups id :
  Forall (group_ok n) groups -> In id (groupChildren groups) -> (id < n)%nat.
Proof.
  intros Hall Hin. apply in_flat_map in Hin. destruct Hin as (p & Hp & Hid).
  rewrite List.Forall_forall in Hall. destruct (Hall p Hp) as (_ & _ & start & Hs & Hb).
  rewrite Hs in Hid. apply in_seq in Hid. lia.
Qed.

Lemma groupChildren_Map_set c g groups id :
  In id (groupChildren (Map_set c g groups)) ->
  In id (children g) \/ In id (groupChildren groups).
Proof.
  intros Hin. apply in_flat_map in Hin. destruct Hin as (p & Hp & Hid).
  apply Map_set_In in Hp. destruct Hp as [->|Hp]; [now left|].
  right. apply in_flat_map. eauto.
Qed.

Lemma NoDup_app_apart {A : Type} (l1 l2 : list A) x :
  List.NoDup (l1 ++ l2) -> In x l1 -> In x l2 -> False.
Proof.
  induction l1 as [|a l1 IH]; simpl; [tauto|].
  intros Hnd [->|Hin] Hx; inversion Hnd as [|? ? Hnot Hnd']; subst.
  - apply Hnot, in_or_app. now right.
  - now apply IH.
Qed.

Lemma groupChildren_Map_set_NoDup c g groups :
  List.NoDup (groupChildren groups) -> List.NoDup (children g) ->
  (forall id, In id (children g) -> ~ In id (groupChildren groups)) ->
  List.NoDup (groupChildren (Map_set c g groups)).
Proof.
  induction groups as [|[c' g'] groups IH]; simpl; intros Hnd Hg Hdisj.
  - now rewrite app_nil_r.
  - assert (Hnd1 : List.NoDup (children g')) by now apply NoDup_app_remove_r in Hnd.
    assert (Hnd2 : List.NoDup (groupChildren groups)) by now apply NoDup_app_remove_l in Hnd.
    destruct (String.eqb c' c); simpl.
    + apply List.NoDup_app; [exact Hg|exact Hnd2|].
      intros id Hid Hin. apply (Hdisj id Hid), in_or_app. now right.
    + apply List.NoDup_app; [exact Hnd1| |].
      * apply IH; [exact Hnd2|exact Hg|].
        intros id Hid Hin. apply (Hdisj id Hid), in_or_app. now right.
      * intros id Hid Hin. apply groupChildren_Map_set in Hin.
        destruct Hin as [Hin|Hin].
        -- apply (Hdisj id Hin), in_or_app. now left.
        -- exact (NoDup_app_apart _ _ id Hnd Hid Hin).
Qed.

Section Layout.
Context `{Runtime}.

Lemma forEach_placeImage_group category ax ay az cols len images : forall i s group,
  let r := forEach_indexed (placeImage category ax ay az cols len) images i (s, group) in
  snd r = group ++ seq (length (sprites s)) (length images) /\
  particles (fst r) = particles s /\
  length (sprites (fst r)) = (length (sprites s) + length images)%nat.
Proof.
  induction images as [|img rest IH]; intros i s group; cbn [forEach_indexed].
  - simpl. rewrite app_nil_r. auto.
  - destruct (placeImage_shape category ax ay az cols len s group i img)
      as (Hp & _ & Hpa & Hgr & _).
    destruct (placeImage category ax ay az cols len (s, group) i img) as [s1 group1].
    simpl in Hp, Hpa, Hgr.
    assert (Hlen : length (sprites s1) = S (length (sprites s))).
    { apply (f_equal (@length _)) in Hp. unfold positions in Hp.
      rewrite length_app, !length_map in Hp. simpl in Hp. lia. }
    destruct (IH (S i) s1 group1) as (Hg & Hpar & Hl). cbv zeta.
    rewrite Hg, Hpar, Hl, Hgr, Hpa, Hlen. unfold positions. rewrite length_map.
    split; [|split; [reflexivity|simpl; lia]].
    rewrite <- app_assoc. reflexivity.
Qed.

Lemma placeCategory_particles total s k category images :
  particles (placeCategory total s k (category, images))
  = Map_set category
      (mkGroup (seq (length (sprites s)) (length images)) category (length images))
      (particles s) /\
  length (sprites (placeCategory total s k (category, images)))
  = (length (sprites s) + length images)%nat.
Proof.
  unfold placeCategory. destruct (getSpiralCoordinates k total) as [ax az].
  pose proof (forEach_placeImage_group category ax 0 az (Nat.sqrt_up (length images))
                (length images) images 0%nat s []) as Hloop.
  cbv zeta in Hloop.
  destruct (forEach_indexed _ images 0%nat (s, [])) as [s1 group].
  simpl in Hloop. destruct Hloop as (-> & Hpar & Hlen). simpl. rewrite Hpar. auto.
Qed.

Lemma placeCategory_groups_ok total s k entry :
  groups_ok (length (sprites s)) (particles s) ->
  groups_ok (length (sprites (placeCategory total s k entry)))
            (particles (placeCategory total s k entry)).
Proof.
  destruct entry as [category images]. intros (Hk & Hnd & Hall).
  destruct (placeCategory_particles total s k category images) as [-> ->].
  split; [now apply Map_set_keys_NoDup|]. split.
  - apply groupChildren_Map_set_NoDup; [exact Hnd|apply seq_NoDup|].
    simpl. intros id Hid Hin. apply in_seq in Hid.
    apply (groupChildren_bound _ _ _ Hall) in Hin. lia.
  - apply List.Forall_forall. intros p Hp. apply Map_set_In in Hp.
    destruct Hp as [->|Hp].
    + repeat split; simpl; [now rewrite length_seq|].
      exists (length (sprites s)). split; [reflexivity|lia].
    + rewrite List.Forall_forall in Hall.
      apply (group_ok_mono (length (sprites s))); [lia|auto].
Qed.

Lemma createParticleGroups_groups_ok categoriesMap :
  let s := createParticleGroups categoriesMap initialState in
  groups_ok (length (sprites s)) (particles s).
Proof.
  cbv zeta. unfold createParticleGroups, positionCameraForSpiralView. simpl.
  apply (forEach_indexed_inv (fun s => groups_ok (length (sprites s)) (particles s))).
  - intros s k e. apply placeCategory_groups_ok.
  - repeat split; constructor.
Qed.

Lemma forEach_placeCategory_absent total c l : forall k s,
  ~ In c (map fst l) ->
  Map_get c (particles (forEach_indexed (placeCategory total) l k s))
  = Map_get c (particles s).
Proof.
  induction l as [|[c' images] l IH]; intros k s Hnot; cbn [forEach_indexed]; [reflexivity|].
  simpl in Hnot. rewrite IH by tauto.
  destruct (placeCategory_particles total s k c' images) as [-> _].
  apply Map_get_set_ne. tauto.
Qed.

Lemma forEach_placeCategory_count total c images l : forall k s,
  List.NoDup (map fst l) -> In (c, images) l ->
  exists g,
    Map_get c (particles (forEach_indexed (placeCategory total) l k s)) = Some g /\
    userData_count g = length images.
Proof.
  induction l as [|[c' images'] l IH]; intros k s Hnd Hin; [destruct Hin|].
  inversion Hnd as [|? ? Hnot Hnd']; subst. cbn [forEach_indexed].
  destruct Hin as [[= -> ->]|Hin].
  - rewrite forEach_placeCategory_absent by exact Hnot.
    destruct (placeCategory_particles total s k c images) as [-> _].
    rewrite Map_get_set_eq. eexists. split; [reflexivity|reflexivity].
  - now apply IH.
Qed.

Lemma reachable_skeleton categoriesMap s :
  reachable categoriesMap s ->
  skeleton s = skeleton (createParticleGroups categoriesMap initialState).
Proof.
  induction 1 as [|s s' _ IH Hstep]; [reflexivity|].
  rewrite <- IH. now apply skeleton_step.
Qed.

Lemma reachable_groups_ok categoriesMap s :
  reachable categoriesMap s -> groups_ok (length (sprites s)) (particles s).
Proof.
  intros Hreach. pose proof (reachable_skeleton _ _ Hreach) as Hs.
  unfold skeleton in Hs. injection Hs as Hp _ Hg.
  apply (f_equal (@length _)) in Hp. unfold positions in Hp. rewrite !length_map in Hp.
  rewrite Hp, Hg. apply createParticleGroups_groups_ok.
Qed.

(** X17.  In every state of the scene the groups have pairwise different
    names and share no sprite; each group is named after its key, its [count]
    is the number of its children, and its children are consecutive sprites of
    the store.  With pairwise different labels in the buckets, the group of a
    category counts the images of its bucket: this is the category size the
    preview shows. *)
Theorem layout_groups (categoriesMap : CategoriesMap) (s : State) :
  reachable categoriesMap s ->
  List.NoDup (map fst (particles s)) /\
  List.NoDup (groupChildren (particles s)) /\
  Forall (group_ok (length (sprites s))) (particles s) /\
  (List.NoDup (map fst categoriesMap) ->
   forall c images, In (c, images) categoriesMap ->
     exists g, Map_get c (particles s) = Some g /\ userData_count g = length images).
Proof.
  intros Hreach. destruct (reachable_groups_ok _ _ Hreach) as (Hk & Hnd & Hall).
  repeat split; auto.
  intros Hlabels c images Hin.
  pose proof (reachable_skeleton _ _ Hreach) as Hs.
  unfold skeleton in Hs. injection Hs as _ _ ->.
  unfold createParticleGroups, positionCameraForSpiralView. simpl.
  pose proof (LayoutFacts.sort_by_count_perm categoriesMap) as Hperm.
  apply forEach_placeCategory_count.
  - eapply Permutation.Permutation_NoDup; [|exact Hlabels].
    now apply Permutation.Permutation_map.
  - eapply Permutation.Permutation_in; [exact Hperm|exact Hin].
Qed.

End Layout.

Lemma layout_groups_witness :
  exists g, Map_get "poster" (particles Scenario.laidOut) = Some g /\
            userData_count g = length [Image.mk "a.jpg" (1 / 2)].
Proof.
  apply (@layout_groups LayoutFacts.exampleRuntime Scenario.posterMap Scenario.laidOut).
  - apply reach_layout.
  - repeat constructor. simpl. tauto.
  - left. reflexivity.
Defined.

(** ** Opacity sweeps *)

(** What a sweep does to one sprite. *)
Definition dim (v : R) (sp : Sprite) : Sprite :=
  if visible sp then set_material_opacity v sp else sp.

Definition sweep (o : string * Group -> R) (groups : list (string * Group))
    (sps : list Sprite) : list Sprite :=
  fold_left (fun sps (p : string * Group) =>
               fold_left (setOpacityIfVisible (o p)) (children (snd p)) sps)
            groups sps.

Definition selectionOpacity (c : string) (p : string * Group) : R :=
  if String.eqb (fst p) c then 1.0 else 0.3.

Lemma highlight_sweep c s :
  highlight c s
  = set_sprites (sweep (selectionOpacity c) (Object_values_particles s) (sprites s)) s.
Proof. reflexivity. Qed.

Lemma closeImagePreview_sweep s :
  closeImagePreview s
  = set_imagePreview None
      (set_sprites (sweep (fun _ => 1.0) (Object_values_particles s) (sprites s)) s).
Proof. reflexivity. Qed.

(** [Object.values] enumerates the groups of [particles], each once. *)
Lemma values_In s p : In p (Object_values_particles s) <-> In p (particles s).
Proof. apply JSObjectFacts.Object_entries_In. Qed.

Lemma values_NoDup s :
  List.NoDup (groupChildren (particles s)) ->
  List.NoDup (groupChildren (Object_values_particles s)).
Proof.
  apply Permutation.Permutation_NoDup. unfold groupChildren.
  apply Permutation.Permutation_flat_map, Permutation.Permutation_sym.
  apply JSObjectFacts.Object_entries_perm.
Qed.

Lemma values_children s id :
  In id (groupChildren (Object_values_particles s)) <-> In id (groupChildren (particles s)).
Proof.
  unfold groupChildren. rewrite !in_flat_map.
  split; intros (p & Hp & Hid); exists p; split; auto; now apply values_In.
Qed.

Lemma inner_other v l id : forall sps,
  ~ In id l -> fold_left (setOpacityIfVisible v) l sps !! id = sps !! id.
Proof.
  induction l as [|a l IH]; intros sps Hnot; simpl; [reflexivity|].
  simpl in Hnot. rewrite IH by tauto.
  unfold setOpacityIfVisible. apply list_lookup_alter_ne. tauto.
Qed.

Lemma inner_own v l id : forall sps,
  List.NoDup l -> In id l ->
  fold_left (setOpacityIfVisible v) l sps !! id = option_map (dim v) (sps !! id).
Proof.
  induction l as [|a l IH]; intros sps Hnd Hin; simpl; [destruct Hin|].
  inversion Hnd as [|? ? Hnot Hnd']; subst.
  destruct Hin as [->|Hin].
  - rewrite inner_other by exact Hnot.
    unfold setOpacityIfVisible. apply list_lookup_alter_eq.
  - rewrite IH by assumption.
    unfold setOpacityIfVisible at 1. rewrite list_lookup_alter_ne; [reflexivity|].
    intros ->. contradiction.
Qed.

Lemma sweep_cons o p groups sps :
  sweep o (p :: groups) sps
  = sweep o groups (fold_left (setOpacityIfVisible (o p)) (children (snd p)) sps).
Proof. reflexivity. Qed.

Lemma sweep_other o groups id : forall sps,
  ~ In id (groupChildren groups) -> sweep o groups sps !! id = sps !! id.
Proof.
  induction groups as [|p groups IH]; intros sps Hnot; [reflexivity|].
  simpl in Hnot. rewrite sweep_cons.
  rewrite IH by (intros Hin; apply Hnot, in_or_app; now right).
  apply inner_other. intros Hin. apply Hnot, in_or_app. now left.
Qed.

Lemma sweep_own o groups p id : forall sps,
  List.NoDup (groupChildren groups) -> In p groups -> In id (children (snd p)) ->
  sweep o groups sps !! id = option_map (dim (o p)) (sps !! id).
Proof.
  induction groups as [|p0 groups IH]; intros sps Hnd Hp Hid; [destruct Hp|].
  simpl in Hnd. rewrite sweep_cons.
  destruct Hp as [->|Hp].
  - rewrite (sweep_other o groups id).
    + apply inner_own; [now apply NoDup_app_remove_r in Hnd|exact Hid].
    + intros Hin. exact (NoDup_app_apart _ _ id Hnd Hid Hin).
  - rewrite IH; [|now apply NoDup_app_remove_l in Hnd|exact Hp|exact Hid].
    rewrite inner_other; [reflexivity|].
    intros Hin. apply (NoDup_app_apart _ _ id Hnd Hin).
    apply in_flat_map. eauto.
Qed.

Lemma dim_dim v w sp : dim v (dim w sp) = dim v sp.
Proof. unfold dim. destruct (visible sp) eqn:E; simpl; rewrite ?E; reflexivity. Qed.

Lemma sweep_sweep o1 o2 groups sps :
  List.NoDup (groupChildren groups) ->
  sweep o2 groups (sweep o1 groups sps) = sweep o2 groups sps.
Proof.
  intros Hnd. apply list_eq. intros id.
  destruct (in_dec Nat.eq_dec id (groupChildren groups)) as [Hin|Hnot].
  - apply in_flat_map in Hin. destruct Hin as (p & Hp & Hid).
    rewrite !(sweep_own _ groups p id) by assumption.
    destruct (sps !! id); simpl; [now rewrite dim_dim|reflexivity].
  - now rewrite !sweep_other by exact Hnot.
Qed.

Lemma highlight_highlight c1 c2 s :
  List.NoDup (groupChildren (particles s)) ->
  highlight c2 (highlight c1 s) = highlight c2 s.
Proof.
  intros Hnd. apply values_NoDup in Hnd. rewrite !highlight_sweep.
  change (Object_values_particles (set_sprites _ s)) with (Object_values_particles s).
  cbn [sprites set_sprites]. rewrite sweep_sweep by exact Hnd. reflexivity.
Qed.

Section Selection.
Context `{Runtime}.

(** X18.  Selecting the group [c] gives full opacity to the visible
    sprites of [c] and opacity 0.3 to the visible sprites of every other group;
    closing the preview gives full opacity to every visible sprite of a group
    and hides the preview.  Neither touches a sprite that the filter hides. *)
Theorem selection_opacity (categoriesMap : CategoriesMap) (s : State) (c c' : string)
    (g : Group) (id : nat) :
  reachable categoriesMap s -> In (c', g) (particles s) -> In id (children g) ->
  exists sp,
    sprites s !! id = Some sp /\
    sprites (highlight c s) !! id
    = Some (if visible sp
            then set_material_opacity (if String.eqb c' c then 1.0 else 0.3) sp
            else sp) /\
    sprites (closeImagePreview s) !! id
    = Some (if visible sp then set_material_opacity 1.0 sp else sp) /\
    imagePreview (closeImagePreview s) = None.
Proof.
  intros Hreach Hg Hid.
  destruct (reachable_groups_ok _ _ Hreach) as (_ & Hnd & Hall).
  assert (Hlt : (id < length (sprites s))%nat).
  { apply (groupChildren_bound _ _ _ Hall). apply in_flat_map. exists (c', g). auto. }
  destruct (lookup_lt_is_Some_2 (sprites s) id Hlt) as [sp Hsp].
  apply values_NoDup in Hnd. apply values_In in Hg.
  exists sp. split; [exact Hsp|]. split; [|split; [|reflexivity]].
  - rewrite highlight_sweep. cbn [sprites set_sprites].
    rewrite (sweep_own _ _ (c', g) id) by assumption. now rewrite Hsp.
  - rewrite closeImagePreview_sweep. cbn [sprites set_sprites set_imagePreview].
    rewrite (sweep_own _ _ (c', g) id) by assumption. now rewrite Hsp.
Qed.

(** The states [onClick] passes through: the scene itself, or the scene with
    a group selected. *)
Definition selecting (s a : State) : Prop :=
  a = s \/ exists d c, a = set_imagePreview (Some d) (highlight c s).

Lemma clickData_highlight c s id : clickData (highlight c s) id = clickData s id.
Proof.
  unfold clickData, clickKey.
  pose proof (highlight_kept position c s (fun _ _ => eq_refl)) as Hpos.
  apply (f_equal (fun l => l !! id)) in Hpos. rewrite !lookup_map in Hpos.
  destruct (sprites (highlight c s) !! id) as [sp1|], (sprites s !! id) as [sp2|];
    simpl in Hpos; try discriminate; [|reflexivity].
  injection Hpos as ->. reflexivity.
Qed.

Lemma clickData_selecting s a id : selecting s a -> clickData a id = clickData s id.
Proof.
  intros [->|(d & c & ->)]; [reflexivity|].
  change (clickData (set_imagePreview (Some d) (highlight c s)) id)
    with (clickData (highlight c s) id).
  apply clickData_highlight.
Qed.

Lemma select_selecting s a d c :
  List.NoDup (groupChildren (particles s)) -> selecting s a ->
  set_imagePreview (Some d) (highlight c a) = set_imagePreview (Some d) (highlight c s).
Proof.
  intros Hnd [->|(d' & c' & ->)]; [reflexivity|].
  change (highlight c (set_imagePreview (Some d') (highlight c' s)))
    with (set_imagePreview (Some d') (highlight c (highlight c' s))).
  rewrite highlight_highlight by exact Hnd. reflexivity.
Qed.

Lemma onClick_group_selecting hit s acc g :
  List.NoDup (groupChildren (particles s)) -> selecting s (fst acc) ->
  selecting s (fst (onClick_group hit acc g)).
Proof.
  intros Hnd Hsel. destruct acc as [a h]. simpl in Hsel. unfold onClick_group.
  destruct (hit (fst g)) as [id|]; [|exact Hsel].
  destruct (clickData a id) as [d|]; [|exact Hsel].
  simpl. right. exists d, (fst g). now apply select_selecting.
Qed.

Lemma fold_selecting hit s groups : forall acc,
  List.NoDup (groupChildren (particles s)) -> selecting s (fst acc) ->
  selecting s (fst (fold_left (onClick_group hit) groups acc)).
Proof.
  induction groups as [|g groups IH]; intros acc Hnd Hsel; simpl; [exact Hsel|].
  apply IH; [exact Hnd|]. now apply onClick_group_selecting.
Qed.

Lemma fold_no_hit hit groups acc :
  (forall p, In p groups -> hit (fst p) = None) ->
  fold_left (onClick_group hit) groups acc = acc.
Proof.
  intros Hno. apply SceneMore.fold_left_fixed. intros p Hp.
  destruct acc as [a h]. unfold onClick_group. now rewrite (Hno p Hp).
Qed.

(** The record [onClick] looks up for a visible sprite of a group exists. *)
Lemma raycast_clickData s hit c id :
  wf s -> raycast_ok s hit -> hit c = Some id -> exists d, clickData s id = Some d.
Proof.
  intros Hwf Hray Hhit.
  destruct (Hray c id Hhit) as (g' & sp & _ & _ & Hsp & _).
  destruct Hwf as (_ & _ & _ & Hix & _).
  unfold clickData, clickKey. rewrite Hsp. apply Map_get_key.
  rewrite <- index_keys. apply (Hix id). unfold positions.
  rewrite lookup_map, Hsp. reflexivity.
Qed.

Lemma onClick_last_hit hit s gs1 c g gs2 id d :
  List.NoDup (groupChildren (particles s)) ->
  Object_values_particles s = gs1 ++ (c, g) :: gs2 -> hit c = Some id ->
  clickData s id = Some d ->
  (forall p, In p gs2 -> hit (fst p) = None) ->
  onClick hit s = set_imagePreview (Some d) (highlight c s).
Proof.
  intros Hnd Hparts Hhit Hd Hno.
  unfold onClick. rewrite Hparts, fold_left_app. simpl.
  pose proof (fold_selecting hit s gs1 (s, false) Hnd (or_introl eq_refl)) as Hsel.
  destruct (fold_left (onClick_group hit) gs1 (s, false)) as [a h]. simpl in Hsel.
  unfold onClick_group at 2. simpl. rewrite Hhit.
  rewrite (clickData_selecting s a id Hsel), Hd.
  rewrite fold_no_hit by exact Hno.
  now apply select_selecting.
Qed.

Lemma onClick_no_hit hit s :
  (forall p, In p (particles s) -> hit (fst p) = None) -> onClick hit s = closeImagePreview s.
Proof.
  intros Hno. unfold onClick. rewrite fold_no_hit; [reflexivity|].
  intros p Hp. apply Hno. now apply values_In.
Qed.

(** X19.  A click whose ray meets sprites selects the last group, in the
    order in which [Object.values(particles)] visits the groups, in which it
    meets one: the preview shows the record found for the sprite hit in that
    group and that group is the one highlighted, whatever was hit in the groups
    visited before.  The groups named by an array index are visited first, by
    index; when no group has such a name the order is the one in which the
    groups were created.  A click that meets no sprite closes the preview. *)
Theorem click_selects_last_hit (categoriesMap : CategoriesMap) (s : State)
    (hit : string -> option nat) :
  reachable categoriesMap s -> raycast_ok s hit ->
  (forall gs1 c g gs2 id,
     Object_values_particles s = gs1 ++ (c, g) :: gs2 -> hit c = Some id ->
     (forall p, In p gs2 -> hit (fst p) = None) ->
     exists d, clickData s id = Some d /\
               onClick hit s = set_imagePreview (Some d) (highlight c s)) /\
  ((forall p, In p (particles s) -> JSObject.arrayIndex (fst p) = None) ->
   Object_values_particles s = particles s) /\
  ((forall p, In p (particles s) -> hit (fst p) = None) ->
   onClick hit s = closeImagePreview s).
Proof.
  intros Hreach Hray.
  split; [|split; [apply JSObjectFacts.Object_entries_named|apply onClick_no_hit]].
  intros gs1 c g gs2 id Hparts Hhit Hno.
  destruct (reachable_groups_ok _ _ Hreach) as (_ & Hnd & _).
  destruct (raycast_clickData s hit c id (reachable_wf _ _ Hreach) Hray Hhit) as [d Hd].
  exists d. split; [exact Hd|].
  exact (onClick_last_hit hit s gs1 c g gs2 id d Hnd Hparts Hhit Hd Hno).
Qed.

(** X20.  Closing the preview does not reach the sprites the filter
    hides: a sprite hidden while the preview is closed comes back, when the
    threshold is lowered again, with the opacity it had, whereas a sprite of a
    group that stayed visible comes out fully opaque. *)
Theorem hidden_sprite_keeps_opacity (categoriesMap : CategoriesMap) (s : State)
    (key : string) (d : ImageData) (sp : Sprite) (t t0 : R) :
  reachable categoriesMap s ->
  In (key, d) (imageData s) -> sprites s !! sprite d = Some sp ->
  confidence d < t -> confidence d >= t0 ->
  sprites (filterImagesByConfidence t0
             (closeImagePreview (filterImagesByConfidence t s))) !! sprite d
  = Some (set_visible true sp) /\
  (In (sprite d) (groupChildren (particles s)) -> visible sp = true ->
   sprites (filterImagesByConfidence t0 (closeImagePreview s)) !! sprite d
   = Some (set_visible true (set_material_opacity 1.0 sp))).
Proof.
  intros Hreach Hin Hsp Hlt Hge.
  assert (Hshow : Rgeb (confidence d) t0 = true) by now apply Rgeb_true.
  assert (Hhide : Rgeb (confidence d) t = false).
  { destruct (Rgeb (confidence d) t) eqn:E; [|reflexivity].
    apply Rgeb_true in E. lra. }
  split.
  - set (s1 := filterImagesByConfidence t s).
    assert (Hr1 : reachable categoriesMap s1) by (eapply reach_step; [exact Hreach|constructor]).
    assert (Hr2 : reachable categoriesMap (closeImagePreview s1))
      by (eapply reach_step; [exact Hr1|constructor]).
    assert (H1 : sprites s1 !! sprite d = Some (set_visible false sp)).
    { unfold s1. rewrite (SceneMore.filter_lookup t s key d (reachable_wf _ _ Hreach) Hin).
      now rewrite Hsp, Hhide. }
    assert (H2 : sprites (closeImagePreview s1) !! sprite d = Some (set_visible false sp)).
    { rewrite closeImagePreview_sweep. cbn [sprites set_sprites set_imagePreview].
      destruct (reachable_groups_ok _ _ Hr1) as (_ & Hnd & _).
      apply values_NoDup in Hnd.
      destruct (in_dec Nat.eq_dec (sprite d) (groupChildren (Object_values_particles s1)))
        as [Hg|Hg].
      - apply in_flat_map in Hg. destruct Hg as (p & Hp & Hid).
        rewrite (sweep_own _ _ p (sprite d)) by assumption. now rewrite H1.
      - now rewrite sweep_other by exact Hg. }
    rewrite (SceneMore.filter_lookup t0 _ key d (reachable_wf _ _ Hr2)).
    + now rewrite H2, Hshow.
    + simpl. unfold s1. now rewrite filter_imageData.
  - intros Hg Hv.
    assert (Hr2 : reachable categoriesMap (closeImagePreview s))
      by (eapply reach_step; [exact Hreach|constructor]).
    destruct (reachable_groups_ok _ _ Hreach) as (_ & Hnd & _).
    apply values_NoDup in Hnd. apply values_children in Hg.
    rewrite (SceneMore.filter_lookup t0 _ key d (reachable_wf _ _ Hr2)) by exact Hin.
    rewrite closeImagePreview_sweep. cbn [sprites set_sprites set_imagePreview].
    apply in_flat_map in Hg. destruct Hg as (p & Hp & Hid).
    rewrite (sweep_own _ _ p (sprite d)) by assumption.
    rewrite Hsp, Hshow. simpl. unfold dim. now rewrite Hv.
Qed.

(** ** The two listeners of a click *)

(** What the 'click' listener of the document reads of the event. *)
Record ClickTarget := mkClickTarget {
  onCanvas : bool;        (* event.target === canvas *)
  inPreview : bool        (* container.contains(event.target) *)
}.

(** The 'click' listener of the document; the preview is displayed when a
    record is shown. *)
Definition documentClick (e : ClickTarget) (s : State) : State :=
  if onCanvas e then s
  else
    match imagePreview s with
    | Some _ => if inPreview e then s else closeImagePreview s
    | None => s
    end.

(** A click: the listener of the document runs, then [onClick], the listener
    of the window. *)
Definition click (e : ClickTarget) (hit : string -> option nat) (s : State) : State :=
  onClick hit (documentClick e s).

Lemma last_hit_split (hit : string -> option nat) (gs : list (string * Group)) :
  (forall p, In p gs -> hit (fst p) = None) \/
  exists gs1 c g gs2 id,
    gs = gs1 ++ (c, g) :: gs2 /\ hit c = Some id /\
    forall p, In p gs2 -> hit (fst p) = None.
Proof.
  induction gs as [|[c g] gs IH].
  - left. intros p [].
  - destruct IH as [Hno|(gs1 & c' & g' & gs2 & id & -> & Hhit & Hno)].
    + destruct (hit c) as [id|] eqn:Hc.
      * right. exists [], c, g, gs, id. auto.
      * left. intros p [<-|Hp]; auto.
    + right. exists ((c, g) :: gs1), c', g', gs2, id. auto.
Qed.

Lemma closeImagePreview_twice s :
  List.NoDup (groupChildren (particles s)) ->
  closeImagePreview (closeImagePreview s) = closeImagePreview s.
Proof.
  intros Hnd. apply values_NoDup in Hnd. rewrite !closeImagePreview_sweep.
  change (Object_values_particles (set_imagePreview _ (set_sprites _ s)))
    with (Object_values_particles s).
  cbn [sprites set_sprites set_imagePreview]. rewrite sweep_sweep by exact Hnd. reflexivity.
Qed.

Lemma highlight_closeImagePreview c s d :
  List.NoDup (groupChildren (particles s)) ->
  set_imagePreview (Some d) (highlight c (closeImagePreview s))
  = set_imagePreview (Some d) (highlight c s).
Proof.
  intros Hnd. apply values_NoDup in Hnd. rewrite closeImagePreview_sweep, !highlight_sweep.
  change (Object_values_particles (set_imagePreview _ (set_sprites _ s)))
    with (Object_values_particles s).
  cbn [sprites set_sprites set_imagePreview]. rewrite sweep_sweep by exact Hnd. reflexivity.
Qed.

Lemma clickData_closeImagePreview s id :
  clickData (closeImagePreview s) id = clickData s id.
Proof.
  unfold clickData, clickKey.
  pose proof (closeImagePreview_kept position s (fun _ _ => eq_refl)) as Hpos.
  apply (f_equal (fun l => l !! id)) in Hpos. rewrite !lookup_map in Hpos.
  destruct (sprites (closeImagePreview s) !! id) as [sp1|], (sprites s !! id) as [sp2|];
    simpl in Hpos; try discriminate; [|reflexivity].
  injection Hpos as ->. reflexivity.
Qed.

Lemma onClick_closeImagePreview hit s :
  wf s -> List.NoDup (groupChildren (particles s)) -> raycast_ok s hit ->
  onClick hit (closeImagePreview s) = onClick hit s.
Proof.
  intros Hwf Hnd Hray.
  destruct (last_hit_split hit (Object_values_particles s))
    as [Hno|(gs1 & c & g & gs2 & id & Hparts & Hhit & Hno)].
  - assert (Hno' : forall p, In p (particles s) -> hit (fst p) = None)
      by (intros p Hp; apply Hno; now apply values_In).
    rewrite !onClick_no_hit by exact Hno'. now apply closeImagePreview_twice.
  - destruct (raycast_clickData s hit c id Hwf Hray Hhit) as [d Hd].
    rewrite (onClick_last_hit hit s gs1 c g gs2 id d Hnd Hparts Hhit Hd Hno).
    rewrite (onClick_last_hit hit (closeImagePreview s) gs1 c g gs2 id d);
      [now apply highlight_closeImagePreview|exact Hnd|exact Hparts|exact Hhit| |exact Hno].
    now rewrite clickData_closeImagePreview.
Qed.

(** X21.  The listener of the document makes no difference to a click:
    the scene after the two listeners is the scene [onClick] alone would leave.
    So a click inside the preview whose ray meets no sprite closes the preview,
    although the listener of the document spares it. *)
Theorem click_is_onClick (categoriesMap : CategoriesMap) (s : State) (e : ClickTarget)
    (hit : string -> option nat) :
  reachable categoriesMap s -> raycast_ok s hit ->
  click e hit s = onClick hit s /\
  (inPreview e = true -> (forall p, In p (particles s) -> hit (fst p) = None) ->
   documentClick e s = s /\ click e hit s = closeImagePreview s).
Proof.
  intros Hreach Hray.
  pose proof (reachable_wf _ _ Hreach) as Hwf.
  destruct (reachable_groups_ok _ _ Hreach) as (_ & Hnd & _).
  assert (Hmain : click e hit s = onClick hit s).
  { unfold click, documentClick.
    destruct (onCanvas e); [reflexivity|].
    destruct (imagePreview s); [|reflexivity].
    destruct (inPreview e); [reflexivity|].
    now apply onClick_closeImagePreview. }
  split; [exact Hmain|].
  intros Hin Hno. split.
  - unfold documentClick. rewrite Hin.
    destruct (onCanvas e); [reflexivity|]. now destruct (imagePreview s).
  - rewrite Hmain. now apply onClick_no_hit.
Qed.

End Selection.

(** ** The scene with one image *)

Definition hitPoster (c : string) : option nat :=
  if String.eqb c "poster" then Some 0%nat else None.

Lemma laidOut_raycast : raycast_ok Scenario.laidOut hitPoster.
Proof.
  rewrite Scenario.laidOut_eq. intros c id Hhit. unfold hitPoster in Hhit.
  destruct (String.eqb_spec c "poster") as [->|Hne]; [|discriminate].
  injection Hhit as <-.
  exists (mkGroup [0%nat] "poster" 1), (Scenario.sprite0 placeholderTexture).
  repeat split. now left.
Qed.

Lemma selection_opacity_witness :
  exists sp,
    sprites Scenario.laidOut !! 0%nat = Some sp /\
    sprites (highlight "other" Scenario.laidOut) !! 0%nat
    = Some (if visible sp
            then set_material_opacity (if String.eqb "poster" "other" then 1.0 else 0.3) sp
            else sp) /\
    sprites (closeImagePreview Scenario.laidOut) !! 0%nat
    = Some (if visible sp then set_material_opacity 1.0 sp else sp) /\
    imagePreview (closeImagePreview Scenario.laidOut) = None.
Proof.
  apply (@selection_opacity LayoutFacts.exampleRuntime Scenario.posterMap Scenario.laidOut
           "other" "poster" (mkGroup [0%nat] "poster" 1) 0%nat).
  - apply reach_layout.
  - rewrite Scenario.laidOut_eq. left. reflexivity.
  - left. reflexivity.
Defined.

(** ** Two groups, the second of them named by an array index

    The group of "b" is created first, the group of "1" second;
    [Object.values(particles)] visits the group of "1" first.  A ray that meets
    a sprite in both groups selects "b". *)

Definition indexedMap : CategoriesMap :=
  [("b", [Image.mk "a.jpg" (1 / 2)]); ("1", [Image.mk "c.jpg" (1 / 2)])].

Definition indexedScene : State :=
  @createParticleGroups LayoutFacts.exampleRuntime indexedMap initialState.

Definition hitBoth (c : string) : option nat :=
  if String.eqb c "b" then Some 0%nat
  else if String.eqb c "1" then Some 1%nat else None.

Lemma indexedScene_particles :
  particles indexedScene = [("b", mkGroup [0%nat] "b" 1); ("1", mkGroup [1%nat] "1" 1)].
Proof.
  unfold indexedScene, createParticleGroups, positionCameraForSpiralView.
  change (sort_by_count indexedMap) with indexedMap.
  cbn [particles set_camera_position indexedMap forEach_indexed].
  rewrite (proj1 (placeCategory_particles _ _ _ _ _)).
  rewrite (proj2 (placeCategory_particles _ _ _ _ _)).
  rewrite (proj1 (placeCategory_particles _ _ _ _ _)).
  reflexivity.
Qed.

Lemma indexedScene_values :
  Object_values_particles indexedScene
  = [("1", mkGroup [1%nat] "1" 1); ("b", mkGroup [0%nat] "b" 1)].
Proof. unfold Object_values_particles. rewrite indexedScene_particles. reflexivity. Qed.

Lemma indexedScene_visible id :
  (id < 2)%nat ->
  exists sp, sprites indexedScene !! id = Some sp /\ visible sp = true.
Proof.
  intros Hid.
  destruct (lookup_lt_is_Some_2 (sprites indexedScene) id) as [sp Hsp].
  { unfold indexedScene. rewrite LayoutMore.createParticleGroups_length. simpl. exact Hid. }
  exists sp. split; [exact Hsp|].
  unfold indexedScene in Hsp. rewrite LayoutMore.createParticleGroups_sprites in Hsp.
  pose proof (LayoutMore.layoutSprites_fresh
                (length (sort_by_count indexedMap)) (sort_by_count indexedMap) 0) as Hall.
  rewrite List.Forall_forall in Hall.
  apply list_elem_of_lookup_2, list_elem_of_In in Hsp. now destruct (Hall sp Hsp).
Qed.

Lemma indexedScene_raycast : raycast_ok indexedScene hitBoth.
Proof.
  intros c id Hhit. unfold hitBoth in Hhit. rewrite indexedScene_particles.
  destruct (String.eqb_spec c "b") as [->|Hb].
  - injection Hhit as <-. destruct (indexedScene_visible 0%nat ltac:(lia)) as (sp & Hsp & Hv).
    exists (mkGroup [0%nat] "b" 1), sp. repeat split; auto. now left.
  - destruct (String.eqb_spec c "1") as [->|H1]; [|discriminate].
    injection Hhit as <-. destruct (indexedScene_visible 1%nat ltac:(lia)) as (sp & Hsp & Hv).
    exists (mkGroup [1%nat] "1" 1), sp. repeat split; auto. now left.
Qed.

Lemma click_selects_last_hit_witness :
  exists d, @clickData LayoutFacts.exampleRuntime indexedScene 0%nat = Some d /\
            @onClick LayoutFacts.exampleRuntime hitBoth indexedScene
            = set_imagePreview (Some d) (highlight "b" indexedScene).
Proof.
  apply (proj1 (@click_selects_last_hit LayoutFacts.exampleRuntime indexedMap
                  indexedScene hitBoth (reach_layout _) indexedScene_raycast)
           [("1", mkGroup [1%nat] "1" 1)] "b" (mkGroup [0%nat] "b" 1) []).
  - exact indexedScene_values.
  - reflexivity.
  - intros p [].
Defined.

Lemma click_is_onClick_witness :
  @click LayoutFacts.exampleRuntime (mkClickTarget false true) hitPoster Scenario.laidOut
  = @onClick LayoutFacts.exampleRuntime hitPoster Scenario.laidOut.
Proof.
  apply (@click_is_onClick LayoutFacts.exampleRuntime Scenario.posterMap Scenario.laidOut
           (mkClickTarget false true) hitPoster).
  - apply reach_layout.
  - exact laidOut_raycast.
Defined.

Lemma hidden_sprite_keeps_opacity_witness :
  sprites (filterImagesByConfidence 0
             (closeImagePreview (filterImagesByConfidence (3 / 4) Scenario.laidOut)))
    !! sprite (Scenario.record0 false false)
  = Some (set_visible true (Scenario.sprite0 placeholderTexture)).
Proof.
  apply (@hidden_sprite_keeps_opacity LayoutFacts.exampleRuntime Scenario.posterMap
           Scenario.laidOut Scenario.key0 (Scenario.record0 false false)
           (Scenario.sprite0 placeholderTexture) (3 / 4) 0).
  - apply reach_layout.
  - rewrite Scenario.laidOut_eq. left. reflexivity.
  - rewrite Scenario.laidOut_eq. reflexivity.
  - simpl. lra.
  - simpl. lra.
Defined.

End SelectionFacts.

(* ===================================================================== *)
(** * More on the auto-rotation *)
(* ===================================================================== *)

Module AutoRotateMore.
Import AutoRotate AutoRotateFacts.
Local Open Scope Z_scope.

Definition isEnd (e : Event) : bool :=
  match e with ControlsEnd _ => true | _ => false end.

Lemma handle_last_time s e :
  isEnd e = false -> lastUserInteractionTime (handle s e) = lastUserInteractionTime s.
Proof.
  destruct e as [now|now|now|now|now]; simpl; try discriminate; intros _; try reflexivity.
  - unfold onWarmupFires. destruct (warmupTimer s) as [due|]; [|reflexivity].
    destruct (due <=? now); reflexivity.
  - unfold animate.
    destruct (userInteracted s && negb (autoRotate s)
              && (AUTO_ROTATE_RESUME_DELAY <? now - lastUserInteractionTime s))%bool;
      reflexivity.
Qed.

Lemma last_time_no_end tr : forall s,
  (forall x, In x tr -> isEnd x = false) ->
  lastUserInteractionTime (fold_left handle tr s) = lastUserInteractionTime s.
Proof.
  induction tr as [|x tr IH]; intros s Hno; simpl; [reflexivity|].
  rewrite IH by (intros y Hy; apply Hno; now right).
  apply handle_last_time, Hno. now left.
Qed.

Lemma start_then_frame s t0 t :
  AUTO_ROTATE_RESUME_DELAY < t - lastUserInteractionTime s ->
  autoRotate (handle (handle s (ControlsStart t0)) (Frame t)) = true /\
  userInteracted (handle (handle s (ControlsStart t0)) (Frame t)) = false.
Proof.
  intros Hlate. simpl. unfold animate, onStart. simpl.
  apply Z.ltb_lt in Hlate. rewrite Hlate. simpl. auto.
Qed.

(** X22.  A drag that starts more than 10 s after the previous one ended
    stops the rotation for one frame at most: the 'start' listener does not
    touch [lastUserInteractionTime], so the next frame finds the delay elapsed
    and turns [autoRotate] back on while the drag goes on.  Before any drag
    has ended the time of reference is 0, and this holds for every drag. *)
Theorem rotation_resumes_during_drag (tr : list Event) (t0 t : Z) :
  (forall tr0 e tr2,
     tr = tr0 ++ ControlsEnd e :: tr2 -> (forall x, In x tr2 -> isEnd x = false) ->
     AUTO_ROTATE_RESUME_DELAY < t - e ->
     autoRotate (run (tr ++ [ControlsStart t0; Frame t])) = true /\
     userInteracted (run (tr ++ [ControlsStart t0; Frame t])) = false) /\
  ((forall x, In x tr -> isEnd x = false) ->
   AUTO_ROTATE_RESUME_DELAY < t ->
   autoRotate (run (tr ++ [ControlsStart t0; Frame t])) = true /\
   userInteracted (run (tr ++ [ControlsStart t0; Frame t])) = false).
Proof.
  split.
  - intros tr0 e tr2 -> Hno Hlate. rewrite run_app_from.
    apply (start_then_frame _ t0 t).
    rewrite run_app_from. simpl. rewrite last_time_no_end by exact Hno. exact Hlate.
  - intros Hno Hlate. rewrite run_app_from.
    apply (start_then_frame _ t0 t). unfold run. rewrite last_time_no_end by exact Hno.
    simpl. lia.
Qed.

Lemma rotation_resumes_during_drag_witness :
  autoRotate (run ([LayoutDone 1000; WarmupFires 9000]
                     ++ [ControlsStart 1700000000000; Frame 1700000000016])) = true /\
  userInteracted (run ([LayoutDone 1000; WarmupFires 9000]
                         ++ [ControlsStart 1700000000000; Frame 1700000000016])) = false.
Proof.
  apply (proj2 (rotation_resumes_during_drag [LayoutDone 1000; WarmupFires 9000]
                  1700000000000 1700000000016)).
  - intros x [<-|[<-|[]]]; reflexivity.
  - reflexivity.
Defined.

Lemma handle_keeps_rotation s e :
  isStart e = false -> autoRotate s = true -> autoRotate (handle s e) = true.
Proof.
  destruct e as [now|now|now|now|now]; simpl; try discriminate; intros _ Hon; auto.
  - unfold onWarmupFires. destruct (warmupTimer s) as [due|]; [|exact Hon].
    destruct (due <=? now); [reflexivity|exact Hon].
  - unfold animate. rewrite Hon. now rewrite andb_false_r.
Qed.

(** X23.  Once on, [autoRotate] stays on through frames, releases, the
    layout and its timer: only a 'start' event turns it off. *)
Theorem rotation_persists (tr tr' : list Event) :
  autoRotate (run tr) = true ->
  (forall x, In x tr' -> isStart x = false) ->
  autoRotate (run (tr ++ tr')) = true.
Proof.
  intros Hon Hno. rewrite run_app_from. revert Hon Hno. generalize (run tr).
  induction tr' as [|e tr' IH]; intros s Hon Hno; simpl; [exact Hon|].
  apply IH.
  - apply handle_keeps_rotation; [apply Hno; now left|exact Hon].
  - intros x Hx. apply Hno. now right.
Qed.

Lemma rotation_persists_witness :
  autoRotate (run ([LayoutDone 1000; WarmupFires 9000]
                     ++ [Frame 9016; ControlsEnd 9500; Frame 9532])) = true.
Proof.
  apply (rotation_persists [LayoutDone 1000; WarmupFires 9000]
           [Frame 9016; ControlsEnd 9500; Frame 9532]).
  - reflexivity.
  - intros x [<-|[<-|[<-|[]]]]; reflexivity.
Defined.

End AutoRotateMore.

(* ===================================================================== *)
(** * The orbit step of [animate] *)
(* ===================================================================== *)

Module Orbit.
Import Viz.
Local Open Scope R_scope.

Definition autoRotateSpeed : R := 0.03.

(** [Math.atan2(y, x)] *)
Definition Math_atan2 (y x : R) : R :=
  if Rlt_dec 0 x then atan (y / x)
  else if Rlt_dec x 0 then
    if Rle_dec 0 y then atan (y / x) + PI else atan (y / x) - PI
  else if Rlt_dec 0 y then PI / 2
  else if Rlt_dec y 0 then - (PI / 2)
  else 0.

(** The body of [if (autoRotate) { ... }]: the new [camera.position]. *)
Definition orbit (targetPosition currentPosition : Vec3) : Vec3 :=
  let '(cx, cy, cz) := currentPosition in
  let '(tx, ty, tz) := targetPosition in
  let xzDistance := sqrt ((cx - tx) ^ 2 + (cz - tz) ^ 2) in
  let yOffset := cy - ty in
  let angle := Math_atan2 (cz - tz) (cx - tx) - autoRotateSpeed * 0.02 in
  let newX := tx + xzDistance * cos angle in
  let newZ := tz + xzDistance * sin angle in
  (newX, ty + yOffset, newZ).

(** The camera part of a frame, after the flags have been updated and before
    [controls.update()], which belongs to OrbitControls. *)
Definition animate (now : Z) (flags : AutoRotate.Flags) (targetPosition position : Vec3)
  : AutoRotate.Flags * Vec3 :=
  let flags' := AutoRotate.animate now flags in
  (flags', if AutoRotate.autoRotate flags' then orbit targetPosition position else position).

End Orbit.

Module OrbitFacts.
Import Viz Orbit.
Local Open Scope R_scope.

Lemma sqrt_polar x y :
  x <> 0 -> sqrt (x ^ 2 + y ^ 2) = Rabs x * sqrt (1 + (y / x)²).
Proof.
  intros Hx.
  replace (x ^ 2 + y ^ 2) with (x² * (1 + (y / x)²)) by (unfold Rsqr; field; exact Hx).
  rewrite sqrt_mult; [|apply Rle_0_sqr|].
  - now rewrite sqrt_Rsqr_abs.
  - pose proof (Rle_0_sqr (y / x)). lra.
Qed.

Lemma sqrt_1_sqr_pos t : 0 < sqrt (1 + t²).
Proof. apply sqrt_lt_R0. pose proof (Rle_0_sqr t). lra. Qed.

(** [Math.atan2] gives the angle of the polar form. *)
Lemma Math_atan2_polar y x :
  sqrt (x ^ 2 + y ^ 2) * cos (Math_atan2 y x) = x /\
  sqrt (x ^ 2 + y ^ 2) * sin (Math_atan2 y x) = y.
Proof.
  unfold Math_atan2.
  destruct (Rlt_dec 0 x) as [Hpos|Hnpos].
  - rewrite sqrt_polar by lra. rewrite cos_atan, sin_atan, Rabs_right by lra.
    pose proof (sqrt_1_sqr_pos (y / x)). split; field; lra.
  - destruct (Rlt_dec x 0) as [Hneg|Hnneg].
    + rewrite sqrt_polar by lra. rewrite Rabs_left by lra.
      pose proof (sqrt_1_sqr_pos (y / x)).
      destruct (Rle_dec 0 y).
      * rewrite neg_cos, neg_sin, cos_atan, sin_atan. split; field; lra.
      * replace (atan (y / x) - PI) with (- (PI - atan (y / x))) by ring.
        rewrite cos_neg, sin_neg, Rtrigo_facts.cos_pi_minus, sin_PI_x, cos_atan, sin_atan.
        split; field; lra.
    + assert (x = 0) by lra. subst x.
      replace (0 ^ 2 + y ^ 2) with (y²) by (unfold Rsqr; ring).
      rewrite sqrt_Rsqr_abs.
      destruct (Rlt_dec 0 y) as [Hy|Hny].
      * rewrite cos_PI2, sin_PI2, Rabs_right by lra. split; ring.
      * destruct (Rlt_dec y 0) as [Hy'|Hny'].
        -- rewrite cos_neg, sin_neg, cos_PI2, sin_PI2, Rabs_left by lra. split; ring.
        -- assert (y = 0) by lra. subst y. rewrite Rabs_R0. split; ring.
Qed.

(** X24.  The orbit step of a frame turns the camera about the vertical
    axis through the target by [autoRotateSpeed * 0.02] radians: it keeps the
    height of the camera and its distance to the target, so that the camera
    update of a frame, rotating or not, leaves the camera as far from the
    target as it was. *)
Theorem orbit_rotates (targetPosition currentPosition : Vec3) :
  let '(cx, cy, cz) := currentPosition in
  let '(tx, ty, tz) := targetPosition in
  let delta := autoRotateSpeed * 0.02 in
  orbit targetPosition currentPosition
  = (tx + ((cx - tx) * cos delta + (cz - tz) * sin delta),
     cy,
     tz + ((cz - tz) * cos delta - (cx - tx) * sin delta)) /\
  distanceTo (orbit targetPosition currentPosition) targetPosition
  = distanceTo currentPosition targetPosition /\
  (forall now flags,
     distanceTo (snd (animate now flags targetPosition currentPosition)) targetPosition
     = distanceTo currentPosition targetPosition).
Proof.
  destruct currentPosition as [[cx cy] cz], targetPosition as [[tx ty] tz]. cbv zeta.
  enough (Hmain :
    orbit (tx, ty, tz) (cx, cy, cz)
    = (tx + ((cx - tx) * cos (autoRotateSpeed * 0.02)
             + (cz - tz) * sin (autoRotateSpeed * 0.02)),
       cy,
       tz + ((cz - tz) * cos (autoRotateSpeed * 0.02)
             - (cx - tx) * sin (autoRotateSpeed * 0.02))) /\
    distanceTo (orbit (tx, ty, tz) (cx, cy, cz)) (tx, ty, tz)
    = distanceTo (cx, cy, cz) (tx, ty, tz)).
  { destruct Hmain as [E D]. split; [exact E|]. split; [exact D|].
    intros now flags. unfold animate. simpl snd.
    destruct (AutoRotate.autoRotate (AutoRotate.animate now flags)); [exact D|reflexivity]. }
  destruct (Math_atan2_polar (cz - tz) (cx - tx)) as [Hc Hs].
  assert (E : orbit (tx, ty, tz) (cx, cy, cz)
              = (tx + ((cx - tx) * cos (autoRotateSpeed * 0.02)
                       + (cz - tz) * sin (autoRotateSpeed * 0.02)),
                 cy,
                 tz + ((cz - tz) * cos (autoRotateSpeed * 0.02)
                       - (cx - tx) * sin (autoRotateSpeed * 0.02)))).
  { unfold orbit. rewrite cos_minus, sin_minus.
    set (r := sqrt ((cx - tx) ^ 2 + (cz - tz) ^ 2)) in *.
    set (a := Math_atan2 (cz - tz) (cx - tx)) in *.
    set (d := autoRotateSpeed * 0.02).
    rewrite <- Hc, <- Hs. f_equal; [f_equal|]; ring. }
  split; [exact E|]. rewrite E. unfold distanceTo. f_equal.
  pose proof (sin2_cos2 (autoRotateSpeed * 0.02)) as Hsc. unfold Rsqr in Hsc.
  set (c := cos (autoRotateSpeed * 0.02)) in *.
  set (sn := sin (autoRotateSpeed * 0.02)) in *.
  replace ((tx + ((cx - tx) * c + (cz - tz) * sn) - tx)
           * (tx + ((cx - tx) * c + (cz - tz) * sn) - tx)
           + (cy - ty) * (cy - ty)
           + (tz + ((cz - tz) * c - (cx - tx) * sn) - tz)
             * (tz + ((cz - tz) * c - (cx - tx) * sn) - tz))
    with (((cx - tx) * (cx - tx) + (cz - tz) * (cz - tz)) * (sn * sn + c * c)
          + (cy - ty) * (cy - ty)) by ring.
  rewrite Hsc. ring.
Qed.

End OrbitFacts.

(* ===================================================================== *)
(** * The throttled listeners of the controls *)
(* ===================================================================== *)

Module Throttle.
Local Open Scope Z_scope.

Definition LOG_DELAY : Z := 500.
Definition LOD_DELAY : Z := 250.

(** One throttle: the due time of its armed timer, if any, and the times at
    which its callback has run, latest first. *)
Record Throttled := mkThrottled {
  timeout : option Z;
  runs : list Z
}.

(** [if (!timeout) { timeout = setTimeout(..., delay); }] *)
Definition arm (delay now : Z) (th : Throttled) : Throttled :=
  match timeout th with
  | None => mkThrottled (Some (now + delay)) (runs th)
  | Some _ => th
  end.

(** The timer callback: the throttled action, then [timeout = null].  A timer
    does not run before it is due. *)
Definition fire (now : Z) (th : Throttled) : Throttled :=
  match timeout th with
  | Some due => if due <=? now then mkThrottled None (now :: runs th) else th
  | None => th
  end.

Record Listeners := mkListeners {
  logThrottleTimeout : Throttled;     (* its callback logs the camera *)
  throttleTimeout : Throttled         (* its callback runs updateLOD *)
}.

Definition init : Listeners := mkListeners (mkThrottled None []) (mkThrottled None []).

Inductive Event :=
| Change (now : Z)          (* controls 'change' *)
| LogTimer (now : Z)        (* the 500 ms timer *)
| LodTimer (now : Z).       (* the 250 ms timer *)

Definition time_of (e : Event) : Z :=
  match e with Change t | LogTimer t | LodTimer t => t end.

Definition handle (s : Listeners) (e : Event) : Listeners :=
  match e with
  | Change now =>
      mkListeners (arm LOG_DELAY now (logThrottleTimeout s)) (arm LOD_DELAY now (throttleTimeout s))
  | LogTimer now => mkListeners (fire now (logThrottleTimeout s)) (throttleTimeout s)
  | LodTimer now => mkListeners (logThrottleTimeout s) (fire now (throttleTimeout s))
  end.

Definition run (tr : list Event) : Listeners := fold_left handle tr init.

(** Timestamps do not decrease along the trace, starting from [now]. *)
Fixpoint chronological (now : Z) (tr : list Event) : bool :=
  match tr with
  | [] => true
  | e :: tr' => (now <=? time_of e) && chronological (time_of e) tr'
  end.

Definition isChange (e : Event) : bool :=
  match e with Change _ => true | _ => false end.

(** Consecutive entries of a log, latest first, are at least [d] apart. *)
Fixpoint spaced (d : Z) (l : list Z) : Prop :=
  match l with
  | a :: ((b :: _) as l') => b + d <= a /\ spaced d l'
  | _ => True
  end.

End Throttle.

Module ThrottleFacts.
Import Throttle.
Local Open Scope Z_scope.

(** What holds of a throttle of delay [d] at time [now] after [n] changes. *)
Definition inv (d now : Z) (n : nat) (th : Throttled) : Prop :=
  spaced d (runs th) /\
  (forall r, In r (runs th) -> r <= now) /\
  match timeout th with
  | Some due =>
      (S (length (runs th)) <= n)%nat /\
      forall r rest, runs th = r :: rest -> r + d <= due
  | None => (length (runs th) <= n)%nat
  end.

Lemma inv_later d now now' n n' th :
  now <= now' -> (n <= n')%nat -> inv d now n th -> inv d now' n' th.
Proof.
  intros Ht Hn (Hs & Hb & Hp). split; [exact Hs|]. split.
  - intros r Hr. specialize (Hb r Hr). lia.
  - destruct (timeout th); [destruct Hp; split; [lia|auto]|lia].
Qed.

Lemma inv_arm d now n th :
  0 <= d -> inv d now n th -> inv d now (S n) (arm d now th).
Proof.
  intros Hd (Hs & Hb & Hp). unfold arm.
  destruct (timeout th) as [due|] eqn:E.
  - split; [exact Hs|]. split; [exact Hb|]. rewrite E. destruct Hp. split; [lia|auto].
  - split; [exact Hs|]. split; [exact Hb|]. simpl. split; [lia|].
    intros r rest Hr. specialize (Hb r). rewrite Hr in Hb. specialize (Hb (or_introl eq_refl)).
    lia.
Qed.

Lemma inv_fire d now n th : inv d now n th -> inv d now n (fire now th).
Proof.
  intros (Hs & Hb & Hp). unfold fire.
  destruct (timeout th) as [due|] eqn:E; [|repeat split; auto; now rewrite E].
  destruct (due <=? now) eqn:Hdue; [|repeat split; auto; now rewrite E].
  apply Z.leb_le in Hdue. destruct Hp as [Hn Hgap]. simpl. split; [|split].
  - destruct (runs th) as [|r rest] eqn:Er; [exact I|].
    split; [|exact Hs]. specialize (Hgap r rest eq_refl). lia.
  - intros r [<-|Hr]; [lia|auto].
  - simpl. lia.
Qed.

Definition changes (tr : list Event) : nat := length (List.filter isChange tr).

Lemma run_inv tr : forall s now n,
  chronological now tr = true ->
  inv LOG_DELAY now n (logThrottleTimeout s) -> inv LOD_DELAY now n (throttleTimeout s) ->
  exists now',
    inv LOG_DELAY now' (n + changes tr) (logThrottleTimeout (fold_left handle tr s)) /\
    inv LOD_DELAY now' (n + changes tr) (throttleTimeout (fold_left handle tr s)).
Proof.
  induction tr as [|e tr IH]; intros s now n Hchr Hlog Hlod.
  - exists now. unfold changes. simpl. rewrite Nat.add_0_r. auto.
  - simpl in Hchr. apply andb_true_iff in Hchr. destruct Hchr as [Hle Hchr].
    apply Z.leb_le in Hle.
    apply (inv_later LOG_DELAY now (time_of e) n n _ Hle (le_n _)) in Hlog.
    apply (inv_later LOD_DELAY now (time_of e) n n _ Hle (le_n _)) in Hlod.
    destruct e as [t|t|t]; simpl in *.
    + destruct (IH (handle s (Change t)) t (S n) Hchr) as (now' & H1 & H2).
      * apply inv_arm; [unfold LOG_DELAY; lia|exact Hlog].
      * apply inv_arm; [unfold LOD_DELAY; lia|exact Hlod].
      * exists now'. unfold changes in *. simpl.
        rewrite Nat.add_succ_r. auto.
    + destruct (IH (handle s (LogTimer t)) t n Hchr) as (now' & H1 & H2).
      * now apply inv_fire.
      * exact Hlod.
      * exists now'. auto.
    + destruct (IH (handle s (LodTimer t)) t n Hchr) as (now' & H1 & H2).
      * exact Hlog.
      * now apply inv_fire.
      * exists now'. auto.
Qed.

(** X25.  Along any trace of the 'change' listener and its two timers,
    two runs of [updateLOD] are at least 250 ms apart and two logs at least
    500 ms apart, and neither runs more often than 'change' was raised. *)
Theorem throttled_updates (start : Z) (tr : list Event) :
  chronological start tr = true ->
  spaced LOD_DELAY (runs (throttleTimeout (run tr))) /\
  spaced LOG_DELAY (runs (logThrottleTimeout (run tr))) /\
  (length (runs (throttleTimeout (run tr))) <= changes tr)%nat /\
  (length (runs (logThrottleTimeout (run tr))) <= changes tr)%nat.
Proof.
  intros Hchr.
  destruct (run_inv tr init start 0%nat Hchr) as (now' & (Hs1 & _ & Hp1) & (Hs2 & _ & Hp2)).
  - repeat split; simpl; auto; tauto.
  - repeat split; simpl; auto; tauto.
  - fold (run tr) in *. simpl in Hp1, Hp2.
    split; [exact Hs2|]. split; [exact Hs1|].
    split.
    + destruct (timeout (throttleTimeout (run tr))); [destruct Hp2|]; lia.
    + destruct (timeout (logThrottleTimeout (run tr))); [destruct Hp1|]; lia.
Qed.

Lemma throttled_updates_witness :
  spaced LOD_DELAY
    (runs (throttleTimeout (run [Change 0; Change 100; LodTimer 250; Change 260; LodTimer 510]))) /\
  spaced LOG_DELAY
    (runs (logThrottleTimeout (run [Change 0; Change 100; LodTimer 250; Change 260; LodTimer 510]))) /\
  (length (runs (throttleTimeout
                   (run [Change 0; Change 100; LodTimer 250; Change 260; LodTimer 510])))
   <= changes [Change 0; Change 100; LodTimer 250; Change 260; LodTimer 510])%nat /\
  (length (runs (logThrottleTimeout
                   (run [Change 0; Change 100; LodTimer 250; Change 260; LodTimer 510])))
   <= changes [Change 0; Change 100; LodTimer 250; Change 260; LodTimer 510])%nat.
Proof.
  apply (throttled_updates 0 [Change 0; Change 100; LodTimer 250; Change 260; LodTimer 510]).
  reflexivity.
Defined.

End ThrottleFacts.

(* ===================================================================== *)
(** * The navigation guide *)
(* ===================================================================== *)

Module NavigationGuide.
Local Open Scope Z_scope.

Inductive Display := none | block.

(** The two texts of the toggle button. *)
Inductive Label :=
| PlainLabel       (* 'Navigation Guide' *)
| CloseLabel.      (* the same, preceded by a cross *)

(** The two callbacks given to [setTimeout]. *)
Inductive Timer :=
| HideTimer        (* guideContainer.style.display = 'none' *)
| ShowTimer.       (* opacity = '1', transform = 'translateY(0)' *)

Record Guide := mkGuide {
  isOpen : bool;
  display : Display;
  opacity : Z;
  translateY : Z;
  innerHTML : Label;
  navigationGuideState : option string;    (* the item of localStorage *)
  timers : list (Z * Timer)                (* armed timers with their due times *)
}.

(** The end of [createNavigationGuide], run at time [now] with the stored item. *)
Definition createNavigationGuide (now : Z) (stored : option string) : Guide :=
  let closed :=
    match stored with
    | Some v => String.eqb v "closed"
    | None => false
    end in
  if closed then mkGuide false none 0 (-10) PlainLabel stored []
  else mkGuide true block 0 (-10) CloseLabel stored [(now + 10, ShowTimer)].

Definition close (now : Z) (g : Guide) : Guide :=
  mkGuide false (display g) 0 (-10) PlainLabel (navigationGuideState g)
          (timers g ++ [(now + 300, HideTimer)]).

Definition open (now : Z) (g : Guide) : Guide :=
  mkGuide true block (opacity g) (translateY g) CloseLabel (navigationGuideState g)
          (timers g ++ [(now + 10, ShowTimer)]).

(** The two 'click' listeners of the toggle button, in the order in which
    they were added. *)
Definition toggleClick (now : Z) (g : Guide) : Guide :=
  let g1 := if isOpen g then close now g else open now g in
  mkGuide (isOpen g1) (display g1) (opacity g1) (translateY g1) (innerHTML g1)
          (Some (if isOpen g1 then "open" else "closed")) (timers g1).

(** The 'click' listener of the document, for a click outside the button and
    the guide. *)
Definition outsideClick (now : Z) (g : Guide) : Guide :=
  if isOpen g then close now g else g.

Definition runTimer (g : Guide) (t : Z * Timer) : Guide :=
  match snd t with
  | HideTimer =>
      mkGuide (isOpen g) none (opacity g) (translateY g) (innerHTML g)
              (navigationGuideState g) (timers g)
  | ShowTimer =>
      mkGuide (isOpen g) (display g) 1 0 (innerHTML g) (navigationGuideState g) (timers g)
  end.

(** Timers run in the order of their due times, and in the order of their
    creation when due together. *)
Fixpoint insert_timer (t : Z * Timer) (l : list (Z * Timer)) : list (Z * Timer) :=
  match l with
  | [] => [t]
  | u :: l' => if fst t <=? fst u then t :: u :: l' else u :: insert_timer t l'
  end.

Definition by_due (l : list (Z * Timer)) : list (Z * Timer) := fold_right insert_timer [] l.

(** The timers due at [now] run. *)
Definition timersRun (now : Z) (g : Guide) : Guide :=
  let due := List.filter (fun t => fst t <=? now) (timers g) in
  let later := List.filter (fun t => negb (fst t <=? now)) (timers g) in
  fold_left runTimer (by_due due)
    (mkGuide (isOpen g) (display g) (opacity g) (translateY g) (innerHTML g)
             (navigationGuideState g) later).

Inductive Event :=
| ToggleClick (now : Z)
| OutsideClick (now : Z)
| TimersRun (now : Z).

Definition handle (g : Guide) (e : Event) : Guide :=
  match e with
  | ToggleClick now => toggleClick now g
  | OutsideClick now => outsideClick now g
  | TimersRun now => timersRun now g
  end.

Definition isToggle (e : Event) : bool :=
  match e with ToggleClick _ => true | _ => false end.

End NavigationGuide.

Module NavigationGuideFacts.
Import NavigationGuide.
Local Open Scope Z_scope.

(** What the timers leave alone. *)
Definition switch (g : Guide) : bool * Label * option string :=
  (isOpen g, innerHTML g, navigationGuideState g).

Lemma runTimer_switch g t : switch (runTimer g t) = switch g.
Proof. unfold runTimer. destruct (snd t); reflexivity. Qed.

Lemma fold_runTimer_switch l : forall g, switch (fold_left runTimer l g) = switch g.
Proof.
  induction l as [|t l IH]; intros g; simpl; [reflexivity|].
  now rewrite IH, runTimer_switch.
Qed.

Lemma timersRun_switch now g : switch (timersRun now g) = switch g.
Proof. unfold timersRun. now rewrite fold_runTimer_switch. Qed.

Lemma fold_runTimer_hide l : forall g,
  In HideTimer (map snd l) -> display (fold_left runTimer l g) = none.
Proof.
  induction l as [|t l IH] using rev_ind; intros g Hin; [destruct Hin|].
  rewrite fold_left_app. simpl. rewrite map_app in Hin. apply in_app_or in Hin.
  unfold runTimer at 1. destruct (snd t) eqn:E; [reflexivity|].
  simpl. destruct Hin as [Hin|[Hin|[]]]; [auto|]. simpl in Hin. congruence.
Qed.

Lemma insert_timer_In t l x : In x (insert_timer t l) <-> x = t \/ In x l.
Proof.
  induction l as [|u l IH]; simpl; [intuition|].
  destruct (fst t <=? fst u); simpl; [intuition|]. rewrite IH. intuition.
Qed.

Lemma by_due_In l x : In x (by_due l) <-> In x l.
Proof.
  induction l as [|t l IH]; simpl; [tauto|].
  rewrite insert_timer_In, IH. intuition.
Qed.

(** The state of the guide as a label and a flag. *)
Definition labelled (g : Guide) : Prop :=
  innerHTML g = CloseLabel <-> isOpen g = true.

Lemma handle_labelled g e : labelled g -> labelled (handle g e).
Proof.
  unfold labelled. intros Hl. destruct e as [now|now|now]; simpl.
  - unfold toggleClick. destruct (isOpen g); simpl; split; congruence.
  - unfold outsideClick. destruct (isOpen g) eqn:E; [simpl; split; congruence|].
    now rewrite E.
  - pose proof (timersRun_switch now g) as Hs. unfold switch in Hs.
    injection Hs as -> -> _. exact Hl.
Qed.

Lemma handle_store g e :
  isToggle e = false -> navigationGuideState (handle g e) = navigationGuideState g.
Proof.
  destruct e as [now|now|now]; simpl; try discriminate; intros _.
  - unfold outsideClick. destruct (isOpen g); reflexivity.
  - pose proof (timersRun_switch now g) as Hs. unfold switch in Hs. now injection Hs.
Qed.

Lemma handle_stays_closed g e :
  isToggle e = false -> isOpen g = false -> isOpen (handle g e) = false.
Proof.
  destruct e as [now|now|now]; simpl; try discriminate; intros _ Hc.
  - unfold outsideClick. now rewrite Hc.
  - pose proof (timersRun_switch now g) as Hs. unfold switch in Hs.
    injection Hs as -> _ _. exact Hc.
Qed.

Lemma quiet_store tr : forall g,
  (forall e, In e tr -> isToggle e = false) ->
  navigationGuideState (fold_left handle tr g) = navigationGuideState g /\
  (isOpen g = false -> isOpen (fold_left handle tr g) = false).
Proof.
  induction tr as [|e tr IH]; intros g Hno; simpl; [auto|].
  destruct (IH (handle g e)) as [Hs Hc]; [intros x Hx; apply Hno; now right|].
  assert (He : isToggle e = false) by (apply Hno; now left).
  split.
  - rewrite Hs. now apply handle_store.
  - intros Hg. apply Hc. now apply handle_stays_closed.
Qed.

(** X26.  Whatever is clicked and whenever the timers run, the button
    shows the cross exactly when [isOpen] is true.  The stored item is written
    by the toggle button alone: it names the state the last click on the
    button left, it says 'open' whenever the guide is open after such a click,
    and it still says 'open' after a click outside has closed the guide, so
    that the next load opens the guide again. *)
Theorem guide_label_and_store (now : Z) (stored : option string) (tr : list Event) :
  let g := fold_left handle tr (createNavigationGuide now stored) in
  (innerHTML g = CloseLabel <-> isOpen g = true) /\
  ((forall e, In e tr -> isToggle e = false) -> navigationGuideState g = stored) /\
  (forall tr1 t tr2,
     tr = tr1 ++ ToggleClick t :: tr2 -> (forall e, In e tr2 -> isToggle e = false) ->
     let g1 := fold_left handle (tr1 ++ [ToggleClick t]) (createNavigationGuide now stored) in
     navigationGuideState g = Some (if isOpen g1 then "open" else "closed") /\
     (isOpen g = true -> navigationGuideState g = Some "open")) /\
  (forall t1 t2 now',
     isOpen g = false ->
     let g' := outsideClick t2 (toggleClick t1 g) in
     isOpen g' = false /\ navigationGuideState g' = Some "open" /\
     isOpen (createNavigationGuide now' (navigationGuideState g')) = true).
Proof.
  cbv zeta. split; [|split; [|split]].
  - assert (H0 : labelled (createNavigationGuide now stored)).
    { unfold labelled, createNavigationGuide.
      destruct stored as [v|]; [destruct (String.eqb v "closed")|]; simpl; split; congruence. }
    revert H0. generalize (createNavigationGuide now stored) as g1.
    induction tr as [|e tr IH]; intros g1 H1; simpl; [exact H1|].
    apply IH. now apply handle_labelled.
  - intros Hno. destruct (quiet_store tr (createNavigationGuide now stored) Hno) as [Hs _].
    rewrite Hs. unfold createNavigationGuide.
    destruct stored as [v|]; [destruct (String.eqb v "closed")|]; reflexivity.
  - intros tr1 t tr2 -> Hno.
    replace (tr1 ++ ToggleClick t :: tr2) with ((tr1 ++ [ToggleClick t]) ++ tr2)
      by (rewrite <- app_assoc; reflexivity).
    rewrite (fold_left_app handle (tr1 ++ [ToggleClick t]) tr2).
    set (g1 := fold_left handle (tr1 ++ [ToggleClick t]) (createNavigationGuide now stored)).
    destruct (quiet_store tr2 g1 Hno) as [Hs Hc].
    assert (Hg1 : navigationGuideState g1 = Some (if isOpen g1 then "open" else "closed")).
    { unfold g1. rewrite fold_left_app. simpl. unfold toggleClick.
      destruct (isOpen (fold_left handle tr1 (createNavigationGuide now stored)));
        reflexivity. }
    rewrite Hs, Hg1. split; [reflexivity|].
    intros Hopen. destruct (isOpen g1) eqn:E; [reflexivity|].
    rewrite (Hc eq_refl) in Hopen. discriminate.
  - intros t1 t2 now' Hclosed. unfold toggleClick, outsideClick. rewrite Hclosed. simpl.
    auto.
Qed.

Lemma guide_label_and_store_witness :
  navigationGuideState
    (fold_left handle [TimersRun 10; OutsideClick 2000; TimersRun 2300]
       (createNavigationGuide 0 None))
  = None.
Proof.
  apply (proj1 (proj2 (guide_label_and_store 0 None
                         [TimersRun 10; OutsideClick 2000; TimersRun 2300]))).
  intros e [<-|[<-|[<-|[]]]]; reflexivity.
Defined.

(** X27.  Closing the guide with the button and opening it again within
    300 ms leaves it open and hidden: once the timer armed by the closing click
    has run, [isOpen] is true and the button shows the cross, but the [display]
    of the guide is 'none'. *)
Theorem reopen_hides_guide (g : Guide) (t t' T : Z) :
  isOpen g = true -> t <= t' -> t' < t + 300 -> t + 300 <= T ->
  let g' := timersRun T (toggleClick t' (toggleClick t g)) in
  display (toggleClick t' (toggleClick t g)) = block /\
  isOpen g' = true /\ innerHTML g' = CloseLabel /\ display g' = none.
Proof.
  intros Hopen Hle Hlt HT. cbv zeta.
  split; [unfold toggleClick; rewrite Hopen; reflexivity|].
  pose proof (timersRun_switch T (toggleClick t' (toggleClick t g))) as Hs.
  unfold switch in Hs. injection Hs as Ho Hl _.
  rewrite Ho, Hl. unfold toggleClick at 1 3. rewrite Hopen. simpl.
  split; [reflexivity|]. split; [reflexivity|].
  unfold timersRun. apply fold_runTimer_hide.
  apply in_map_iff. exists (t + 300, HideTimer). split; [reflexivity|].
  apply by_due_In. apply filter_In. split.
  - unfold toggleClick. rewrite Hopen. simpl.
    apply in_or_app. left. apply in_or_app. right. now left.
  - simpl. now apply Z.leb_le.
Qed.

Lemma reopen_hides_guide_witness :
  display (toggleClick 1100 (toggleClick 1000 (createNavigationGuide 0 None))) = block /\
  isOpen (timersRun 1300 (toggleClick 1100 (toggleClick 1000 (createNavigationGuide 0 None))))
  = true /\
  innerHTML (timersRun 1300 (toggleClick 1100 (toggleClick 1000 (createNavigationGuide 0 None))))
  = CloseLabel /\
  display (timersRun 1300 (toggleClick 1100 (toggleClick 1000 (createNavigationGuide 0 None))))
  = none.
Proof.
  apply (reopen_hides_guide (createNavigationGuide 0 None) 1000 1100 1300); try reflexivity; lia.
Defined.

End NavigationGuideFacts.

(* ===================================================================== *)
(** * The category summary of the sketch *)
(* ===================================================================== *)

Module Sketch.
Import Viz.
Local Open Scope R_scope.

(** A value of [uniqueCategories]; [imageFiles[index]] is undefined out of
    range. *)
Record CategoryData := mkCategoryData {
  count : nat;
  confidence : R;
  images : list (option string)
}.

(** The callback of [classifier.classify] in [processImages] for the image at
    [index]; with no result [topPrediction] is undefined and the callback
    throws before it touches the map. *)
Definition onClassified (imageFiles : list string)
    (uniqueCategories : list (string * CategoryData)) (index : nat)
    (results : list (string * R)) : list (string * CategoryData) :=
  match results with
  | [] => uniqueCategories
  | (label, conf) :: _ =>
      match Map_get label uniqueCategories with
      | Some data =>
          Map_set label
            (mkCategoryData (count data + 1) (confidence data + conf)
                            (images data ++ [nth_error imageFiles index]))
            uniqueCategories
      | None =>
          Map_set label (mkCategoryData 1 conf [nth_error imageFiles index]) uniqueCategories
      end
  end.

(** The map after the callbacks [callbacks], in the order in which they ran. *)
Definition processImages (imageFiles : list string)
    (callbacks : list (nat * list (string * R))) : list (string * CategoryData) :=
  fold_left (fun m cb => onClassified imageFiles m (fst cb) (snd cb)) callbacks [].

(** The callbacks whose top prediction is [label]. *)
Definition topIs (label : string) (cb : nat * list (string * R)) : bool :=
  match snd cb with
  | (l, _) :: _ => String.eqb l label
  | [] => false
  end.

Definition topConfidence (cb : nat * list (string * R)) : R :=
  match snd cb with
  | (_, conf) :: _ => conf
  | [] => 0
  end.

End Sketch.

Module SketchFacts.
Import Viz SceneFacts Sketch.
Local Open Scope R_scope.

Definition summarised (imageFiles : list string) (callbacks : list (nat * list (string * R)))
    (m : list (string * CategoryData)) (label : string) : Prop :=
  let hits := List.filter (topIs label) callbacks in
  match Map_get label m with
  | None => hits = []
  | Some data =>
      count data = length hits /\ (1 <= count data)%nat /\
      images data = map (fun cb => nth_error imageFiles (fst cb)) hits /\
      confidence data = fold_left Rplus (map topConfidence hits) 0
  end.

Lemma processImages_snoc imageFiles callbacks cb :
  processImages imageFiles (callbacks ++ [cb])
  = onClassified imageFiles (processImages imageFiles callbacks) (fst cb) (snd cb).
Proof. unfold processImages. now rewrite fold_left_app. Qed.

(** X28.  However the classifications come back, every entry of
    [uniqueCategories] counts the callbacks whose top prediction was its
    label: [count] is their number and the length of [images], [images] lists
    the names found at their indices in the order of the callbacks, and
    [confidence] is the sum of their confidences; a label that no callback put
    on top has no entry. *)
Theorem summary_counts (imageFiles : list string)
    (callbacks : list (nat * list (string * R))) (label : string) :
  List.NoDup (map fst (processImages imageFiles callbacks)) /\
  summarised imageFiles callbacks (processImages imageFiles callbacks) label.
Proof.
  induction callbacks as [|cb callbacks IH] using rev_ind.
  - split; [constructor|reflexivity].
  - destruct IH as [Hnd Hsum]. rewrite processImages_snoc.
    set (m := processImages imageFiles callbacks) in *.
    unfold summarised in *. cbv zeta in *.
    rewrite List.filter_app. simpl.
    destruct cb as [index results]. unfold onClassified. simpl fst. simpl snd.
    destruct results as [|[l conf] rest].
    { change (topIs label (index, [])) with false. cbv iota.
      rewrite app_nil_r. auto. }
    change (topIs label (index, (l, conf) :: rest)) with (String.eqb l label).
    assert (Hkeys : List.NoDup
              (map fst
                 match Map_get l m with
                 | Some data =>
                     Map_set l (mkCategoryData (count data + 1) (confidence data + conf)
                                  (images data ++ [nth_error imageFiles index])) m
                 | None => Map_set l (mkCategoryData 1 conf [nth_error imageFiles index]) m
                 end)).
    { destruct (Map_get l m); now apply Map_set_keys_NoDup. }
    split; [exact Hkeys|].
    destruct (String.eqb_spec l label) as [->|Hne].
    + destruct (Map_get label m) as [data|] eqn:E; rewrite Map_get_set_eq.
      * destruct Hsum as (Hc & Hpos & Hi & Hs).
        rewrite length_app, !map_app, fold_left_app. simpl.
        rewrite Hc, Hi, Hs. repeat split; auto. lia.
      * rewrite Hsum. simpl. repeat split; auto. unfold topConfidence. simpl. ring.
    + rewrite app_nil_r.
      destruct (Map_get l m) as [data|]; rewrite Map_get_set_ne by exact Hne; exact Hsum.
Qed.

End SketchFacts.
